(** * CircularBuffer: a shallow embedding of [CircularBuffer.cpp]

    The C++ class [CircularBuffer] keeps variable sized blocks in a fixed
    byte region used as a ring.  Blocks are deleted lazily and compacted
    out when space is needed or when the buffer is printed.

    Conventions of the embedding:
    - a [byte *] into the ring is its offset from [buf], a [Z]
      ([buf] itself is offset 0, [bufLastPlusOne] is offset [bufSize]);
    - a [uint_t] ([size_t], 64 bits) is a [Z] and every [uint_t]
      operation is followed by [wrap];
    - the key of a block is the address of the caller's data, a [Z];
      the data handed over with it is a [list byte] whose length is the
      [blockSize] argument;
    - the doubly linked list [bufBlockHead .. bufBlockTail] is the list
      [bufBlockList], head first; the [next]/[prev] links are the order
      of that list and a [BufBlock *] walking the list is an index;
    - [blockMap] maps a key to the address of a [BufBlock]; every
      [BufBlock] carries its own address in [blockAddr];
    - an access outside the malloc'ed region, a null or a dangling
      [BufBlock *] is undefined behaviour: the operation yields [Undef]. *)

From Stdlib Require Import ZArith List Lia.
From Stdlib Require Import Strings.Byte Strings.String.
From stdpp Require Import base tactics option list gmap.

Local Open Scope Z_scope.

(** ** Undefined behaviour as an error monad *)

Inductive UB : Set :=
  | OutOfBounds   (* read or write outside [buf, bufLastPlusOne) *)
  | NullPointer   (* dereference of a null BufBlock pointer *)
  | InvalidBlock. (* dereference of a BufBlock that is not in the list *)

Inductive result (A : Type) : Type :=
  | Ok (a : A)
  | Undef (u : UB).
Arguments Ok {A} a.
Arguments Undef {A} u.

#[global] Instance result_ret : MRet result := λ A a, Ok a.
#[global] Instance result_bind : MBind result := λ A B f r,
  match r with
  | Ok a => f a
  | Undef u => Undef u
  end.

Definition or_undef {A} (u : UB) (o : option A) : result A :=
  match o with
  | Some a => Ok a
  | None => Undef u
  end.

(** ** Machine integers *)

(** [uint_t] is [size_t]: arithmetic modulo [2^64]. *)
Definition wrap (z : Z) : Z := z mod 2 ^ 64.

(** The cast [(int) z] of the 64 bit value [z]: the low 32 bits, signed
    (conversion of an out of range value is implementation defined). *)
Definition to_int (z : Z) : Z := (z + 2 ^ 31) mod 2 ^ 32 - 2 ^ 31.

(** ** Data *)

Inductive ResultCode : Set :=
  | RC_SUCCESS
  | RC_BLOCK_SIZE_EXCEEDS_FREE_SPACE
  | RC_BLOCK_ADD_FAILED_DUPLICATE
  | RC_BLOCK_ADD_FAILED_MAP_ERR
  | RC_BLOCK_NOT_FOUND
  | RC_BLOCK_MAP_ERASE_ERR.

Definition ResultCode_eqb (a b : ResultCode) : bool :=
  match a, b with
  | RC_SUCCESS, RC_SUCCESS
  | RC_BLOCK_SIZE_EXCEEDS_FREE_SPACE, RC_BLOCK_SIZE_EXCEEDS_FREE_SPACE
  | RC_BLOCK_ADD_FAILED_DUPLICATE, RC_BLOCK_ADD_FAILED_DUPLICATE
  | RC_BLOCK_ADD_FAILED_MAP_ERR, RC_BLOCK_ADD_FAILED_MAP_ERR
  | RC_BLOCK_NOT_FOUND, RC_BLOCK_NOT_FOUND
  | RC_BLOCK_MAP_ERASE_ERR, RC_BLOCK_MAP_ERASE_ERR => true
  | _, _ => false
  end.

(** [struct BufInfo]; the fields carry the prefix [bi_] because
    [CircularBuffer] has members of the same names. *)
Record BufInfo : Set := mkBufInfo {
  bi_bufSize : Z;
  bi_bufBytesFree : Z;
  bi_bufBytesUsed : Z
}.

(** [struct BufBlock] without [next] and [prev] (the order of
    [bufBlockList]), with the address of the struct in [blockAddr]. *)
Record BufBlock : Set := mkBufBlock {
  blockAddr : N;
  blockInBuf : Z;
  blockMapKey : Z;
  blockSize : Z;
  blockDeletePending : bool
}.

(** The private members of [struct CircularBuffer].  [buf] holds the
    contents of the malloc'ed region; [nextBlock] is the address that
    the next [new(BufBlock)] returns. *)
Record CircularBuffer : Type := mkCircularBuffer {
  buf : list byte;
  bufSize : Z;
  bufStart : Z;
  bufEnd : Z;
  bufBytesFree : Z;
  bufBytesDeletePending : Z;
  bufBlockList : list BufBlock;
  blockMap : gmap Z N;
  nextBlock : N
}.

Definition bufLastPlusOne (s : CircularBuffer) : Z := bufSize s.

Definition set_buf (m : list byte) (s : CircularBuffer) : CircularBuffer :=
  mkCircularBuffer m (bufSize s) (bufStart s) (bufEnd s) (bufBytesFree s)
    (bufBytesDeletePending s) (bufBlockList s) (blockMap s) (nextBlock s).

Definition set_bufStart (p : Z) (s : CircularBuffer) : CircularBuffer :=
  mkCircularBuffer (buf s) (bufSize s) p (bufEnd s) (bufBytesFree s)
    (bufBytesDeletePending s) (bufBlockList s) (blockMap s) (nextBlock s).

Definition set_bufEnd (p : Z) (s : CircularBuffer) : CircularBuffer :=
  mkCircularBuffer (buf s) (bufSize s) (bufStart s) p (bufBytesFree s)
    (bufBytesDeletePending s) (bufBlockList s) (blockMap s) (nextBlock s).

Definition set_bufBytesFree (n : Z) (s : CircularBuffer) : CircularBuffer :=
  mkCircularBuffer (buf s) (bufSize s) (bufStart s) (bufEnd s) n
    (bufBytesDeletePending s) (bufBlockList s) (blockMap s) (nextBlock s).

Definition set_bufBytesDeletePending (n : Z) (s : CircularBuffer)
  : CircularBuffer :=
  mkCircularBuffer (buf s) (bufSize s) (bufStart s) (bufEnd s)
    (bufBytesFree s) n (bufBlockList s) (blockMap s) (nextBlock s).

Definition set_bufBlockList (l : list BufBlock) (s : CircularBuffer)
  : CircularBuffer :=
  mkCircularBuffer (buf s) (bufSize s) (bufStart s) (bufEnd s)
    (bufBytesFree s) (bufBytesDeletePending s) l (blockMap s) (nextBlock s).

Definition set_blockMap (m : gmap Z N) (s : CircularBuffer) : CircularBuffer :=
  mkCircularBuffer (buf s) (bufSize s) (bufStart s) (bufEnd s)
    (bufBytesFree s) (bufBytesDeletePending s) (bufBlockList s) m
    (nextBlock s).

Definition set_nextBlock (a : N) (s : CircularBuffer) : CircularBuffer :=
  mkCircularBuffer (buf s) (bufSize s) (bufStart s) (bufEnd s)
    (bufBytesFree s) (bufBytesDeletePending s) (bufBlockList s) (blockMap s)
    a.

Definition set_blockInBuf (p : Z) (b : BufBlock) : BufBlock :=
  mkBufBlock (blockAddr b) p (blockMapKey b) (blockSize b)
    (blockDeletePending b).

Definition set_blockDeletePending (d : bool) (b : BufBlock) : BufBlock :=
  mkBufBlock (blockAddr b) (blockInBuf b) (blockMapKey b) (blockSize b) d.

(** ** Memory *)

(** [memmove(buf + dst, src, |src|)] where [src] is the caller's data. *)
Definition store (dst : Z) (src : list byte) (m : list byte)
  : result (list byte) :=
  let n := Z.of_nat (length src) in
  if (0 <=? dst) && (dst + n <=? Z.of_nat (length m)) then
    Ok (take (Z.to_nat dst) m ++ src ++ drop (Z.to_nat (dst + n)) m)
  else Undef OutOfBounds.

(** The [n] bytes at [buf + src]. *)
Definition load (src n : Z) (m : list byte) : result (list byte) :=
  if (0 <=? src) && (0 <=? n) && (src + n <=? Z.of_nat (length m)) then
    Ok (take (Z.to_nat n) (drop (Z.to_nat src) m))
  else Undef OutOfBounds.

(** [memmove(buf + dst, buf + src, n)]: the source is read as a whole
    before the destination is written, so overlapping ranges are fine. *)
Definition memmove (dst src n : Z) (m : list byte) : result (list byte) :=
  bytes ← load src n m;
  store dst bytes m.

(** ** The constructor *)

(** [initBuf(bufSz)].  [alloc] is what [malloc(bufSz)] returns: [None]
    for a null pointer, [Some m] for a region whose (indeterminate)
    contents are [m]. *)
Definition initBuf (bufSz : Z) (alloc : option (list byte)) : CircularBuffer :=
  let size := match alloc with Some _ => bufSz | None => 0 end in
  {| buf := default [] alloc;
     bufSize := size;
     bufStart := 0;
     bufEnd := 0;
     bufBytesFree := size;
     bufBytesDeletePending := 0;
     bufBlockList := [];
     blockMap := ∅;
     nextBlock := 1%N |}.

(** ** Private member functions *)

Definition setBufInfo (s : CircularBuffer) : BufInfo :=
  {| bi_bufSize := bufSize s;
     bi_bufBytesFree := wrap (bufBytesFree s + bufBytesDeletePending s);
     bi_bufBytesUsed :=
       wrap (wrap (bufSize s - bufBytesFree s) - bufBytesDeletePending s) |}.

(** [removeBlockFromList(bufBlock)] for the block at index [i].  The
    three cases of the source (head, tail, inner block) relink the
    neighbours; on the list all three drop the element. *)
Definition removeBlockFromList (i : nat) (s : CircularBuffer)
  : CircularBuffer :=
  set_bufBlockList (delete i (bufBlockList s)) s.

(** The body of [while (bytesToMove)] in [removeBlockFromBuf]; both of
    its paths end in [break], so it runs once. *)
Definition moveBytes (dst src bytesToMove : Z) (s : CircularBuffer)
  : result CircularBuffer :=
  let case1 := dst <? src in
  let len1 := wrap (bufLastPlusOne s - (if case1 then src else dst)) in
  if bytesToMove <=? len1 then
    m ← memmove dst src bytesToMove (buf s);
    Ok (set_bufEnd (dst + bytesToMove) (set_buf m s))
  else
    m ← memmove dst src len1 (buf s);
    let bytesToMove := wrap (bytesToMove - len1) in
    let dst := dst + len1 in
    '(m, bytesToMove, src) ←
      (if case1 then
         let len2 := wrap (bufLastPlusOne s - dst) in
         let src := 0 in
         m ← memmove dst src len2 m;
         Ok (m, wrap (bytesToMove - len2), src + len2)
       else Ok (m, bytesToMove, src + len1));
    let dst := 0 in
    m ← memmove dst src bytesToMove m;
    Ok (set_bufEnd (dst + bytesToMove) (set_buf m s)).

Definition removeBlockFromBuf (blk blksz : Z) (s : CircularBuffer)
  : result CircularBuffer :=
  let dst := blk in
  let src := blk + blksz in
  let src :=
    if bufLastPlusOne s <=? src then 0 + wrap (src - bufLastPlusOne s)
    else src in
  let bytesToMove :=
    if src <=? bufEnd s then wrap (bufEnd s - src)
    else wrap ((bufLastPlusOne s - src) + (bufEnd s - 0)) in
  head ← or_undef NullPointer (head (bufBlockList s));
  let '(s, bytesToMove) :=
    if blk =? blockInBuf head then (set_bufStart src s, 0)
    else (s, bytesToMove) in
  tail ← or_undef NullPointer (last (bufBlockList s));
  let '(s, bytesToMove) :=
    if blk =? blockInBuf tail then (set_bufEnd dst s, 0)
    else (s, bytesToMove) in
  s ← (if bytesToMove =? 0 then Ok s else moveBytes dst src bytesToMove s);
  let s :=
    set_bufBytesDeletePending (wrap (bufBytesDeletePending s - blksz)) s in
  Ok (set_bufBytesFree (wrap (bufBytesFree s + blksz)) s).

(** The loop of [updateBufBlockList]: [block] walks the ring from
    [bufStart], [l] is the rest of the list from [bufBlock] on. *)
Fixpoint updateBlocks (last block : Z) (l : list BufBlock) : list BufBlock :=
  match l with
  | [] => []
  | b :: l' =>
      let next := block + blockSize b in
      let next := if last <=? next then (next - last) + 0 else next in
      set_blockInBuf block b :: updateBlocks last next l'
  end.

Definition updateBufBlockList (s : CircularBuffer) : CircularBuffer :=
  set_bufBlockList
    (updateBlocks (bufLastPlusOne s) (bufStart s) (bufBlockList s)) s.

Definition findBlockInMap (block : Z) (s : CircularBuffer)
  : ResultCode * option N :=
  match blockMap s !! block with
  | None => (RC_BLOCK_NOT_FOUND, None)
  | Some p => (RC_SUCCESS, Some p)
  end.

(** [std::map::insert] keeps an existing entry and reports it. *)
Definition addBlockToMap (block : Z) (p : N) (s : CircularBuffer)
  : ResultCode * CircularBuffer :=
  match blockMap s !! block with
  | None => (RC_SUCCESS, set_blockMap (<[block := p]> (blockMap s)) s)
  | Some _ => (RC_BLOCK_ADD_FAILED_MAP_ERR, s)
  end.

Definition deleteBlockFromMap (block : Z) (s : CircularBuffer)
  : ResultCode * CircularBuffer :=
  match blockMap s !! block with
  | Some _ => (RC_SUCCESS, set_blockMap (delete block (blockMap s)) s)
  | None => (RC_BLOCK_MAP_ERASE_ERR, s)
  end.

(** The loop of [compactBuf].  [bufBlock] is the block at index [n - 1]
    of the list, null when [n = 0]; the [prev] of the block at index [i]
    is the block at index [i - 1], also after the block at [i] has been
    taken out of the list. *)
Fixpoint compactLoop (n : nat) (s : CircularBuffer) : result CircularBuffer :=
  match n with
  | O => Ok s
  | S i =>
      bufBlock ← or_undef InvalidBlock (bufBlockList s !! i);
      if blockDeletePending bufBlock then
        s ← removeBlockFromBuf (blockInBuf bufBlock) (blockSize bufBlock) s;
        let s := removeBlockFromList i s in
        let s := snd (deleteBlockFromMap (blockMapKey bufBlock) s) in
        compactLoop i s
      else compactLoop i s
  end.

Definition compactBuf (s : CircularBuffer) : result CircularBuffer :=
  if bufBytesDeletePending s =? 0 then Ok s
  else
    s ← compactLoop (length (bufBlockList s)) s;
    Ok (updateBufBlockList s).

Definition checkSize (blockSize : Z) (s : CircularBuffer)
  : result (ResultCode * CircularBuffer) :=
  if blockSize <=? bufBytesFree s then Ok (RC_SUCCESS, s)
  else if wrap (bufBytesFree s + bufBytesDeletePending s) <? blockSize then
    Ok (RC_BLOCK_SIZE_EXCEEDS_FREE_SPACE, s)
  else
    s ← compactBuf s;
    Ok (if blockSize <=? bufBytesFree s then RC_SUCCESS
        else RC_BLOCK_SIZE_EXCEEDS_FREE_SPACE, s).

(** [appendBlockToBuf(block, blockSize)]; [block] is the data at the
    caller's address and [blockSize] its length. *)
Definition appendBlockToBuf (block : list byte) (s : CircularBuffer)
  : result (ResultCode * CircularBuffer) :=
  let blockSize := Z.of_nat (length block) in
  '(rc, s) ← checkSize blockSize s;
  if negb (ResultCode_eqb rc RC_SUCCESS) then Ok (rc, s)
  else
    let len1 := wrap (bufLastPlusOne s - bufEnd s) in
    '(src, s) ←
      (if (bufStart s <? bufEnd s) && (len1 <? blockSize) then
         m ← store (bufEnd s) (take (Z.to_nat len1) block) (buf s);
         Ok (drop (Z.to_nat len1) block, set_bufEnd 0 (set_buf m s))
       else Ok (block, s));
    m ← store (bufEnd s) src (buf s);
    let s := set_bufEnd (bufEnd s + Z.of_nat (length src)) (set_buf m s) in
    let s := if bufLastPlusOne s <=? bufEnd s then set_bufEnd 0 s else s in
    Ok (RC_SUCCESS, set_bufBytesFree (wrap (bufBytesFree s - blockSize)) s).

(** ** Dereferencing a [BufBlock *] taken from the map *)

Definition hasAddr (p : N) (b : BufBlock) : bool := (blockAddr b =? p)%N.

Fixpoint findBlock (p : N) (l : list BufBlock) : option (nat * BufBlock) :=
  match l with
  | [] => None
  | b :: l' =>
      if hasAddr p b then Some (O, b)
      else prod_map S id <$> findBlock p l'
  end.

(** ** Public member functions *)

(** [addBlockToBuf] from [byte *blockAddrInBuf = bufEnd;] on: the
    path of a key that is not in the map, or that was marked and has
    been compacted. *)
Definition addNewBlock (key : Z) (block : list byte) (s : CircularBuffer)
  : result (ResultCode * BufInfo * CircularBuffer) :=
  let blockSize := Z.of_nat (length block) in
  let blockAddrInBuf := bufEnd s in
  '(rc, s) ← appendBlockToBuf block s;
  let '(rc, s) :=
    if ResultCode_eqb rc RC_SUCCESS then
      let bufBlock :=
        {| blockAddr := nextBlock s;
           blockInBuf := blockAddrInBuf;
           blockMapKey := key;
           blockSize := blockSize;
           blockDeletePending := false |} in
      let s := set_nextBlock (N.succ (nextBlock s)) s in
      let s := set_bufBlockList (bufBlockList s ++ [bufBlock]) s in
      addBlockToMap key (blockAddr bufBlock) s
    else (rc, s) in
  Ok (rc, setBufInfo s, s).

(** [addBlockToBuf(block, blockSize, bufInfo)]: [key] is the pointer
    [block], [block] the [blockSize] bytes it points to. *)
Definition addBlockToBuf (key : Z) (block : list byte) (s : CircularBuffer)
  : result (ResultCode * BufInfo * CircularBuffer) :=
  match findBlockInMap key s with
  | (RC_SUCCESS, Some p) =>
      '(_, bufBlock) ← or_undef InvalidBlock (findBlock p (bufBlockList s));
      if blockDeletePending bufBlock then
        s ← compactBuf s;
        addNewBlock key block s
      else Ok (RC_BLOCK_ADD_FAILED_DUPLICATE, setBufInfo s, s)
  | _ => addNewBlock key block s
  end.

Definition deleteBlockFromBuf (key : Z) (s : CircularBuffer)
  : result (ResultCode * BufInfo * CircularBuffer) :=
  s ← match findBlockInMap key s with
      | (RC_SUCCESS, Some p) =>
          '(i, bufBlock) ←
            or_undef InvalidBlock (findBlock p (bufBlockList s));
          let s :=
            set_bufBytesDeletePending
              (wrap (bufBytesDeletePending s + blockSize bufBlock)) s in
          Ok (set_bufBlockList
                (<[i := set_blockDeletePending true bufBlock]>
                   (bufBlockList s)) s)
      | _ => Ok s
      end;
  Ok (RC_SUCCESS, setBufInfo s, s).

(** [printf("%.*s", precision, p)] where [l] is the bytes from [p] to
    the end of the region: at most [n] bytes, up to the first NUL. *)
Fixpoint print_s (n : nat) (l : list byte) : result (list byte) :=
  match n with
  | O => Ok []
  | S n' =>
      match l with
      | [] => Undef OutOfBounds
      | b :: l' =>
          if Byte.eqb b x00 then Ok []
          else out ← print_s n' l'; Ok (b :: out)
      end
  end.

(** A negative precision counts as no precision: the string ends at the
    first NUL. *)
Definition printf_s (precision p : Z) (m : list byte) : result (list byte) :=
  if (0 <=? p) && (p <=? Z.of_nat (length m)) then
    let l := drop (Z.to_nat p) m in
    if precision <? 0 then print_s (S (length l)) l
    else print_s (Z.to_nat precision) l
  else Undef OutOfBounds.

(** [printBuf()]; the result is what has been written to stdout. *)
Definition printBuf (s : CircularBuffer)
  : result (list byte * CircularBuffer) :=
  s ← compactBuf s;
  let bytesToPrint := wrap (bufSize s - bufBytesFree s) in
  if bytesToPrint <=? wrap (bufLastPlusOne s - bufStart s) then
    let precision := to_int bytesToPrint in
    out ← printf_s precision (bufStart s) (buf s);
    Ok (out, s)
  else
    let precision := to_int (bufLastPlusOne s - bufStart s) in
    out1 ← printf_s precision (bufStart s) (buf s);
    let precision := to_int bytesToPrint - precision in
    out2 ← printf_s precision 0 (buf s);
    Ok (out1 ++ out2, s).

(** ** Sequences of calls *)

Inductive Op : Type :=
  | Add (key : Z) (block : list byte)
  | Delete (key : Z)
  | Dump.

(** What a call hands back: the result code and the stats of [Add] and
    [Delete], the output of [Dump]. *)
Inductive Reply : Type :=
  | Status (rc : ResultCode) (bufInfo : BufInfo)
  | Printed (out : list byte).

Definition step (o : Op) (s : CircularBuffer)
  : result (Reply * CircularBuffer) :=
  match o with
  | Add key block =>
      '(rc, bi, s) ← addBlockToBuf key block s; Ok (Status rc bi, s)
  | Delete key =>
      '(rc, bi, s) ← deleteBlockFromBuf key s; Ok (Status rc bi, s)
  | Dump =>
      '(out, s) ← printBuf s; Ok (Printed out, s)
  end.

Fixpoint run (ops : list Op) (s : CircularBuffer)
  : result (list Reply * CircularBuffer) :=
  match ops with
  | [] => Ok ([], s)
  | o :: ops' =>
      '(r, s) ← step o s;
      '(rs, s) ← run ops' s;
      Ok (r :: rs, s)
  end.

(** The state after [ops], when every call is defined. *)
Definition exec (ops : list Op) (s : CircularBuffer) : result CircularBuffer :=
  '(_, s) ← run ops s; Ok s.

(** A state is reachable when a sequence of calls leads to it from a
    freshly constructed buffer. *)
Definition reachable (s : CircularBuffer) : Prop :=
  ∃ bufSz alloc ops,
    length alloc = Z.to_nat bufSz ∧ 0 <= bufSz ∧
    exec ops (initBuf bufSz (Some alloc)) = Ok s.

Definition sumZ (f : BufBlock → Z) (l : list BufBlock) : Z :=
  foldr (λ b acc, f b + acc) 0 l.

Definition pendingSize (b : BufBlock) : Z :=
  if blockDeletePending b then blockSize b else 0.

Definition liveSize (b : BufBlock) : Z :=
  if blockDeletePending b then 0 else blockSize b.

(** Bytes of blocks that are in the list and marked for deletion. *)
Definition pendingBytes (l : list BufBlock) : Z := sumZ pendingSize l.

(** Bytes of blocks that are in the list and not marked for deletion. *)
Definition liveBytes (l : list BufBlock) : Z := sumZ liveSize l.

Definition usedBytes (s : CircularBuffer) : Z := liveBytes (bufBlockList s).

(** The accounting of the region: every byte is free, waits for its
    deletion, or belongs to a live block. *)
Definition accounting (s : CircularBuffer) : Prop :=
  bufSize s = bufBytesFree s + bufBytesDeletePending s + usedBytes s.

(** The counters agree with the list: [bufBytesDeletePending] is the
    size of the marked blocks, and the accounting holds within the
    range of [uint_t]. *)
Definition counted (s : CircularBuffer) : Prop :=
  0 <= bufBytesFree s ∧
  bufSize s < 2 ^ 64 ∧
  Forall (λ b, 0 <= blockSize b) (bufBlockList s) ∧
  bufBytesDeletePending s = pendingBytes (bufBlockList s) ∧
  accounting s.

(** No block of the list is marked for deletion. *)
Definition all_live (l : list BufBlock) : Prop :=
  Forall (λ b, blockDeletePending b = false) l.

(** The fields that moving bytes around leaves alone. *)
Definition same_blocks (s s' : CircularBuffer) : Prop :=
  bufSize s' = bufSize s ∧
  bufBlockList s' = bufBlockList s ∧
  blockMap s' = blockMap s ∧
  nextBlock s' = nextBlock s.

(** [Delete] of a key whose block is already marked is a repeated
    delete; [once o s] excludes it for the call [o] in state [s]. *)
Definition once (o : Op) (s : CircularBuffer) : Prop :=
  match o with
  | Delete key =>
      ∀ p i b,
        blockMap s !! key = Some p →
        findBlock p (bufBlockList s) = Some (i, b) →
        blockDeletePending b = false
  | _ => True
  end.

(** No call of [ops], run from [s], is a repeated delete. *)
Fixpoint deletes_once (ops : list Op) (s : CircularBuffer) : Prop :=
  match ops with
  | [] => True
  | o :: ops' =>
      once o s ∧ ∀ r s', step o s = Ok (r, s') → deletes_once ops' s'
  end.

(** Bytes of all blocks of the list, marked or not. *)
Definition allBytes (l : list BufBlock) : Z := sumZ blockSize l.

(** The free counter agrees with the list: the region is the free bytes
    plus the bytes of the blocks that are still linked. *)
Definition space_ok (s : CircularBuffer) : Prop :=
  0 <= bufBytesFree s ∧
  bufSize s < 2 ^ 64 ∧
  Forall (λ b, 0 <= blockSize b) (bufBlockList s) ∧
  bufSize s = bufBytesFree s + allBytes (bufBlockList s).

(** Every entry of the map points to a block that is linked in the
    list and carries the entry's key, and [new(BufBlock)] has not yet
    handed out an address at or above [nextBlock]. *)
Definition linked (s : CircularBuffer) : Prop :=
  (∀ key p, blockMap s !! key = Some p →
     ∃ i b, findBlock p (bufBlockList s) = Some (i, b) ∧ blockMapKey b = key) ∧
  Forall (λ b, (blockAddr b < nextBlock s)%N) (bufBlockList s).

(** Two blocks that differ at most in [blockInBuf] and in the mark. *)
Definition same_block (a b : BufBlock) : Prop :=
  blockAddr a = blockAddr b ∧ blockMapKey a = blockMapKey b ∧
  blockSize a = blockSize b.

(** The blocks of a list that are marked for deletion, and the others. *)
Definition marked (l : list BufBlock) : list BufBlock :=
  filter (λ b, blockDeletePending b = true) l.

Definition unmarked (l : list BufBlock) : list BufBlock :=
  filter (λ b, blockDeletePending b = false) l.

(** ** A buffer that has only seen [Add]

    [adds] are the calls [Add key data] that were accepted, in order.
    [bytesOf adds] is their data laid end to end. *)

Definition bytesOf (adds : list (Z * list byte)) : list byte :=
  concat (adds.*2).

Definition sizeOf (adds : list (Z * list byte)) : Z :=
  Z.of_nat (length (bytesOf adds)).

(** The end cursor after [t] bytes have been appended to a fresh
    region of [bufSz] bytes. *)
Definition endAfter (bufSz t : Z) : Z := if bufSz <=? t then 0 else t.

(** The blocks that the accepted [adds] link, when the first of them
    gets the address [addr] and [t] bytes are in the region already. *)
Fixpoint blocksFrom (bufSz : Z) (addr : N) (t : Z)
    (adds : list (Z * list byte)) : list BufBlock :=
  match adds with
  | [] => []
  | (key, data) :: adds' =>
      mkBufBlock addr (endAfter bufSz t) key (Z.of_nat (length data)) false
      :: blocksFrom bufSz (N.succ addr)
           (t + Z.of_nat (length data)) adds'
  end.

(** The map entries of the accepted [adds]. *)
Fixpoint mapFrom (addr : N) (adds : list (Z * list byte)) (m : gmap Z N)
  : gmap Z N :=
  match adds with
  | [] => m
  | (key, _) :: adds' => mapFrom (N.succ addr) adds' (<[key := addr]> m)
  end.

(** The buffer after the accepted [adds] on a fresh region [alloc] of
    [bufSz] bytes. *)
Definition packed (bufSz : Z) (alloc : list byte)
    (adds : list (Z * list byte)) : CircularBuffer :=
  {| buf := bytesOf adds ++ drop (length (bytesOf adds)) alloc;
     bufSize := bufSz;
     bufStart := 0;
     bufEnd := endAfter bufSz (sizeOf adds);
     bufBytesFree := bufSz - sizeOf adds;
     bufBytesDeletePending := 0;
     bufBlockList := blocksFrom bufSz 1 0 adds;
     blockMap := mapFrom 1 adds ∅;
     nextBlock := 1 + N.of_nat (length adds) |}.

(** Which of the calls [Add key data] are accepted after [done]: those
    whose key is new and whose data still fits. *)
Fixpoint accept (bufSz : Z) (done adds : list (Z * list byte))
  : list (Z * list byte) :=
  match adds with
  | [] => done
  | (key, data) :: adds' =>
      if decide (key ∈ done.*1) then accept bufSz done adds'
      else if sizeOf done + Z.of_nat (length data) <=? bufSz
           then accept bufSz (done ++ [(key, data)]) adds'
           else accept bufSz done adds'
  end.

(** The result codes of these calls. *)
Fixpoint acceptCodes (bufSz : Z) (done adds : list (Z * list byte))
  : list ResultCode :=
  match adds with
  | [] => []
  | (key, data) :: adds' =>
      if decide (key ∈ done.*1)
      then RC_BLOCK_ADD_FAILED_DUPLICATE :: acceptCodes bufSz done adds'
      else if sizeOf done + Z.of_nat (length data) <=? bufSz
           then RC_SUCCESS
                :: acceptCodes bufSz (done ++ [(key, data)]) adds'
           else RC_BLOCK_SIZE_EXCEEDS_FREE_SPACE
                :: acceptCodes bufSz done adds'
  end.

Definition addCalls (adds : list (Z * list byte)) : list Op :=
  (λ kd, Add kd.1 kd.2) <$> adds.

(** ** The block list at the level of pointers

    [bufBlockList] above is the sequence of [BufBlock]s that the source keeps
    as a doubly linked list between [bufBlockHead] and [bufBlockTail].  Here
    are the links themselves: a pointer is the address of a [BufBlock], 0 is
    the null pointer, and [blocks] holds the link fields of the allocated
    [BufBlock]s. *)
Module Ptr.

Record Links : Set := mkLinks {
  next : N;
  prev : N
}.

Record BlockList : Type := mkBlockList {
  blocks       : gmap N Links;
  bufBlockHead : N;
  bufBlockTail : N
}.

Definition set_blocks (m : gmap N Links) (h : BlockList) : BlockList :=
  mkBlockList m (bufBlockHead h) (bufBlockTail h).

Definition set_bufBlockHead (p : N) (h : BlockList) : BlockList :=
  mkBlockList (blocks h) p (bufBlockTail h).

Definition set_bufBlockTail (p : N) (h : BlockList) : BlockList :=
  mkBlockList (blocks h) (bufBlockHead h) p.

(** [*p] for a [BufBlock *p]. *)
Definition deref (p : N) (h : BlockList) : result Links :=
  if (p =? 0)%N then Undef NullPointer
  else or_undef InvalidBlock (blocks h !! p).

(** [p->next = v] and [p->prev = v]. *)
Definition set_next (p v : N) (h : BlockList) : result BlockList :=
  b ← deref p h;
  Ok (set_blocks (<[p := mkLinks v (prev b)]> (blocks h)) h).

Definition set_prev (p v : N) (h : BlockList) : result BlockList :=
  b ← deref p h;
  Ok (set_blocks (<[p := mkLinks (next b) v]> (blocks h)) h).

Definition removeBlockFromList (bufBlock : N) (h : BlockList)
  : result BlockList :=
  if (bufBlock =? bufBlockHead h)%N then
    b ← deref bufBlock h;
    let next := next b in
    let h := set_bufBlockHead next h in
    if negb (next =? 0)%N then set_prev next 0 h
    else Ok (set_bufBlockTail 0 h)
  else if (bufBlock =? bufBlockTail h)%N then
    b ← deref bufBlock h;
    let prev := prev b in
    let h := set_bufBlockTail prev h in
    if negb (prev =? 0)%N then set_next prev 0 h
    else Ok (set_bufBlockHead 0 h)
  else
    b ← deref bufBlock h;
    let prev := prev b in
    let next := next b in
    h ← set_next prev next h;
    set_prev next prev h.

(** The linking of the [new(BufBlock)] in [addBlockToBuf]; [bufBlock] is the
    address that [new] returned. *)
Definition linkBlock (bufBlock : N) (h : BlockList) : result BlockList :=
  let h :=
    set_blocks (<[bufBlock := mkLinks 0 (bufBlockTail h)]> (blocks h)) h in
  h ← (if negb (bufBlockTail h =? 0)%N
       then set_next (bufBlockTail h) bufBlock h else Ok h);
  let h :=
    if (bufBlockHead h =? 0)%N then set_bufBlockHead bufBlock h else h in
  Ok (set_bufBlockTail bufBlock h).

(** The loops [while (bufBlock) { ...; bufBlock = bufBlock->next; }] of
    [updateBufBlockList] and [bufBlock = bufBlock->prev] of [compactBuf]:
    the blocks visited from [p] on.  [None] when [fuel] iterations do not
    reach the null pointer. *)
Fixpoint walk (field : Links → N) (fuel : nat) (p : N) (h : BlockList)
  : option (result (list N)) :=
  match fuel with
  | O => None
  | S fuel =>
      if (p =? 0)%N then Some (Ok [])
      else
        match blocks h !! p with
        | None => Some (Undef InvalidBlock)
        | Some b =>
            match walk field fuel (field b) h with
            | Some (Ok l) => Some (Ok (p :: l))
            | r => r
            end
        end
  end.

(** The blocks [l], in this order, are linked from [first] to [last]; the
    block before them is [pv], the one after them [nx]. *)
Fixpoint dseg (m : gmap N Links) (l : list N) (pv first last nx : N)
  : Prop :=
  match l with
  | [] => first = nx ∧ last = pv
  | p :: l' =>
      first = p ∧ p ≠ 0%N ∧
      ∃ b, m !! p = Some b ∧ prev b = pv ∧ dseg m l' p (next b) last nx
  end.

(** [h] is the well-formed doubly linked list of the blocks [l]. *)
Definition dlist (h : BlockList) (l : list N) : Prop :=
  NoDup l ∧ dseg (blocks h) l 0 (bufBlockHead h) (bufBlockTail h) 0.

(** The list before the first [addBlockToBuf]: [initBuf] sets both ends to
    the null pointer. *)
Definition empty : BlockList := mkBlockList ∅ 0 0.

End Ptr.

(** ** The buffer read as a ring *)

(** The bytes in use, read from [bufStart] on and continued at the start of
    the allocation when they pass its end. *)
Definition ringBytes (s : CircularBuffer) : list byte :=
  let a := Z.to_nat (bufStart s) in
  take (Z.to_nat (bufSize s - bufBytesFree s))
    (drop a (buf s) ++ take a (buf s)).

(** [bufStart] lies in the allocation, [bufEnd] is where the bytes in use
    end on the ring, and an empty buffer starts at offset 0. *)
Definition ring_ok (s : CircularBuffer) : Prop :=
  Z.of_nat (length (buf s)) = bufSize s ∧
  0 <= bufStart s < bufSize s ∧
  0 <= bufBytesFree s <= bufSize s ∧
  (bufBytesFree s = bufSize s → bufStart s = 0) ∧
  bufEnd s = (bufStart s + (bufSize s - bufBytesFree s)) mod bufSize s.

(** ** The data of the unit tests in the source *)

Definition line (text : string) : list byte :=
  list_byte_of_string text ++ [x0a].

Definition msg1 : list byte := line "Buf msg1".
Definition msg2 : list byte := line "Buf msg2".
Definition msg3 : list byte := line "Buf msg3".
Definition msg4 : list byte := line "Buf msg4".
Definition msg5 : list byte := line "Buf msg5".

(** The calls of the test [DeleteBlock]. *)
Definition DeleteBlock_calls : list Op :=
  [Add 3 msg3; Add 4 msg4; Dump; Delete 3; Add 3 msg3; Dump;
   Delete 4; Add 5 msg5; Dump].

(** A buffer of [n] bytes whose fresh region is filled with ['.']. *)
Definition CircularBuffer_new (n : nat) : CircularBuffer :=
  initBuf (Z.of_nat n) (Some (replicate n "."%byte)).

Definition printed (r : result (list Reply * CircularBuffer))
  : list (list byte) :=
  match r with
  | Ok (rs, _) =>
      omap (λ r, match r with Printed o => Some o | Status _ _ => None end) rs
  | Undef _ => []
  end.

Definition codes (r : result (list Reply * CircularBuffer))
  : list ResultCode :=
  match r with
  | Ok (rs, _) =>
      omap (λ r, match r with Status rc _ => Some rc | Printed _ => None end)
        rs
  | Undef _ => []
  end.

(** The first [n] capital letters. *)
Definition letters (n : nat) : list byte :=
  take n (list_byte_of_string "ABCDEFGHIJKLMNOPQRSTUVWXYZ").

(** [CircularBuffer_new 18] after [Add 3 msg3]. *)
Definition one_live : CircularBuffer :=
  {| buf := msg3 ++ replicate 9 "."%byte;
     bufSize := 18;
     bufStart := 0;
     bufEnd := 9;
     bufBytesFree := 9;
     bufBytesDeletePending := 0;
     bufBlockList := [mkBufBlock 1 0 3 9 false];
     blockMap := {[3 := 1%N]};
     nextBlock := 2 |}.

(** [one_live] after [Delete 3]. *)
Definition one_pending : CircularBuffer :=
  set_bufBlockList [mkBufBlock 1 0 3 9 true]
    (set_bufBytesDeletePending 9 one_live).

(** [one_pending] after [Dump]: the list is empty, yet [bufStart] and
    [bufEnd] differ. *)
Definition drained : CircularBuffer :=
  {| buf := msg3 ++ replicate 9 "."%byte;
     bufSize := 18;
     bufStart := 9;
     bufEnd := 0;
     bufBytesFree := 18;
     bufBytesDeletePending := 0;
     bufBlockList := [];
     blockMap := ∅;
     nextBlock := 2 |}.

(** [CircularBuffer_new 20] after [Add 1 msg1; Add 2 msg2; Delete 1; Dump]:
    the bytes in use start at offset 9. *)
Definition front_freed : CircularBuffer :=
  {| buf := msg1 ++ msg2 ++ replicate 2 "."%byte;
     bufSize := 20;
     bufStart := 9;
     bufEnd := 18;
     bufBytesFree := 11;
     bufBytesDeletePending := 0;
     bufBlockList := [mkBufBlock 2 9 2 9 false];
     blockMap := {[2 := 2%N]};
     nextBlock := 3 |}.

(** [front_freed] after [Add 3 msg3]: the new block passes the end of the
    allocation and continues at its start. *)
Definition wrapped : CircularBuffer :=
  {| buf := drop 2 msg3 ++ drop 7 msg1 ++ msg2 ++ take 2 msg3;
     bufSize := 20;
     bufStart := 9;
     bufEnd := 7;
     bufBytesFree := 2;
     bufBytesDeletePending := 0;
     bufBlockList := [mkBufBlock 2 9 2 9 false; mkBufBlock 3 18 3 9 false];
     blockMap := <[3 := 3%N]> {[2 := 2%N]};
     nextBlock := 4 |}.

(** [CircularBuffer_new 20] after
    [Add 1 (letters 9); Add 2 (letters 3); Add 3 (letters 4); Delete 1; Dump;
     Add 4 (letters 6); Delete 3]: the marked block at offset 12 has four
    bytes, the block behind it ends two bytes after the start of the
    allocation. *)
Definition short_wrap : CircularBuffer :=
  {| buf := list_byte_of_string "EFCDEFGHIABCABCDABCD";
     bufSize := 20;
     bufStart := 9;
     bufEnd := 2;
     bufBytesFree := 7;
     bufBytesDeletePending := 4;
     bufBlockList := [mkBufBlock 2 9 2 3 false; mkBufBlock 3 12 3 4 true;
                      mkBufBlock 4 16 4 6 false];
     blockMap := <[4 := 4%N]> (<[3 := 3%N]> {[2 := 2%N]});
     nextBlock := 5 |}.

(** * Basic facts *)

Lemma bind_Ok {A B} (r : result A) (f : A → result B) (b : B) :
  r ≫= f = Ok b → ∃ a, r = Ok a ∧ f a = Ok b.
Proof. destruct r as [a|u]; simpl; [eauto | discriminate]. Qed.

Lemma or_undef_Ok {A} (u : UB) (o : option A) (a : A) :
  or_undef u o = Ok a → o = Some a.
Proof. destruct o; simpl; congruence. Qed.

Lemma wrap_small (z : Z) : 0 <= z < 2 ^ 64 → wrap z = z.
Proof. intros. unfold wrap. apply Z.mod_small. assumption. Qed.

Lemma wrap_range (z : Z) : 0 <= wrap z < 2 ^ 64.
Proof. unfold wrap. apply Z.mod_pos_bound. reflexivity. Qed.

(** The tests [BasicTwoMsgs] and [DeleteBlock] print what their
    comments expect. *)
Example test_BasicTwoMsgs :
  printed (run [Add 1 msg1; Add 2 msg2; Dump] (CircularBuffer_new 100))
  = [msg1 ++ msg2].
Proof. vm_compute. reflexivity. Qed.

Example test_DeleteBlock :
  let r := run DeleteBlock_calls (CircularBuffer_new 18) in
  printed r = [msg3 ++ msg4; msg4 ++ msg3; msg3 ++ msg5] ∧
  codes r = replicate 6 RC_SUCCESS.
Proof. vm_compute. split; reflexivity. Qed.

(** * Looking up a block by its address *)

Lemma findBlock_lookup (p : N) (l : list BufBlock) (i : nat) (b : BufBlock) :
  findBlock p l = Some (i, b) → l !! i = Some b.
Proof.
  revert i. induction l as [|x l IH]; intros i; simpl.
  - discriminate.
  - destruct (hasAddr p x).
    + intros [= <- <-]. reflexivity.
    + destruct (findBlock p l) as [[j y]|]; simpl; [|discriminate].
      intros [= <- <-]. simpl. apply IH. reflexivity.
Qed.

Lemma set_blockDeletePending_id (b : BufBlock) :
  set_blockDeletePending (blockDeletePending b) b = b.
Proof. destruct b. reflexivity. Qed.

(** * Delete *)

(** C2.  [deleteBlockFromBuf] on a key that is not in the map changes
    nothing and fills in the current stats, but its result code is
    [RC_SUCCESS]: the [RC_BLOCK_NOT_FOUND] of the lookup is dropped. *)
Theorem deleteBlockFromBuf_absent (key : Z) (s : CircularBuffer) :
  blockMap s !! key = None →
  fst (findBlockInMap key s) = RC_BLOCK_NOT_FOUND ∧
  deleteBlockFromBuf key s = Ok (RC_SUCCESS, setBufInfo s, s).
Proof.
  intros Hkey. unfold deleteBlockFromBuf, findBlockInMap.
  rewrite Hkey. split; reflexivity.
Qed.

Lemma deleteBlockFromBuf_absent_witness :
  blockMap (CircularBuffer_new 18) !! 7 = None ∧
  deleteBlockFromBuf 7 (CircularBuffer_new 18)
  = Ok (RC_SUCCESS, setBufInfo (CircularBuffer_new 18), CircularBuffer_new 18).
Proof.
  split; [reflexivity|].
  apply (deleteBlockFromBuf_absent 7 (CircularBuffer_new 18)). reflexivity.
Defined.

(** C10.  [deleteBlockFromBuf] on a key whose block is already marked
    returns [RC_SUCCESS] with the stats and adds the size of the block to
    [bufBytesDeletePending] once more; nothing else changes. *)
Theorem deleteBlockFromBuf_pending_again
    (key : Z) (p : N) (i : nat) (b : BufBlock) (s : CircularBuffer) :
  blockMap s !! key = Some p →
  findBlock p (bufBlockList s) = Some (i, b) →
  blockDeletePending b = true →
  ∃ s',
    deleteBlockFromBuf key s = Ok (RC_SUCCESS, setBufInfo s', s') ∧
    s' = set_bufBytesDeletePending
           (wrap (bufBytesDeletePending s + blockSize b)) s ∧
    (0 <= bufBytesDeletePending s + blockSize b < 2 ^ 64 →
     bufBytesDeletePending s'
     = bufBytesDeletePending s + blockSize b) ∧
    bufBlockList s' = bufBlockList s ∧
    findBlock p (bufBlockList s') = Some (i, b) ∧
    blockMap s' = blockMap s ∧
    buf s' = buf s ∧
    bufStart s' = bufStart s ∧
    bufEnd s' = bufEnd s ∧
    bufBytesFree s' = bufBytesFree s.
Proof.
  intros Hkey Hfind Hpend.
  eexists. split; [|split; [reflexivity|]].
  - unfold deleteBlockFromBuf, findBlockInMap.
    rewrite Hkey, Hfind. cbn [or_undef mbind result_bind].
    rewrite <- Hpend, set_blockDeletePending_id.
    rewrite list_insert_id by (eapply findBlock_lookup; eassumption).
    destruct s; reflexivity.
  - simpl. repeat split; try assumption.
    intros Hrange. apply wrap_small. assumption.
Qed.

(** * Add of a key that is live *)

(** [addBlockToBuf] on a key whose block is in the list and not
    marked for deletion returns [RC_BLOCK_ADD_FAILED_DUPLICATE] with the
    current stats and leaves the buffer as it was, so a [printBuf] after
    it prints what it would have printed before it. *)
Theorem addBlockToBuf_duplicate
    (key : Z) (block : list byte) (p : N) (i : nat) (b : BufBlock)
    (s : CircularBuffer) :
  blockMap s !! key = Some p →
  findBlock p (bufBlockList s) = Some (i, b) →
  blockDeletePending b = false →
  addBlockToBuf key block s
  = Ok (RC_BLOCK_ADD_FAILED_DUPLICATE, setBufInfo s, s) ∧
  codes (run [Add key block] s) = [RC_BLOCK_ADD_FAILED_DUPLICATE] ∧
  printed (run [Add key block; Dump] s) = printed (run [Dump] s).
Proof.
  intros Hkey Hfind Hlive.
  assert (Hadd : addBlockToBuf key block s
                 = Ok (RC_BLOCK_ADD_FAILED_DUPLICATE, setBufInfo s, s)).
  { unfold addBlockToBuf, findBlockInMap.
    rewrite Hkey, Hfind. cbn [or_undef mbind result_bind].
    rewrite Hlive. reflexivity. }
  split; [exact Hadd|]. split.
  - unfold run, step. rewrite Hadd. reflexivity.
  - unfold run, step. rewrite Hadd. cbn [mbind result_bind].
    destruct (printBuf s) as [[out s']|u]; reflexivity.
Qed.

(** * Capacity admission *)

(** C6.  [checkSize] admits at once, without compaction, a size that is
    at most [bufBytesFree]; it rejects a larger size that exceeds
    [bufBytesFree + bufBytesDeletePending] (a [uint_t] sum); otherwise it
    runs [compactBuf] and admits exactly when the size is at most the
    [bufBytesFree] found afterwards. *)
Theorem checkSize_cases (size : Z) (s : CircularBuffer) :
  let avail := wrap (bufBytesFree s + bufBytesDeletePending s) in
  (0 <= bufBytesFree s + bufBytesDeletePending s < 2 ^ 64 →
   avail = bufBytesFree s + bufBytesDeletePending s) ∧
  (size <= bufBytesFree s → checkSize size s = Ok (RC_SUCCESS, s)) ∧
  (bufBytesFree s < size → avail < size →
   checkSize size s = Ok (RC_BLOCK_SIZE_EXCEEDS_FREE_SPACE, s)) ∧
  (bufBytesFree s < size → size <= avail →
   (∀ s', compactBuf s = Ok s' →
      (size <= bufBytesFree s' → checkSize size s = Ok (RC_SUCCESS, s')) ∧
      (bufBytesFree s' < size →
       checkSize size s = Ok (RC_BLOCK_SIZE_EXCEEDS_FREE_SPACE, s'))) ∧
   (∀ u, compactBuf s = Undef u → checkSize size s = Undef u)).
Proof.
  intros avail. subst avail. unfold checkSize.
  split; [apply wrap_small|].
  split; [|split].
  - intros Hfit. apply Z.leb_le in Hfit. rewrite Hfit. reflexivity.
  - intros Hbig Hover.
    apply Z.leb_gt in Hbig. apply Z.ltb_lt in Hover.
    rewrite Hbig, Hover. reflexivity.
  - intros Hbig Hroom.
    apply Z.leb_gt in Hbig. apply Z.ltb_ge in Hroom.
    rewrite Hbig, Hroom. split.
    + intros s' Hcompact. rewrite Hcompact. cbn [mbind result_bind]. split.
      * intros Hfit. apply Z.leb_le in Hfit. rewrite Hfit. reflexivity.
      * intros Hno. apply Z.leb_gt in Hno. rewrite Hno. reflexivity.
    + intros u Hcompact. rewrite Hcompact. reflexivity.
Qed.

(** * Compaction *)

(** Inversion of a computation that is known to be defined. *)
Ltac ok_inv :=
  repeat match goal with
  | H : Undef _ = Ok _ |- _ => discriminate H
  | H : Ok _ = Ok _ |- _ => injection H as H
  | H : or_undef _ _ = Ok _ |- _ => apply or_undef_Ok in H
  | H : _ ≫= _ = Ok _ |- _ =>
      let a := fresh "a" in
      let Ha := fresh "Ha" in
      apply bind_Ok in H; destruct H as (a & Ha & H)
  | H : (if ?c then _ else _) = Ok _ |- _ => destruct c eqn:?
  | H : (if ?c then _ else _) = (_, _) |- _ => destruct c eqn:?
  | H : (let '(_, _) := ?p in _) = Ok _ |- _ => destruct p as [? ?] eqn:?
  | H : (_, _) = (_, _) |- _ => injection H as ? ?
  end.

Lemma moveBytes_frame (dst src n : Z) (s s' : CircularBuffer) :
  moveBytes dst src n s = Ok s' →
  same_blocks s s' ∧ bufStart s' = bufStart s ∧
  bufBytesFree s' = bufBytesFree s ∧
  bufBytesDeletePending s' = bufBytesDeletePending s.
Proof.
  unfold moveBytes, same_blocks. intros H.
  ok_inv; subst; simpl; auto 10.
Qed.

Lemma removeBlockFromBuf_frame (blk blksz : Z) (s s' : CircularBuffer) :
  removeBlockFromBuf blk blksz s = Ok s' →
  same_blocks s s' ∧
  bufBytesFree s' = wrap (bufBytesFree s + blksz) ∧
  bufBytesDeletePending s' = wrap (bufBytesDeletePending s - blksz).
Proof.
  unfold removeBlockFromBuf, same_blocks. intros H.
  ok_inv; subst; simpl;
    try match goal with
    | H : moveBytes _ _ _ _ = Ok _ |- _ =>
        apply moveBytes_frame in H; unfold same_blocks in H; simpl in H;
        destruct H as ((-> & -> & -> & ->) & _ & -> & ->)
    end; auto 10.
Qed.

Lemma compactLoop_all_live (n : nat) (s s' : CircularBuffer) :
  compactLoop n s = Ok s' →
  all_live (drop n (bufBlockList s)) →
  all_live (bufBlockList s').
Proof.
  revert s. induction n as [|i IH]; intros s Hloop Hrest.
  - simpl in Hloop. injection Hloop as <-. exact Hrest.
  - simpl in Hloop. apply bind_Ok in Hloop as (b & Hb & Hloop).
    apply or_undef_Ok in Hb.
    destruct (blockDeletePending b) eqn:Hpend.
    + apply bind_Ok in Hloop as (s1 & Hrm & Hloop).
      apply removeBlockFromBuf_frame in Hrm as ((_ & Hlist & _) & _).
      apply IH in Hloop; [exact Hloop|].
      unfold deleteBlockFromMap, removeBlockFromList.
      destruct (blockMap _ !! _); simpl; rewrite Hlist;
        rewrite delete_take_drop, drop_app_length'; auto;
        rewrite length_take; apply lookup_lt_Some in Hb; lia.
    + apply IH in Hloop; [exact Hloop|].
      rewrite (drop_S _ _ _ Hb). constructor; assumption.
Qed.

Lemma compactLoop_live_id (n : nat) (s : CircularBuffer) :
  all_live (bufBlockList s) →
  (n <= length (bufBlockList s))%nat →
  compactLoop n s = Ok s.
Proof.
  intros Hlive. induction n as [|i IH]; intros Hn; [reflexivity|].
  simpl. destruct (lookup_lt_is_Some_2 (bufBlockList s) i) as [b Hb]; [lia|].
  rewrite Hb. cbn [or_undef mbind result_bind].
  unfold all_live in Hlive. rewrite Forall_lookup in Hlive.
  rewrite (Hlive i b Hb). apply IH. lia.
Qed.

Lemma sumZ_app (f : BufBlock → Z) (l k : list BufBlock) :
  sumZ f (l ++ k) = sumZ f l + sumZ f k.
Proof.
  induction l as [|b l IH]; simpl; [reflexivity|].
  fold (sumZ f (l ++ k)) (sumZ f l). lia.
Qed.

Lemma sumZ_delete (f : BufBlock → Z) (l : list BufBlock) (i : nat)
    (b : BufBlock) :
  l !! i = Some b → sumZ f (delete i l) = sumZ f l - f b.
Proof.
  intros Hb. rewrite <- (take_drop_middle l i b Hb) at 2.
  rewrite delete_take_drop, !sumZ_app. simpl.
  fold (sumZ f (drop (S i) l)). lia.
Qed.

Lemma sumZ_insert (f : BufBlock → Z) (l : list BufBlock) (i : nat)
    (b b' : BufBlock) :
  l !! i = Some b → sumZ f (<[i := b']> l) = sumZ f l - f b + f b'.
Proof.
  intros Hb. rewrite <- (take_drop_middle l i b Hb) at 2.
  rewrite insert_take_drop by (eapply lookup_lt_Some; eassumption).
  rewrite !sumZ_app. simpl. fold (sumZ f (drop (S i) l)). lia.
Qed.

Lemma sumZ_nonneg (f : BufBlock → Z) (l : list BufBlock) :
  Forall (λ b, 0 <= f b) l → 0 <= sumZ f l.
Proof.
  induction 1 as [|b l Hb _ IH]; simpl; [lia|].
  fold (sumZ f l). lia.
Qed.

Lemma sumZ_lookup_le (f : BufBlock → Z) (l : list BufBlock) (i : nat)
    (b : BufBlock) :
  Forall (λ b, 0 <= f b) l → l !! i = Some b → f b <= sumZ f l.
Proof.
  intros Hall Hb.
  pose proof (sumZ_delete f l i b Hb) as Hdel.
  assert (0 <= sumZ f (delete i l)); [|lia].
  apply sumZ_nonneg. rewrite delete_take_drop.
  apply Forall_app. split.
  - apply Forall_take. exact Hall.
  - apply Forall_drop. exact Hall.
Qed.

Lemma wrap_minus_wrap (a b c : Z) :
  wrap (wrap (a - b) - c) = wrap (a - (c + b)).
Proof.
  unfold wrap. rewrite Zminus_mod_idemp_l. f_equal. lia.
Qed.

Lemma compactLoop_pending (n : nat) (s s' : CircularBuffer) :
  compactLoop n s = Ok s' →
  0 <= bufBytesDeletePending s < 2 ^ 64 →
  bufBytesDeletePending s'
  = wrap (bufBytesDeletePending s - pendingBytes (take n (bufBlockList s))).
Proof.
  revert s. induction n as [|i IH]; intros s Hloop Hrange.
  - simpl in Hloop. injection Hloop as <-.
    rewrite take_0. simpl. rewrite Z.sub_0_r, wrap_small; auto.
  - simpl in Hloop. apply bind_Ok in Hloop as (b & Hb & Hloop).
    apply or_undef_Ok in Hb.
    rewrite (take_S_r _ _ _ Hb). unfold pendingBytes at 1.
    rewrite sumZ_app. fold (pendingBytes (take i (bufBlockList s))).
    simpl. unfold pendingSize at 1.
    destruct (blockDeletePending b) eqn:Hpend.
    + apply bind_Ok in Hloop as (s1 & Hrm & Hloop).
      apply removeBlockFromBuf_frame in Hrm as ((_ & Hlist & _) & _ & Hcnt).
      apply IH in Hloop.
      * rewrite Hloop.
        unfold deleteBlockFromMap, removeBlockFromList.
        destruct (blockMap _ !! _); simpl; rewrite Hlist, Hcnt;
          rewrite delete_take_drop, take_app_length';
          try (rewrite length_take; apply lookup_lt_Some in Hb; lia);
          rewrite wrap_minus_wrap; f_equal; lia.
      * unfold deleteBlockFromMap, removeBlockFromList.
        destruct (blockMap _ !! _); simpl; rewrite Hcnt; apply wrap_range.
    + apply IH in Hloop; [|assumption]. rewrite Hloop. f_equal. lia.
Qed.

Lemma updateBlocks_idem (last block : Z) (l : list BufBlock) :
  updateBlocks last block (updateBlocks last block l)
  = updateBlocks last block l.
Proof.
  revert block. induction l as [|b l IH]; intros block; simpl.
  - reflexivity.
  - f_equal. apply IH.
Qed.

Lemma updateBlocks_all_live (last block : Z) (l : list BufBlock) :
  all_live l → all_live (updateBlocks last block l).
Proof.
  unfold all_live. intros Hlive. revert block.
  induction Hlive as [|b l Hb _ IH]; intros block; simpl;
    constructor; auto.
Qed.

(** After a defined [compactBuf] no block is marked for deletion. *)
Lemma compactBuf_all_live (s s' : CircularBuffer) :
  compactBuf s = Ok s' →
  bufBytesDeletePending s ≠ 0 →
  all_live (bufBlockList s').
Proof.
  unfold compactBuf. intros H Hne.
  apply Z.eqb_neq in Hne. rewrite Hne in H.
  apply bind_Ok in H as (s1 & Hloop & H). injection H as <-.
  apply compactLoop_all_live in Hloop.
  - apply updateBlocks_all_live. exact Hloop.
  - rewrite drop_all. constructor.
Qed.

(** [compactBuf] right after a defined [compactBuf] changes nothing. *)
Lemma compactBuf_idem (s s' : CircularBuffer) :
  compactBuf s = Ok s' → compactBuf s' = Ok s'.
Proof.
  intros H. destruct (Z.eq_dec (bufBytesDeletePending s) 0) as [Hz|Hnz].
  - unfold compactBuf in H. apply Z.eqb_eq in Hz. rewrite Hz in H.
    injection H as <-. unfold compactBuf. rewrite Hz. reflexivity.
  - pose proof (compactBuf_all_live _ _ H Hnz) as Hlive.
    unfold compactBuf in H. apply Z.eqb_neq in Hnz. rewrite Hnz in H.
    apply bind_Ok in H as (s1 & Hloop & H). injection H as <-.
    unfold compactBuf.
    destruct (bufBytesDeletePending (updateBufBlockList s1) =? 0);
      [reflexivity|].
    rewrite compactLoop_live_id by (auto; lia).
    cbn [mbind result_bind]. f_equal.
    unfold updateBufBlockList. simpl.
    rewrite updateBlocks_idem. reflexivity.
Qed.

(** * Dump *)

Lemma printBuf_Ok (s s1 : CircularBuffer) (out : list byte) :
  printBuf s = Ok (out, s1) →
  compactBuf s = Ok s1 ∧
  ∀ s0, compactBuf s0 = Ok s1 → printBuf s0 = Ok (out, s1).
Proof.
  unfold printBuf. intros H.
  apply bind_Ok in H as (s' & Hcompact & H).
  assert (s' = s1) as ->.
  { destruct (_ <=? _) in H; ok_inv; congruence. }
  split; [exact Hcompact|].
  intros s0 Hs0. rewrite Hs0. exact H.
Qed.

(** A [printBuf] right after a defined [printBuf] prints
    the same bytes and leaves the buffer as it is: its [compactBuf]
    changes nothing.  When the first [compactBuf] ran, no block of the
    list is marked any more; when moreover [bufBytesDeletePending]
    counted every marked block once, it is zero after the first
    [printBuf]. *)
Theorem printBuf_twice (s s1 : CircularBuffer) (out : list byte) :
  printBuf s = Ok (out, s1) →
  printBuf s1 = Ok (out, s1) ∧
  compactBuf s1 = Ok s1 ∧
  (bufBytesDeletePending s ≠ 0 → all_live (bufBlockList s1)) ∧
  (0 <= bufBytesDeletePending s < 2 ^ 64 →
   bufBytesDeletePending s = pendingBytes (bufBlockList s) →
   bufBytesDeletePending s1 = 0).
Proof.
  intros Hprint. apply printBuf_Ok in Hprint as (Hcompact & Hagain).
  pose proof (compactBuf_idem _ _ Hcompact) as Hidem.
  split; [apply Hagain; exact Hidem|].
  split; [exact Hidem|].
  split; [apply compactBuf_all_live; exact Hcompact|].
  intros Hrange Hcount. unfold compactBuf in Hcompact.
  destruct (bufBytesDeletePending s =? 0) eqn:Hz.
  - injection Hcompact as <-. apply Z.eqb_eq. exact Hz.
  - apply bind_Ok in Hcompact as (s' & Hloop & Hupd). injection Hupd as <-.
    apply compactLoop_pending in Hloop; [|exact Hrange].
    simpl. rewrite Hloop, firstn_all, Hcount, Z.sub_diag. reflexivity.
Qed.

Lemma printBuf_twice_witness :
  printBuf one_pending = Ok ([], drained) ∧
  printBuf drained = Ok ([], drained).
Proof.
  assert (H : printBuf one_pending = Ok ([], drained))
    by (vm_compute; reflexivity).
  split; [exact H|]. exact (proj1 (printBuf_twice _ _ _ H)).
Defined.

(** After [Add], [Delete], [Delete] of one key the
    first [printBuf] leaves [bufBytesDeletePending] at 9, so the
    [compactBuf] of the second [printBuf] does not return at once. *)
Lemma printBuf_leaves_pending :
  ∃ s out s1,
    exec [Add 3 msg3; Delete 3; Delete 3] (CircularBuffer_new 18) = Ok s ∧
    printBuf s = Ok (out, s1) ∧
    bufBytesDeletePending s1 = 9 ∧
    bufBytesDeletePending s1 ≠ 0.
Proof.
  eexists. eexists. eexists.
  split; [vm_compute; reflexivity|].
  split; [vm_compute; reflexivity|].
  split; [reflexivity|]. discriminate.
Qed.

(** * The example states are reached by calls *)

Example one_live_reached :
  exec [Add 3 msg3] (CircularBuffer_new 18) = Ok one_live.
Proof. vm_compute. reflexivity. Qed.

Example one_pending_reached :
  exec [Add 3 msg3; Delete 3] (CircularBuffer_new 18) = Ok one_pending.
Proof. vm_compute. reflexivity. Qed.

Example drained_reached :
  exec [Add 3 msg3; Delete 3; Dump] (CircularBuffer_new 18) = Ok drained.
Proof. vm_compute. reflexivity. Qed.

Lemma deleteBlockFromBuf_pending_again_witness :
  ∃ s',
    deleteBlockFromBuf 3 one_pending = Ok (RC_SUCCESS, setBufInfo s', s') ∧
    bufBytesDeletePending s' = 18 ∧
    bufBlockList s' = bufBlockList one_pending.
Proof.
  destruct (deleteBlockFromBuf_pending_again 3 1%N 0%nat
              (mkBufBlock 1 0 3 9 true) one_pending)
    as (s' & Hdel & Hs' & _ & Hlist & _); try reflexivity.
  exists s'. split; [exact Hdel|]. split; [|exact Hlist].
  rewrite Hs'. reflexivity.
Defined.

Lemma addBlockToBuf_duplicate_witness :
  addBlockToBuf 3 msg5 one_live
  = Ok (RC_BLOCK_ADD_FAILED_DUPLICATE, setBufInfo one_live, one_live) ∧
  printed (run [Add 3 msg5; Dump] one_live) = [msg3].
Proof.
  destruct (addBlockToBuf_duplicate 3 msg5 1%N 0%nat
              (mkBufBlock 1 0 3 9 false) one_live)
    as (Hadd & _ & Hdump); try reflexivity.
  split; [exact Hadd|]. rewrite Hdump. vm_compute. reflexivity.
Defined.

Lemma checkSize_cases_witness :
  checkSize 9 one_pending = Ok (RC_SUCCESS, one_pending) ∧
  checkSize 19 one_pending
  = Ok (RC_BLOCK_SIZE_EXCEEDS_FREE_SPACE, one_pending) ∧
  checkSize 18 one_pending = Ok (RC_SUCCESS, drained).
Proof.
  pose proof (checkSize_cases 9 one_pending) as (_ & Hfit & _).
  pose proof (checkSize_cases 19 one_pending) as (_ & _ & Hover & _).
  pose proof (checkSize_cases 18 one_pending) as (_ & _ & _ & Hcompact).
  split; [|split].
  - apply Hfit. simpl. lia.
  - apply Hover; vm_compute; reflexivity.
  - destruct Hcompact as [Hdefined _].
    + vm_compute. reflexivity.
    + vm_compute. intros [=].
    + apply (Hdefined drained).
      * vm_compute. reflexivity.
      * simpl. lia.
Defined.

(** * Where the code departs from its description *)

(** C1.  A second [Delete] of a key counts its block again: after
    [Add], [Delete], [Delete] of a 9 byte block in a buffer of 18 bytes
    the three counters sum to 27, and the stats report a wrapped
    [bufBytesUsed]. *)
Theorem repeated_delete_breaks_accounting :
  ∃ s,
    exec [Add 3 msg3; Delete 3; Delete 3] (CircularBuffer_new 18) = Ok s ∧
    reachable s ∧
    bufSize s = 18 ∧
    bufBytesFree s = 9 ∧
    bufBytesDeletePending s = 18 ∧
    usedBytes s = 0 ∧
    ¬ accounting s ∧
    bi_bufBytesUsed (setBufInfo s) = 2 ^ 64 - 9.
Proof.
  eexists. split; [vm_compute; reflexivity|].
  split.
  { exists 18, (replicate 18 "."%byte), [Add 3 msg3; Delete 3; Delete 3].
    split; [reflexivity|]. split; [lia|]. vm_compute. reflexivity. }
  repeat split; try reflexivity. vm_compute. discriminate.
Qed.

(** C3.  [addBlockToBuf] reads [bufEnd] before [appendBlockToBuf] runs
    [checkSize].  When [checkSize] compacts the tail block away, the
    copy goes to the new [bufEnd] (9) while the new block records the
    old one (0), the place of the first block. *)
Theorem add_records_stale_offset :
  ∃ s0 s1 bufInfo s b,
    exec [Add 1 msg1; Add 2 msg2; Delete 2] (CircularBuffer_new 18) = Ok s0 ∧
    bufEnd s0 = 0 ∧
    checkSize 9 s0 = Ok (RC_SUCCESS, s1) ∧
    bufEnd s1 = 9 ∧
    addBlockToBuf 3 msg3 s0 = Ok (RC_SUCCESS, bufInfo, s) ∧
    last (bufBlockList s) = Some b ∧
    blockMapKey b = 3 ∧
    blockInBuf b = 0 ∧
    load 9 9 (buf s) = Ok msg3 ∧
    load (blockInBuf b) (blockSize b) (buf s) = Ok msg1.
Proof.
  do 5 eexists.
  split; [vm_compute; reflexivity|].
  split; [reflexivity|].
  split; [vm_compute; reflexivity|].
  split; [reflexivity|].
  split; [vm_compute; reflexivity|].
  split; [vm_compute; reflexivity|].
  repeat split; vm_compute; reflexivity.
Qed.

(** C4.  When the last block is compacted out, [bufStart] ends up
    behind [bufEnd] in an empty buffer.  The next append of 10 bytes
    fits [bufBytesFree] but is not split ([bufEnd > bufStart] is
    false): one [memmove] of 10 bytes to offset 9 of the 18 byte region
    passes [bufLastPlusOne]. *)
Theorem append_passes_end :
  ∃ s,
    exec [Add 1 msg1; Add 2 (letters 5); Delete 1; Dump; Delete 2; Dump]
      (CircularBuffer_new 18) = Ok s ∧
    bufBlockList s = [] ∧
    bufBytesFree s = 18 ∧
    bufStart s = 14 ∧
    bufEnd s = 9 ∧
    Z.of_nat (length (letters 10)) <= bufBytesFree s ∧
    checkSize 10 s = Ok (RC_SUCCESS, s) ∧
    store (bufEnd s) (letters 10) (buf s) = Undef OutOfBounds ∧
    appendBlockToBuf (letters 10) s = Undef OutOfBounds ∧
    addBlockToBuf 3 (letters 10) s = Undef OutOfBounds.
Proof.
  eexists. split; [vm_compute; reflexivity|].
  repeat split; try reflexivity; vm_compute; discriminate.
Qed.

(** C5.  With [bufStart] left at 9 by the compaction of the only block,
    the next block of 18 bytes is copied to offset 0 and [printBuf]
    prints it from offset 9 on: its second half, then its first. *)
Theorem dump_rotated :
  let r := run [Add 1 msg1; Delete 1; Add 2 (letters 18); Dump]
             (CircularBuffer_new 18) in
  codes r = [RC_SUCCESS; RC_SUCCESS; RC_SUCCESS] ∧
  printed r = [drop 9 (letters 18) ++ take 9 (letters 18)] ∧
  printed r ≠ [letters 18].
Proof.
  vm_compute. repeat split. discriminate.
Qed.

(** C8.  [Delete] and a new [Add] of the only key: the compaction
    leaves [bufStart] at 9 and [bufEnd] at 0, the new data goes to
    offset 0 and [printBuf] prints the 9 bytes from offset 9, which were
    never written. *)
Theorem readd_prints_unwritten :
  let r := run [Add 3 msg3; Delete 3; Add 3 msg5; Dump]
             (CircularBuffer_new 18) in
  codes r = [RC_SUCCESS; RC_SUCCESS; RC_SUCCESS] ∧
  printed r = [replicate 9 "."%byte] ∧
  printed r ≠ [msg5] ∧
  ∃ rs s, r = Ok (rs, s) ∧
    buf s = msg5 ++ replicate 9 "."%byte ∧
    bufStart s = 9 ∧
    bufBytesFree s = 9.
Proof.
  vm_compute. repeat split; try discriminate.
  do 2 eexists. repeat split.
Qed.

(** * The accounting, when no key is deleted twice *)

Lemma updateBlocks_sumZ (f : BufBlock → Z) (last block : Z)
    (l : list BufBlock) :
  (∀ p b, f (set_blockInBuf p b) = f b) →
  sumZ f (updateBlocks last block l) = sumZ f l.
Proof.
  intros Hf. revert block. induction l as [|b l IH]; intros block; simpl.
  - reflexivity.
  - fold (sumZ f l). rewrite Hf. f_equal. apply IH.
Qed.

Lemma updateBlocks_sizes (last block : Z) (l : list BufBlock) :
  Forall (λ b, 0 <= blockSize b) l →
  Forall (λ b, 0 <= blockSize b) (updateBlocks last block l).
Proof.
  intros Hall. revert block.
  induction Hall as [|b l Hb _ IH]; intros block; simpl; constructor; auto.
Qed.

Lemma pendingSize_nonneg (l : list BufBlock) :
  Forall (λ b, 0 <= blockSize b) l → Forall (λ b, 0 <= pendingSize b) l.
Proof.
  intros Hall. eapply Forall_impl; [exact Hall|].
  intros b Hb. simpl in *. unfold pendingSize.
  destruct (blockDeletePending b); lia.
Qed.

Lemma liveSize_nonneg (l : list BufBlock) :
  Forall (λ b, 0 <= blockSize b) l → Forall (λ b, 0 <= liveSize b) l.
Proof.
  intros Hall. eapply Forall_impl; [exact Hall|].
  intros b Hb. simpl in *. unfold liveSize.
  destruct (blockDeletePending b); lia.
Qed.

Lemma updateBufBlockList_counted (s : CircularBuffer) :
  counted s → counted (updateBufBlockList s).
Proof.
  unfold counted, accounting, usedBytes, pendingBytes, liveBytes.
  intros (Hfree & Hsize & Hall & Hpend & Hacc). simpl.
  rewrite !updateBlocks_sumZ by reflexivity.
  auto using updateBlocks_sizes.
Qed.

Lemma compactLoop_counted (n : nat) (s s' : CircularBuffer) :
  counted s → compactLoop n s = Ok s' → counted s'.
Proof.
  revert s. induction n as [|i IH]; intros s Hs Hloop; simpl in Hloop.
  - injection Hloop as <-. exact Hs.
  - apply bind_Ok in Hloop as (b & Hb & Hloop). apply or_undef_Ok in Hb.
    destruct (blockDeletePending b) eqn:Hmark; [|eauto].
    apply bind_Ok in Hloop as (s1 & Hrm & Hloop).
    apply (IH _) in Hloop; [exact Hloop|]. clear IH Hloop.
    apply removeBlockFromBuf_frame in Hrm
      as ((Hsz & Hlist & _) & Hfree1 & Hpend1).
    destruct Hs as (Hfree & Hsize & Hall & Hpend & Hacc).
    unfold accounting, usedBytes in Hacc.
    pose proof (sumZ_lookup_le _ _ _ _ (pendingSize_nonneg _ Hall) Hb) as Hle.
    pose proof (sumZ_nonneg _ _ (liveSize_nonneg _ Hall)) as Hlive.
    pose proof (sumZ_nonneg _ _ (pendingSize_nonneg _ Hall)) as Hmarked.
    rewrite Forall_lookup in Hall. pose proof (Hall i b Hb) as Hb0.
    rewrite <- Forall_lookup in Hall.
    assert (Hpb : pendingSize b = blockSize b)
      by (unfold pendingSize; rewrite Hmark; reflexivity).
    assert (Hlb : liveSize b = 0)
      by (unfold liveSize; rewrite Hmark; reflexivity).
    rewrite Hpb in Hle.
    fold (pendingBytes (bufBlockList s)) in Hle, Hmarked.
    fold (liveBytes (bufBlockList s)) in Hlive.
    rewrite wrap_small in Hfree1 by lia.
    rewrite wrap_small in Hpend1 by lia.
    assert (Hcounted : counted (removeBlockFromList i s1)).
    { unfold counted, accounting, usedBytes, removeBlockFromList. simpl.
      rewrite Hlist, Hsz, Hfree1, Hpend1.
      unfold pendingBytes, liveBytes.
      rewrite !(sumZ_delete _ _ _ _ Hb), Hpb, Hlb.
      fold (pendingBytes (bufBlockList s)) (liveBytes (bufBlockList s)).
      repeat split; try lia. apply Forall_delete. exact Hall. }
    unfold deleteBlockFromMap.
    destruct (blockMap _ !! _); exact Hcounted.
Qed.

Lemma compactBuf_counted (s s' : CircularBuffer) :
  counted s → compactBuf s = Ok s' → counted s'.
Proof.
  unfold compactBuf. intros Hs H.
  destruct (bufBytesDeletePending s =? 0).
  - injection H as <-. exact Hs.
  - apply bind_Ok in H as (s1 & Hloop & H). injection H as <-.
    apply updateBufBlockList_counted.
    eapply compactLoop_counted; eassumption.
Qed.

Lemma checkSize_counted (size : Z) (s s' : CircularBuffer) (rc : ResultCode) :
  counted s → checkSize size s = Ok (rc, s') →
  counted s' ∧ (rc = RC_SUCCESS → size <= bufBytesFree s').
Proof.
  unfold checkSize. intros Hs H.
  destruct (size <=? bufBytesFree s) eqn:Hfit.
  - injection H as <- <-. split; [exact Hs|]. intros _. lia.
  - destruct (_ <? size).
    + injection H as <- <-. split; [exact Hs|]. discriminate.
    + apply bind_Ok in H as (s1 & Hcompact & H).
      injection H as <- <-.
      split; [eapply compactBuf_counted; eassumption|].
      destruct (size <=? bufBytesFree s1) eqn:Hnow; [lia|discriminate].
Qed.

Lemma ResultCode_eqb_eq (a b : ResultCode) :
  ResultCode_eqb a b = true ↔ a = b.
Proof. destruct a, b; simpl; split; congruence. Qed.

Lemma counted_free_le (s : CircularBuffer) :
  counted s → bufBytesFree s <= bufSize s.
Proof.
  intros (_ & _ & Hall & Hpend & Hacc).
  unfold accounting, usedBytes in Hacc.
  pose proof (sumZ_nonneg _ _ (liveSize_nonneg _ Hall)) as Hlive.
  pose proof (sumZ_nonneg _ _ (pendingSize_nonneg _ Hall)) as Hmarked.
  fold (pendingBytes (bufBlockList s)) in Hmarked.
  fold (liveBytes (bufBlockList s)) in Hlive. lia.
Qed.

(** What [appendBlockToBuf] does to the counters: [s1] is the buffer
    after [checkSize]. *)
Lemma appendBlockToBuf_counted (block : list byte) (s s' : CircularBuffer)
    (rc : ResultCode) :
  counted s → appendBlockToBuf block s = Ok (rc, s') →
  ∃ s1, counted s1 ∧
    ((rc ≠ RC_SUCCESS ∧ s' = s1) ∨
     (rc = RC_SUCCESS ∧ same_blocks s1 s' ∧
      bufBytesDeletePending s' = bufBytesDeletePending s1 ∧
      Z.of_nat (length block) <= bufBytesFree s1 ∧
      bufBytesFree s' = bufBytesFree s1 - Z.of_nat (length block))).
Proof.
  unfold appendBlockToBuf. intros Hs H.
  apply bind_Ok in H as ([rc1 s1] & Hcheck & H).
  apply (checkSize_counted _ _ _ _ Hs) in Hcheck as (Hs1 & Hfit).
  exists s1. split; [exact Hs1|].
  destruct (ResultCode_eqb rc1 RC_SUCCESS) eqn:Hrc; simpl in H.
  - apply ResultCode_eqb_eq in Hrc. specialize (Hfit Hrc).
    pose proof (counted_free_le _ Hs1) as Hle.
    destruct Hs1 as (Hfree & Hsize & _).
    right. unfold same_blocks.
    ok_inv; subst; simpl;
      match goal with |- context [if ?c then _ else _] => destruct c end;
      simpl; rewrite wrap_small by lia; auto 10.
  - left. injection H as <- <-. split; [|reflexivity].
    intros ->. discriminate.
Qed.

Lemma addNewBlock_counted (key : Z) (block : list byte)
    (s s' : CircularBuffer) (rc : ResultCode) (bufInfo : BufInfo) :
  counted s → addNewBlock key block s = Ok (rc, bufInfo, s') → counted s'.
Proof.
  unfold addNewBlock. intros Hs H.
  apply bind_Ok in H as ([rc1 s2] & Happend & H).
  apply (appendBlockToBuf_counted _ _ _ _ Hs) in Happend
    as (s1 & Hs1 & [[Hrc ->]|(-> & Hsame & Hpend & Hfit & Hfree)]).
  - destruct (ResultCode_eqb rc1 RC_SUCCESS) eqn:Heq.
    + apply ResultCode_eqb_eq in Heq. contradiction.
    + injection H as <- <- <-. exact Hs1.
  - simpl in H. destruct Hsame as (Hsz & Hlist & _).
    destruct Hs1 as (Hfree1 & Hsize1 & Hall1 & Hpend1 & Hacc1).
    unfold accounting, usedBytes in Hacc1.
    assert (Hcounted : counted
      (set_bufBlockList
         (bufBlockList s2 ++
          [mkBufBlock (nextBlock s2) (bufEnd s) key
             (Z.of_nat (length block)) false])
         (set_nextBlock (N.succ (nextBlock s2)) s2))).
    { unfold counted, accounting, usedBytes, pendingBytes, liveBytes.
      simpl. rewrite !sumZ_app, Hlist, Hsz, Hpend, Hfree. simpl.
      fold (pendingBytes (bufBlockList s1)) (liveBytes (bufBlockList s1)).
      unfold pendingSize, liveSize. simpl.
      repeat split; try lia.
      apply Forall_app. split; [exact Hall1|].
      constructor; [simpl; lia|constructor]. }
    unfold addBlockToMap in H. simpl in H.
    destruct (blockMap s2 !! key); injection H as <- <- <-; exact Hcounted.
Qed.

Lemma addBlockToBuf_counted (key : Z) (block : list byte)
    (s s' : CircularBuffer) (rc : ResultCode) (bufInfo : BufInfo) :
  counted s → addBlockToBuf key block s = Ok (rc, bufInfo, s') → counted s'.
Proof.
  unfold addBlockToBuf, findBlockInMap. intros Hs H.
  destruct (blockMap s !! key) as [p|];
    [|eapply addNewBlock_counted; eassumption].
  apply bind_Ok in H as ([i b] & _ & H).
  destruct (blockDeletePending b).
  - apply bind_Ok in H as (s1 & Hcompact & H).
    eapply addNewBlock_counted; [|eassumption].
    eapply compactBuf_counted; eassumption.
  - injection H as <- <- <-. exact Hs.
Qed.

Lemma deleteBlockFromBuf_counted (key : Z) (s s' : CircularBuffer)
    (rc : ResultCode) (bufInfo : BufInfo) :
  counted s → once (Delete key) s →
  deleteBlockFromBuf key s = Ok (rc, bufInfo, s') → counted s'.
Proof.
  unfold deleteBlockFromBuf, findBlockInMap. intros Hs Honce H.
  apply bind_Ok in H as (s1 & Hmark & H). injection H as <- <- <-.
  destruct (blockMap s !! key) as [p|] eqn:Hkey;
    [|injection Hmark as <-; exact Hs].
  apply bind_Ok in Hmark as ([i b] & Hfind & Hmark).
  apply or_undef_Ok in Hfind. injection Hmark as <-.
  specialize (Honce p i b Hkey Hfind).
  apply findBlock_lookup in Hfind.
  destruct Hs as (Hfree & Hsize & Hall & Hpend & Hacc).
  unfold accounting, usedBytes in Hacc.
  pose proof (sumZ_lookup_le _ _ _ _ (liveSize_nonneg _ Hall) Hfind) as Hle.
  pose proof (sumZ_nonneg _ _ (pendingSize_nonneg _ Hall)) as Hmarked.
  assert (Hlb : liveSize b = blockSize b)
    by (unfold liveSize; rewrite Honce; reflexivity).
  assert (Hpb : pendingSize b = 0)
    by (unfold pendingSize; rewrite Honce; reflexivity).
  rewrite Hlb in Hle.
  fold (liveBytes (bufBlockList s)) in Hle.
  fold (pendingBytes (bufBlockList s)) in Hmarked.
  rewrite Forall_lookup in Hall. pose proof (Hall i b Hfind) as Hb0.
  rewrite <- Forall_lookup in Hall.
  unfold counted, accounting, usedBytes, pendingBytes, liveBytes. simpl.
  rewrite !(sumZ_insert _ _ _ _ _ Hfind), Hlb, Hpb.
  fold (pendingBytes (bufBlockList s)) (liveBytes (bufBlockList s)).
  unfold pendingSize, liveSize. simpl.
  rewrite wrap_small by lia.
  repeat split; try lia.
  apply Forall_insert; [exact Hall|exact Hb0].
Qed.

Lemma step_counted (o : Op) (s s' : CircularBuffer) (r : Reply) :
  counted s → once o s → step o s = Ok (r, s') → counted s'.
Proof.
  intros Hs Honce H. destruct o as [key block|key|]; simpl in H.
  - apply bind_Ok in H as ([[rc bufInfo] s1] & Hadd & H).
    injection H as <- <-. eapply addBlockToBuf_counted; eassumption.
  - apply bind_Ok in H as ([[rc bufInfo] s1] & Hdel & H).
    injection H as <- <-. eapply deleteBlockFromBuf_counted; eassumption.
  - apply bind_Ok in H as ([out s1] & Hprint & H). injection H as <- <-.
    apply printBuf_Ok in Hprint as [Hcompact _].
    eapply compactBuf_counted; eassumption.
Qed.

Lemma exec_counted (ops : list Op) (s s' : CircularBuffer) :
  counted s → deletes_once ops s → exec ops s = Ok s' → counted s'.
Proof.
  unfold exec. revert s. induction ops as [|o ops IH]; intros s Hs Honce H.
  - injection H as <-. exact Hs.
  - simpl in H. destruct Honce as [Ho Hrest].
    apply bind_Ok in H as ([rs s2] & Hrun & H). injection H as <-.
    apply bind_Ok in Hrun as ([r s1] & Hstep & Hrun).
    apply bind_Ok in Hrun as ([rs' s3] & Hrun & H). injection H as <- <-.
    apply (IH s1).
    + eapply step_counted; eassumption.
    + eapply Hrest; eassumption.
    + rewrite Hrun. reflexivity.
Qed.

Lemma initBuf_counted (bufSz : Z) (alloc : option (list byte)) :
  0 <= bufSz < 2 ^ 64 → counted (initBuf bufSz alloc).
Proof.
  intros Hsz. unfold counted, accounting, usedBytes. simpl.
  destruct alloc; simpl; repeat split; try lia; constructor.
Qed.

(** The accounting of C1 holds in every state that the calls reach from
    a fresh buffer as long as no marked key is deleted again. *)
Lemma accounting_deletes_once (bufSz : Z) (alloc : option (list byte))
    (ops : list Op) (s : CircularBuffer) :
  0 <= bufSz < 2 ^ 64 →
  deletes_once ops (initBuf bufSz alloc) →
  exec ops (initBuf bufSz alloc) = Ok s →
  accounting s.
Proof.
  intros Hsz Honce Hexec.
  apply (exec_counted ops _ s (initBuf_counted bufSz alloc Hsz) Honce Hexec).
Qed.

(** * Duplicate rejection on a fresh buffer *)

Lemma print_s_all (d rest : list byte) :
  Forall (λ b, b ≠ x00) d → print_s (length d) (d ++ rest) = Ok d.
Proof.
  induction 1 as [|b d Hb _ IH]; simpl; [reflexivity|].
  destruct (Byte.eqb b x00) eqn:Hnul.
  - apply byte_dec_bl in Hnul. contradiction.
  - rewrite IH. reflexivity.
Qed.

Lemma to_int_small (z : Z) : 0 <= z < 2 ^ 31 → to_int z = z.
Proof.
  intros Hz. unfold to_int. rewrite Z.mod_small; lia.
Qed.

(** The first [Add] into a fresh buffer copies the block to offset 0. *)
Lemma addBlockToBuf_fresh (bufSz : Z) (alloc d : list byte) (k : Z) :
  Z.of_nat (length alloc) = bufSz →
  Z.of_nat (length d) <= bufSz →
  bufSz < 2 ^ 64 →
  ∃ bufInfo s,
    addBlockToBuf k d (initBuf bufSz (Some alloc))
    = Ok (RC_SUCCESS, bufInfo, s) ∧
    buf s = d ++ drop (length d) alloc ∧
    bufSize s = bufSz ∧
    bufStart s = 0 ∧
    bufBytesFree s = bufSz - Z.of_nat (length d) ∧
    bufBytesDeletePending s = 0 ∧
    bufBlockList s = [mkBufBlock 1 0 k (Z.of_nat (length d)) false] ∧
    blockMap s = {[k := 1%N]}.
Proof.
  intros Hlen Hfit Hsz.
  unfold addBlockToBuf, findBlockInMap, initBuf. simpl.
  rewrite lookup_empty.
  unfold addNewBlock, appendBlockToBuf, checkSize. simpl.
  apply Z.leb_le in Hfit as Hfit'. rewrite Hfit'. simpl.
  unfold store. simpl. rewrite !Z.add_0_l, Hlen, Hfit'. simpl.
  unfold addBlockToMap. simpl.
  destruct (bufSz <=? Z.of_nat (length d)); simpl;
    rewrite lookup_empty; do 2 eexists;
    (split; [reflexivity|]); simpl;
    rewrite Nat2Z.id, wrap_small by lia; repeat split.
Qed.

(** [Add(k, d1)], [Add(k, d2)], [Dump] on a fresh buffer that has room
    for [d1]: the second [Add] is refused and [Dump] prints [d1] (a
    block without NUL bytes, which [printf] would take for the end). *)
Lemma duplicate_rejection (bufSz : Z) (alloc d1 d2 : list byte) (k : Z) :
  Z.of_nat (length alloc) = bufSz →
  Z.of_nat (length d1) <= bufSz →
  bufSz < 2 ^ 31 →
  Forall (λ b, b ≠ x00) d1 →
  let r := run [Add k d1; Add k d2; Dump] (initBuf bufSz (Some alloc)) in
  codes r = [RC_SUCCESS; RC_BLOCK_ADD_FAILED_DUPLICATE] ∧ printed r = [d1].
Proof.
  intros Hlen Hfit Hsz Hnul r. subst r.
  assert (Hpow : 2 ^ 31 < 2 ^ 64) by reflexivity.
  destruct (addBlockToBuf_fresh bufSz alloc d1 k Hlen Hfit ltac:(lia))
    as (bi & s & Hadd & Hbuf & Hsize & Hstart & Hfree & Hpend & Hlist & Hmap).
  assert (Hdup : addBlockToBuf k d2 s
                 = Ok (RC_BLOCK_ADD_FAILED_DUPLICATE, setBufInfo s, s)).
  { unfold addBlockToBuf, findBlockInMap.
    rewrite Hmap, lookup_singleton_eq, Hlist. reflexivity. }
  assert (Hprint : printBuf s = Ok (d1, s)).
  { unfold printBuf, compactBuf. rewrite Hpend. simpl.
    unfold bufLastPlusOne. rewrite Hsize, Hfree, Hstart, Hbuf.
    replace (bufSz - (bufSz - Z.of_nat (length d1)))
      with (Z.of_nat (length d1)) by lia.
    rewrite Z.sub_0_r, !wrap_small by lia.
    apply Z.leb_le in Hfit as Hfit'. rewrite Hfit'.
    rewrite to_int_small by lia.
    unfold printf_s.
    replace (0 <=? 0) with true by reflexivity.
    replace (0 <=? Z.of_nat (length (d1 ++ drop (length d1) alloc)))
      with true by (symmetry; apply Z.leb_le; lia).
    replace (Z.of_nat (length d1) <? 0)
      with false by (symmetry; apply Z.ltb_ge; lia).
    cbn [andb]. change (Z.to_nat 0) with 0%nat.
    rewrite drop_0, Nat2Z.id, print_s_all by exact Hnul.
    reflexivity. }
  unfold run, step. rewrite Hadd. cbn [mbind result_bind].
  rewrite Hdup. cbn [mbind result_bind]. rewrite Hprint.
  split; reflexivity.
Qed.

(** The calls of the test [DeleteBlock] delete no key twice, so the
    accounting holds after them. *)
Example test_DeleteBlock_accounting :
  ∃ s,
    exec DeleteBlock_calls (CircularBuffer_new 18) = Ok s ∧ accounting s.
Proof.
  eexists. split; [vm_compute; reflexivity|].
  apply (accounting_deletes_once 18 (Some (replicate 18 "."%byte))
           DeleteBlock_calls).
  - lia.
  - unfold DeleteBlock_calls.
    repeat match goal with
    | |- deletes_once [] _ => exact I
    | |- deletes_once (_ :: _) _ =>
        split;
        [ try exact I;
          let Hkey := fresh in
          let Hfind := fresh in
          intros ? ? ? Hkey Hfind;
          vm_compute in Hkey; injection Hkey as <-;
          vm_compute in Hfind; injection Hfind as <- <-; reflexivity
        | let H := fresh in
          intros ? ? H; vm_compute in H; injection H as <- <- ]
    end.
  - vm_compute. reflexivity.
Qed.

Example duplicate_rejection_msg1 :
  let r := run [Add 1 msg1; Add 1 msg2; Dump] (CircularBuffer_new 100) in
  codes r = [RC_SUCCESS; RC_BLOCK_ADD_FAILED_DUPLICATE] ∧ printed r = [msg1].
Proof.
  apply (duplicate_rejection 100 (replicate 100 "."%byte) msg1 msg2 1).
  - reflexivity.
  - vm_compute. intros [=].
  - reflexivity.
  - repeat constructor; discriminate.
Qed.

(** * The re-added block, whatever the fresh region holds *)

(** [Add], [Delete] and [Add] of one key in a buffer of 18 bytes: for
    any contents [alloc] of the fresh region the three calls succeed,
    the new data is at offset 0 and [printBuf] prints from the second
    half of [alloc], which no call has written. *)
Lemma readd_any_fresh_region (alloc : list byte) :
  length alloc = 18%nat →
  ∃ bi1 bi2 bi3 s,
    run [Add 3 msg3; Delete 3; Add 3 msg5] (initBuf 18 (Some alloc))
    = Ok ([Status RC_SUCCESS bi1; Status RC_SUCCESS bi2;
           Status RC_SUCCESS bi3], s) ∧
    buf s = msg5 ++ drop 9 alloc ∧
    bufStart s = 9 ∧
    printBuf s = (out ← print_s 9 (drop 9 alloc); Ok (out, s)).
Proof.
  intros Hlen.
  do 18 (destruct alloc as [|? alloc]; [discriminate Hlen|]).
  destruct alloc; [|discriminate Hlen].
  do 4 eexists. split; [vm_compute; reflexivity|].
  split; [reflexivity|]. split; [reflexivity|].
  vm_compute. reflexivity.
Qed.

(** * The cause of the misplaced cursors *)

(** [removeBlockFromBuf] on the only block of the list takes both the
    head and the tail branch: [bufStart] moves past the block and
    [bufEnd] back to its first byte.  The buffer is empty afterwards,
    but its cursors differ (unless the block is empty or fills the
    region). *)
Lemma removeBlockFromBuf_only_block (b : BufBlock) (s : CircularBuffer) :
  bufBlockList s = [b] →
  ∃ s',
    removeBlockFromBuf (blockInBuf b) (blockSize b) s = Ok s' ∧
    bufEnd s' = blockInBuf b ∧
    bufStart s'
    = (if bufLastPlusOne s <=? blockInBuf b + blockSize b
       then wrap (blockInBuf b + blockSize b - bufLastPlusOne s)
       else blockInBuf b + blockSize b) ∧
    buf s' = buf s.
Proof.
  intros Hlist. unfold removeBlockFromBuf. rewrite Hlist. simpl.
  rewrite Z.eqb_refl. simpl. rewrite Hlist. simpl.
  rewrite Z.eqb_refl. simpl.
  eexists. split; [reflexivity|]. simpl.
  destruct (_ <=? _); repeat split.
Qed.

Example removeBlockFromBuf_only_block_one_pending :
  ∃ s',
    removeBlockFromBuf 0 9 one_pending = Ok s' ∧
    bufBlockList (removeBlockFromList 0 s') = [] ∧
    bufStart s' = 9 ∧
    bufEnd s' = 0.
Proof.
  destruct (removeBlockFromBuf_only_block (mkBufBlock 1 0 3 9 true)
              one_pending eq_refl) as (s' & Hrm & Hend & Hstart & _).
  simpl in Hrm, Hend, Hstart. exists s'.
  split; [exact Hrm|]. split; [|split; assumption].
  apply removeBlockFromBuf_frame in Hrm as ((_ & Hlist & _) & _).
  unfold removeBlockFromList. simpl. rewrite Hlist. reflexivity.
Qed.

(** A block of 18 bytes added after the only block has been deleted is
    printed second half first, whatever the fresh region holds. *)
Lemma rotation_any_fresh_region (alloc : list byte) :
  length alloc = 18%nat →
  printed (run [Add 1 msg1; Delete 1; Add 2 (letters 18); Dump]
             (initBuf 18 (Some alloc)))
  = [drop 9 (letters 18) ++ take 9 (letters 18)].
Proof.
  intros Hlen.
  do 18 (destruct alloc as [|? alloc]; [discriminate Hlen|]).
  destruct alloc; [|discriminate Hlen].
  vm_compute. reflexivity.
Qed.

(** A marked block of size 0 adds nothing to [bufBytesDeletePending],
    so the [compactBuf] of the next [Add] of its key returns at once:
    the block stays, the new block is linked behind it and
    [addBlockToMap] fails on the old entry. *)
Example readd_empty_block :
  ∃ rs s old new,
    run [Add 3 []; Delete 3; Add 3 (letters 1)] (CircularBuffer_new 18)
    = Ok (rs, s) ∧
    codes (Ok (rs, s))
    = [RC_SUCCESS; RC_SUCCESS; RC_BLOCK_ADD_FAILED_MAP_ERR] ∧
    bufBlockList s = [old; new] ∧
    blockMapKey old = 3 ∧ blockMapKey new = 3 ∧
    blockMap s !! 3 = Some (blockAddr old).
Proof.
  do 4 eexists. split; [vm_compute; reflexivity|].
  split; [reflexivity|]. split; [reflexivity|].
  repeat split.
Qed.

(** * The free counter, whatever the calls *)

Lemma deleteBlockFromMap_list (key : Z) (s : CircularBuffer) :
  bufBlockList (deleteBlockFromMap key s).2 = bufBlockList s.
Proof. unfold deleteBlockFromMap. destruct (blockMap s !! key); reflexivity. Qed.

Lemma deleteBlockFromMap_space (key : Z) (s : CircularBuffer) :
  space_ok s → space_ok (deleteBlockFromMap key s).2.
Proof.
  unfold deleteBlockFromMap. destruct (blockMap s !! key); intros Hs; exact Hs.
Qed.

Lemma length_updateBlocks (last block : Z) (l : list BufBlock) :
  length (updateBlocks last block l) = length l.
Proof.
  revert block. induction l as [|b l IH]; intros block; simpl; auto.
Qed.

Lemma updateBufBlockList_space (s : CircularBuffer) :
  space_ok s → space_ok (updateBufBlockList s).
Proof.
  unfold space_ok, allBytes. intros (Hfree & Hsize & Hall & Hsum). simpl.
  rewrite updateBlocks_sumZ by reflexivity.
  auto using updateBlocks_sizes.
Qed.

Lemma deleteBlockFromMap_bufSize (key : Z) (s : CircularBuffer) :
  bufSize (deleteBlockFromMap key s).2 = bufSize s.
Proof. unfold deleteBlockFromMap. destruct (blockMap s !! key); reflexivity. Qed.

Lemma compactLoop_space (n : nat) (s s' : CircularBuffer) :
  space_ok s → compactLoop n s = Ok s' →
  space_ok s' ∧ bufSize s' = bufSize s ∧
  (length (bufBlockList s') <= length (bufBlockList s))%nat.
Proof.
  revert s. induction n as [|i IH]; intros s Hs Hloop; simpl in Hloop.
  - injection Hloop as <-. split; [exact Hs|]. split; [reflexivity|lia].
  - apply bind_Ok in Hloop as (b & Hb & Hloop). apply or_undef_Ok in Hb.
    destruct (blockDeletePending b) eqn:Hmark; [|eauto].
    apply bind_Ok in Hloop as (s1 & Hrm & Hloop).
    apply removeBlockFromBuf_frame in Hrm
      as ((Hsz & Hlist & _) & Hfree1 & _).
    destruct Hs as (Hfree & Hsize & Hall & Hsum).
    pose proof (sumZ_lookup_le _ _ _ _ Hall Hb) as Hle.
    fold (allBytes (bufBlockList s)) in Hle.
    rewrite Forall_lookup in Hall. pose proof (Hall i b Hb) as Hb0.
    rewrite <- Forall_lookup in Hall.
    rewrite wrap_small in Hfree1 by lia.
    assert (Hspace : space_ok (removeBlockFromList i s1)).
    { unfold space_ok, allBytes, removeBlockFromList. simpl.
      rewrite Hlist, Hsz, Hfree1, (sumZ_delete _ _ _ _ Hb).
      fold (allBytes (bufBlockList s)).
      repeat split; try lia. apply Forall_delete. exact Hall. }
    assert (Hlen : (length (bufBlockList (removeBlockFromList i s1))
                    <= length (bufBlockList s))%nat).
    { unfold removeBlockFromList. simpl. rewrite Hlist, length_delete.
      - lia.
      - eauto. }
    apply IH in Hloop as (Hs' & Hsz' & Hlen').
    + split; [exact Hs'|].
      rewrite deleteBlockFromMap_list in Hlen'.
      rewrite deleteBlockFromMap_bufSize in Hsz'. simpl in Hsz'.
      split; [congruence|lia].
    + apply deleteBlockFromMap_space. exact Hspace.
Qed.

Lemma compactBuf_space (s s' : CircularBuffer) :
  space_ok s → compactBuf s = Ok s' →
  space_ok s' ∧ bufSize s' = bufSize s ∧
  (length (bufBlockList s') <= length (bufBlockList s))%nat.
Proof.
  unfold compactBuf. intros Hs H.
  destruct (bufBytesDeletePending s =? 0).
  - injection H as <-. split; [exact Hs|]. split; [reflexivity|lia].
  - apply bind_Ok in H as (s1 & Hloop & H). injection H as <-.
    apply (compactLoop_space _ _ _ Hs) in Hloop as (Hs1 & Hsz & Hlen).
    split; [apply updateBufBlockList_space; exact Hs1|].
    split; [exact Hsz|].
    simpl. rewrite length_updateBlocks. exact Hlen.
Qed.

Lemma space_free_le (s : CircularBuffer) :
  space_ok s → bufBytesFree s <= bufSize s.
Proof.
  intros (_ & _ & Hall & Hsum).
  pose proof (sumZ_nonneg _ _ Hall) as Hnn.
  fold (allBytes (bufBlockList s)) in Hnn. lia.
Qed.

Lemma checkSize_space (size : Z) (s s' : CircularBuffer) (rc : ResultCode) :
  space_ok s → checkSize size s = Ok (rc, s') →
  space_ok s' ∧ bufSize s' = bufSize s ∧
  (length (bufBlockList s') <= length (bufBlockList s))%nat ∧
  (rc = RC_SUCCESS ∧ size <= bufBytesFree s' ∨
   rc = RC_BLOCK_SIZE_EXCEEDS_FREE_SPACE ∧ bufBytesFree s' < size).
Proof.
  unfold checkSize. intros Hs H.
  destruct (size <=? bufBytesFree s) eqn:Hfit.
  - injection H as <- <-.
    split; [exact Hs|]. split; [reflexivity|]. split; [lia|].
    left. split; [reflexivity|lia].
  - destruct (_ <? size).
    + injection H as <- <-.
      split; [exact Hs|]. split; [reflexivity|]. split; [lia|].
      right. split; [reflexivity|lia].
    + apply bind_Ok in H as (s1 & Hcompact & H). injection H as <- <-.
      apply (compactBuf_space _ _ Hs) in Hcompact as (Hs1 & Hsz & Hlen).
      split; [exact Hs1|]. split; [exact Hsz|]. split; [exact Hlen|].
      destruct (size <=? bufBytesFree s1) eqn:Hnow; [left|right];
        (split; [reflexivity|lia]).
Qed.

(** What [appendBlockToBuf] does to the free counter: [s1] is the buffer
    after [checkSize]. *)
Lemma appendBlockToBuf_space (block : list byte) (s s' : CircularBuffer)
    (rc : ResultCode) :
  space_ok s → appendBlockToBuf block s = Ok (rc, s') →
  ∃ s1, checkSize (Z.of_nat (length block)) s
        = Ok (if ResultCode_eqb rc RC_SUCCESS then RC_SUCCESS
              else RC_BLOCK_SIZE_EXCEEDS_FREE_SPACE, s1) ∧
    space_ok s1 ∧ bufSize s1 = bufSize s ∧
    (length (bufBlockList s1) <= length (bufBlockList s))%nat ∧
    ((rc = RC_BLOCK_SIZE_EXCEEDS_FREE_SPACE ∧ s' = s1 ∧
      bufBytesFree s1 < Z.of_nat (length block)) ∨
     (rc = RC_SUCCESS ∧ same_blocks s1 s' ∧
      Z.of_nat (length block) <= bufBytesFree s1 ∧
      bufBytesFree s' = bufBytesFree s1 - Z.of_nat (length block))).
Proof.
  unfold appendBlockToBuf. intros Hs H.
  apply bind_Ok in H as ([rc1 s1] & Hcheck & H).
  pose proof (checkSize_space _ _ _ _ Hs Hcheck)
    as (Hs1 & Hsz & Hlen & [[-> Hfit]|[-> Hfit]]); simpl in H.
  - exists s1. pose proof (space_free_le _ Hs1) as Hle.
    destruct Hs1 as (Hfree & Hsize & Hall & Hsum).
    assert (Hrc : rc = RC_SUCCESS).
    { ok_inv; subst; reflexivity. }
    subst rc. simpl. split; [exact Hcheck|].
    split; [repeat split; assumption|]. split; [exact Hsz|].
    split; [exact Hlen|]. right. unfold same_blocks.
    ok_inv; subst; simpl;
      match goal with |- context [if ?c then _ else _] => destruct c end;
      simpl; rewrite wrap_small by lia; auto 10.
  - injection H as <- <-. exists s1. simpl.
    split; [exact Hcheck|]. split; [exact Hs1|]. split; [exact Hsz|].
    split; [exact Hlen|]. left. auto.
Qed.

Lemma addNewBlock_space (key : Z) (block : list byte)
    (s s' : CircularBuffer) (rc : ResultCode) (bufInfo : BufInfo) :
  space_ok s → addNewBlock key block s = Ok (rc, bufInfo, s') →
  space_ok s' ∧ bufSize s' = bufSize s ∧ bufInfo = setBufInfo s' ∧
  (rc = RC_BLOCK_SIZE_EXCEEDS_FREE_SPACE ∧
   (length (bufBlockList s') <= length (bufBlockList s))%nat ∨
   (rc = RC_SUCCESS ∨ rc = RC_BLOCK_ADD_FAILED_MAP_ERR) ∧
   Z.of_nat (length block) <= bufSize s).
Proof.
  unfold addNewBlock. intros Hs H.
  apply bind_Ok in H as ([rc1 s2] & Happend & H).
  apply (appendBlockToBuf_space _ _ _ _ Hs) in Happend
    as (s1 & _ & Hs1 & Hsz1 & Hlen1 &
        [(-> & -> & Hbig)|(-> & Hsame & Hfit & Hfree)]).
  - simpl in H. injection H as <- <- <-.
    split; [exact Hs1|]. split; [exact Hsz1|]. split; [reflexivity|].
    left. split; [reflexivity|exact Hlen1].
  - simpl in H. destruct Hsame as (Hsz & Hlist & _).
    pose proof (space_free_le _ Hs1) as Hle.
    destruct Hs1 as (Hfree1 & Hsize1 & Hall1 & Hsum1).
    assert (Hspace : space_ok
      (set_bufBlockList
         (bufBlockList s2 ++
          [mkBufBlock (nextBlock s2) (bufEnd s) key
             (Z.of_nat (length block)) false])
         (set_nextBlock (N.succ (nextBlock s2)) s2))).
    { unfold space_ok, allBytes. simpl.
      rewrite sumZ_app, Hlist, Hsz, Hfree. simpl.
      fold (allBytes (bufBlockList s1)).
      repeat split; try lia.
      apply Forall_app. split; [exact Hall1|].
      constructor; [simpl; lia|constructor]. }
    unfold addBlockToMap in H. simpl in H.
    destruct (blockMap s2 !! key); injection H as <- <- <-;
      (split; [exact Hspace|]); simpl;
      (split; [congruence|]); (split; [reflexivity|]);
      right; (split; [auto|lia]).
Qed.

Lemma addBlockToBuf_space (key : Z) (block : list byte)
    (s s' : CircularBuffer) (rc : ResultCode) (bufInfo : BufInfo) :
  space_ok s → addBlockToBuf key block s = Ok (rc, bufInfo, s') →
  space_ok s' ∧ bufSize s' = bufSize s ∧ bufInfo = setBufInfo s' ∧
  (rc = RC_BLOCK_ADD_FAILED_DUPLICATE ∧ s' = s ∨
   rc = RC_BLOCK_SIZE_EXCEEDS_FREE_SPACE ∧
   (length (bufBlockList s') <= length (bufBlockList s))%nat ∨
   (rc = RC_SUCCESS ∨ rc = RC_BLOCK_ADD_FAILED_MAP_ERR) ∧
   Z.of_nat (length block) <= bufSize s).
Proof.
  unfold addBlockToBuf, findBlockInMap. intros Hs H.
  destruct (blockMap s !! key) as [p|].
  - apply bind_Ok in H as ([i b] & _ & H).
    destruct (blockDeletePending b).
    + apply bind_Ok in H as (s1 & Hcompact & H).
      apply (compactBuf_space _ _ Hs) in Hcompact as (Hs1 & Hsz1 & Hlen1).
      apply (addNewBlock_space _ _ _ _ _ _ Hs1) in H
        as (Hs' & Hsz' & Hbi & [[Hrc Hlen]|[Hrc Hfit]]).
      * split; [exact Hs'|]. split; [congruence|]. split; [exact Hbi|].
        right. left. split; [exact Hrc|lia].
      * split; [exact Hs'|]. split; [congruence|]. split; [exact Hbi|].
        right. right. split; [exact Hrc|lia].
    + injection H as <- <- <-. auto 10.
  - apply (addNewBlock_space _ _ _ _ _ _ Hs) in H
      as (Hs' & Hsz' & Hbi & Hcases).
    split; [exact Hs'|]. split; [exact Hsz'|]. split; [exact Hbi|].
    right. exact Hcases.
Qed.

Lemma deleteBlockFromBuf_space (key : Z) (s s' : CircularBuffer)
    (rc : ResultCode) (bufInfo : BufInfo) :
  space_ok s → deleteBlockFromBuf key s = Ok (rc, bufInfo, s') →
  space_ok s' ∧ bufSize s' = bufSize s.
Proof.
  unfold deleteBlockFromBuf, findBlockInMap. intros Hs H.
  apply bind_Ok in H as (s1 & Hmark & H). injection H as <- <- <-.
  destruct (blockMap s !! key) as [p|];
    [|injection Hmark as <-; auto].
  apply bind_Ok in Hmark as ([i b] & Hfind & Hmark).
  apply or_undef_Ok in Hfind. injection Hmark as <-.
  apply findBlock_lookup in Hfind.
  destruct Hs as (Hfree & Hsize & Hall & Hsum).
  rewrite Forall_lookup in Hall. pose proof (Hall i b Hfind) as Hb0.
  rewrite <- Forall_lookup in Hall.
  unfold space_ok, allBytes. simpl.
  rewrite (sumZ_insert _ _ _ _ _ Hfind). simpl.
  fold (allBytes (bufBlockList s)).
  repeat split; try lia.
  apply Forall_insert; [exact Hall|exact Hb0].
Qed.

Lemma step_space (o : Op) (s s' : CircularBuffer) (r : Reply) :
  space_ok s → step o s = Ok (r, s') →
  space_ok s' ∧ bufSize s' = bufSize s.
Proof.
  intros Hs H. destruct o as [key block|key|]; simpl in H.
  - apply bind_Ok in H as ([[rc bufInfo] s1] & Hadd & H).
    injection H as <- <-.
    apply (addBlockToBuf_space _ _ _ _ _ _ Hs) in Hadd as (? & ? & _).
    auto.
  - apply bind_Ok in H as ([[rc bufInfo] s1] & Hdel & H).
    injection H as <- <-. eapply deleteBlockFromBuf_space; eassumption.
  - apply bind_Ok in H as ([out s1] & Hprint & H). injection H as <- <-.
    apply printBuf_Ok in Hprint as [Hcompact _].
    apply (compactBuf_space _ _ Hs) in Hcompact as (? & ? & _). auto.
Qed.

Lemma exec_space (ops : list Op) (s s' : CircularBuffer) :
  space_ok s → exec ops s = Ok s' → space_ok s' ∧ bufSize s' = bufSize s.
Proof.
  unfold exec. revert s. induction ops as [|o ops IH]; intros s Hs H.
  - injection H as <-. auto.
  - simpl in H.
    apply bind_Ok in H as ([rs s2] & Hrun & H). injection H as <-.
    apply bind_Ok in Hrun as ([r s1] & Hstep & Hrun).
    apply bind_Ok in Hrun as ([rs' s3] & Hrun & H). injection H as <- <-.
    apply (step_space _ _ _ _ Hs) in Hstep as [Hs1 Hsz1].
    destruct (IH s1 Hs1) as [Hs' Hsz'].
    + rewrite Hrun. reflexivity.
    + split; [exact Hs'|congruence].
Qed.

Lemma initBuf_space (bufSz : Z) (alloc : option (list byte)) :
  0 <= bufSz < 2 ^ 64 → space_ok (initBuf bufSz alloc).
Proof.
  intros Hsz. unfold space_ok, allBytes. simpl.
  destruct alloc; simpl; repeat split; try lia; constructor.
Qed.

(** X1.  Whatever calls are made on a fresh buffer (repeated deletes
    included), the capacity stays what the constructor set and
    [bufBytesFree] is the capacity minus the sizes of the blocks that
    are still linked, marked or not; it never leaves [0, bufSize]. *)
Theorem free_counter_invariant (bufSz : Z) (alloc : option (list byte))
    (ops : list Op) (s : CircularBuffer) :
  0 <= bufSz < 2 ^ 64 →
  exec ops (initBuf bufSz alloc) = Ok s →
  bufSize s = bufSize (initBuf bufSz alloc) ∧
  bufBytesFree s = bufSize s - allBytes (bufBlockList s) ∧
  0 <= bufBytesFree s <= bufSize s.
Proof.
  intros Hsz Hexec.
  destruct (exec_space ops _ s (initBuf_space bufSz alloc Hsz) Hexec)
    as [Hs Hcap].
  pose proof (space_free_le _ Hs) as Hle.
  destruct Hs as (Hfree & _ & _ & Hsum).
  split; [exact Hcap|]. split; lia.
Qed.

Lemma free_counter_invariant_witness :
  ∃ s,
    exec [Add 3 msg3; Delete 3; Delete 3; Add 4 msg4]
      (CircularBuffer_new 18) = Ok s ∧
    bufSize s = 18 ∧
    bufBytesFree s = bufSize s - allBytes (bufBlockList s) ∧
    0 <= bufBytesFree s <= bufSize s.
Proof.
  eexists. split; [vm_compute; reflexivity|].
  apply (free_counter_invariant 18 (Some (replicate 18 "."%byte))
           [Add 3 msg3; Delete 3; Delete 3; Add 4 msg4]).
  - lia.
  - vm_compute. reflexivity.
Defined.

(** A block longer than the capacity is not stored: when the free
    counter is the capacity minus the listed sizes and the call returns,
    [addBlockToBuf] with more than [bufSize] bytes
    returns [RC_BLOCK_SIZE_EXCEEDS_FREE_SPACE], or
    [RC_BLOCK_ADD_FAILED_DUPLICATE] with nothing changed when the key is
    live, and links no block.  For a key that is not in the map and a
    size above the [uint_t] sum [bufBytesFree + bufBytesDeletePending]
    it is refused at once and the buffer is left as it is. *)
Theorem oversize_add_refused (key : Z) (block : list byte)
    (s : CircularBuffer) :
  space_ok s →
  bufSize s < Z.of_nat (length block) →
  (∀ rc bufInfo s',
     addBlockToBuf key block s = Ok (rc, bufInfo, s') →
     (rc = RC_BLOCK_SIZE_EXCEEDS_FREE_SPACE ∨
      rc = RC_BLOCK_ADD_FAILED_DUPLICATE ∧ s' = s) ∧
     (length (bufBlockList s') <= length (bufBlockList s))%nat ∧
     bufInfo = setBufInfo s') ∧
  (blockMap s !! key = None →
   wrap (bufBytesFree s + bufBytesDeletePending s)
   < Z.of_nat (length block) →
   addBlockToBuf key block s
   = Ok (RC_BLOCK_SIZE_EXCEEDS_FREE_SPACE, setBufInfo s, s)).
Proof.
  intros Hs Hbig. split.
  - intros rc bufInfo s' Hadd.
    apply (addBlockToBuf_space _ _ _ _ _ _ Hs) in Hadd
      as (_ & _ & Hbi & [[Hrc ->]|[[Hrc Hlen]|[_ Hfit]]]).
    + split; [right; auto|]. split; [lia|exact Hbi].
    + split; [left; exact Hrc|]. split; [exact Hlen|exact Hbi].
    + lia.
  - intros Hkey Hover. pose proof (space_free_le _ Hs) as Hle.
    unfold addBlockToBuf, findBlockInMap. rewrite Hkey.
    unfold addNewBlock, appendBlockToBuf, checkSize.
    replace (Z.of_nat (length block) <=? bufBytesFree s) with false
      by (symmetry; apply Z.leb_gt; lia).
    apply Z.ltb_lt in Hover. rewrite Hover. reflexivity.
Qed.

Lemma oversize_add_refused_witness :
  addBlockToBuf 4 (letters 19) one_live
  = Ok (RC_BLOCK_SIZE_EXCEEDS_FREE_SPACE, setBufInfo one_live, one_live).
Proof.
  apply (oversize_add_refused 4 (letters 19) one_live).
  - unfold space_ok, allBytes. simpl. repeat split; try lia.
    repeat constructor. simpl. lia.
  - simpl. lia.
  - reflexivity.
  - vm_compute. reflexivity.
Defined.

(** * The map and the list *)

Lemma bind_Undef {A B} (r : result A) (f : A → result B) (u : UB) :
  r ≫= f = Undef u → r = Undef u ∨ ∃ a, r = Ok a ∧ f a = Undef u.
Proof. destruct r as [a|v]; simpl; [eauto|intros [= ->]; auto]. Qed.

Lemma findBlock_same (p : N) (l l' : list BufBlock) (i : nat)
    (b : BufBlock) :
  Forall2 same_block l l' →
  findBlock p l = Some (i, b) →
  ∃ b', findBlock p l' = Some (i, b') ∧ same_block b b'.
Proof.
  intros Hsame. revert i.
  induction Hsame as [|x y l l' Hxy _ IH]; intros i; simpl; [discriminate|].
  unfold hasAddr. destruct Hxy as (Haddr & Hkey & Hsize). rewrite <- Haddr.
  destruct (blockAddr x =? p)%N.
  - intros [= <- <-]. exists y. split; [reflexivity|]. repeat split; auto.
  - destruct (findBlock p l) as [[j z]|]; simpl; [|discriminate].
    intros [= <- <-]. destruct (IH j eq_refl) as (b' & -> & Hb').
    exists b'. split; [reflexivity|exact Hb'].
Qed.

Lemma findBlock_delete (p : N) (l : list BufBlock) (i j : nat)
    (b : BufBlock) :
  findBlock p l = Some (j, b) → i ≠ j →
  ∃ j', findBlock p (delete i l) = Some (j', b).
Proof.
  revert i j. induction l as [|x l IH]; intros i j; simpl; [discriminate|].
  destruct (hasAddr p x) eqn:Hx.
  - intros [= <- <-] Hne. destruct i as [|i]; [contradiction|].
    simpl. rewrite Hx. eauto.
  - destruct (findBlock p l) as [[k z]|] eqn:Hfind; simpl; [|discriminate].
    intros [= <- <-] Hne. destruct i as [|i]; simpl.
    + eauto.
    + rewrite Hx. destruct (IH i k eq_refl) as (j' & ->); [lia|].
      simpl. eauto.
Qed.

Lemma findBlock_app_l (p : N) (l k : list BufBlock) (i : nat)
    (b : BufBlock) :
  findBlock p l = Some (i, b) → findBlock p (l ++ k) = Some (i, b).
Proof.
  revert i. induction l as [|x l IH]; intros i; simpl; [discriminate|].
  destruct (hasAddr p x); [auto|].
  destruct (findBlock p l) as [[j z]|]; simpl; [|discriminate].
  intros [= <- <-]. rewrite (IH j eq_refl). reflexivity.
Qed.

Lemma findBlock_fresh (p : N) (l : list BufBlock) (b : BufBlock) :
  Forall (λ x, (blockAddr x < p)%N) l → blockAddr b = p →
  findBlock p (l ++ [b]) = Some (length l, b).
Proof.
  intros Hall Hb. induction Hall as [|x l Hx _ IH]; simpl.
  - unfold hasAddr. rewrite Hb, N.eqb_refl. reflexivity.
  - unfold hasAddr at 1.
    replace (blockAddr x =? p)%N with false
      by (symmetry; apply N.eqb_neq; lia).
    rewrite IH. reflexivity.
Qed.

Lemma same_block_updateBlocks (last block : Z) (l : list BufBlock) :
  Forall2 same_block l (updateBlocks last block l).
Proof.
  revert block. induction l as [|b l IH]; intros block; simpl;
    constructor; [repeat split|apply IH].
Qed.

Lemma same_block_insert (l : list BufBlock) (i : nat) (b : BufBlock)
    (d : bool) :
  l !! i = Some b →
  Forall2 same_block l (<[i := set_blockDeletePending d b]> l).
Proof.
  revert i. induction l as [|x l IH]; intros i Hb; [discriminate|].
  destruct i as [|i]; simpl in *.
  - injection Hb as ->. constructor; [repeat split|].
    apply Forall2_same_length_lookup_2; [reflexivity|].
    intros j y z Hy Hz. rewrite Hy in Hz. injection Hz as <-.
    repeat split.
  - constructor; [repeat split|apply IH; exact Hb].
Qed.

Lemma linked_same (s s' : CircularBuffer) :
  linked s →
  Forall2 same_block (bufBlockList s) (bufBlockList s') →
  blockMap s' = blockMap s → nextBlock s' = nextBlock s →
  linked s'.
Proof.
  intros [Hmap Haddr] Hsame Hm Hn. split.
  - intros key p Hkey. rewrite Hm in Hkey.
    destruct (Hmap key p Hkey) as (i & b & Hfind & Hb).
    destruct (findBlock_same _ _ _ _ _ Hsame Hfind)
      as (b' & Hfind' & _ & Hk & _).
    exists i, b'. split; [exact Hfind'|congruence].
  - rewrite Hn. clear Hmap Hm Hn.
    induction Hsame as [|x y l l' Hxy _ IH]; [constructor|].
    inversion Haddr; subst. constructor; [|auto].
    destruct Hxy as (<- & _). assumption.
Qed.

Lemma deleteBlockFromMap_map (key : Z) (s : CircularBuffer) :
  blockMap (deleteBlockFromMap key s).2 = delete key (blockMap s).
Proof.
  unfold deleteBlockFromMap.
  destruct (blockMap s !! key) eqn:Hkey; simpl; [reflexivity|].
  symmetry. apply delete_id. exact Hkey.
Qed.

Lemma deleteBlockFromMap_nextBlock (key : Z) (s : CircularBuffer) :
  nextBlock (deleteBlockFromMap key s).2 = nextBlock s.
Proof. unfold deleteBlockFromMap. destruct (blockMap s !! key); reflexivity. Qed.

Lemma compactLoop_linked (n : nat) (s s' : CircularBuffer) :
  linked s → compactLoop n s = Ok s' → linked s'.
Proof.
  revert s. induction n as [|i IH]; intros s Hs Hloop; simpl in Hloop.
  - injection Hloop as <-. exact Hs.
  - apply bind_Ok in Hloop as (b & Hb & Hloop). apply or_undef_Ok in Hb.
    destruct (blockDeletePending b) eqn:Hmark; [|eauto].
    apply bind_Ok in Hloop as (s1 & Hrm & Hloop).
    apply IH in Hloop; [exact Hloop|]. clear IH Hloop.
    apply removeBlockFromBuf_frame in Hrm
      as ((_ & Hlist & Hm & Hn) & _).
    destruct Hs as [Hmap Haddr]. split.
    + intros key p. rewrite deleteBlockFromMap_map, deleteBlockFromMap_list.
      unfold removeBlockFromList. simpl. rewrite Hlist, Hm.
      intros Hkey. apply lookup_delete_Some in Hkey as [Hne Hkey].
      destruct (Hmap key p Hkey) as (j & b' & Hfind & Hb').
      assert (i ≠ j).
      { intros <-. apply findBlock_lookup in Hfind. congruence. }
      destruct (findBlock_delete _ _ i _ _ Hfind) as (j' & Hj'); eauto.
    + rewrite deleteBlockFromMap_nextBlock, deleteBlockFromMap_list.
      unfold removeBlockFromList. simpl. rewrite Hlist, Hn.
      apply Forall_delete. exact Haddr.
Qed.

Lemma compactBuf_linked (s s' : CircularBuffer) :
  linked s → compactBuf s = Ok s' → linked s'.
Proof.
  unfold compactBuf. intros Hs H.
  destruct (bufBytesDeletePending s =? 0).
  - injection H as <-. exact Hs.
  - apply bind_Ok in H as (s1 & Hloop & H). injection H as <-.
    apply (compactLoop_linked _ _ _ Hs) in Hloop.
    apply (linked_same s1); auto. apply same_block_updateBlocks.
Qed.

Lemma linked_same_blocks (s s' : CircularBuffer) :
  linked s → same_blocks s s' → linked s'.
Proof.
  intros Hs (_ & Hlist & Hm & Hn).
  apply (linked_same s); auto. rewrite Hlist.
  apply Forall2_same_length_lookup_2; [reflexivity|].
  intros j y z Hy Hz. rewrite Hy in Hz. injection Hz as <-. repeat split.
Qed.

Lemma checkSize_linked (size : Z) (s s' : CircularBuffer) (rc : ResultCode) :
  linked s → checkSize size s = Ok (rc, s') → linked s'.
Proof.
  unfold checkSize. intros Hs H.
  destruct (size <=? bufBytesFree s); [injection H as <- <-; exact Hs|].
  destruct (_ <? size); [injection H as <- <-; exact Hs|].
  apply bind_Ok in H as (s1 & Hcompact & H). injection H as <- <-.
  eapply compactBuf_linked; eassumption.
Qed.

(** After its [checkSize], [appendBlockToBuf] touches the bytes, the
    end cursor and the free counter only. *)
Lemma appendBlockToBuf_frame (block : list byte) (s s' : CircularBuffer)
    (rc : ResultCode) :
  appendBlockToBuf block s = Ok (rc, s') →
  ∃ rc1 s1, checkSize (Z.of_nat (length block)) s = Ok (rc1, s1) ∧
    same_blocks s1 s' ∧
    bufStart s' = bufStart s1 ∧
    bufBytesDeletePending s' = bufBytesDeletePending s1 ∧
    (rc1 = RC_SUCCESS → rc = RC_SUCCESS) ∧
    (rc1 ≠ RC_SUCCESS → rc = rc1 ∧ s' = s1).
Proof.
  unfold appendBlockToBuf, same_blocks. intros H.
  apply bind_Ok in H as ([rc1 s1] & Hcheck & H).
  exists rc1, s1. split; [exact Hcheck|].
  destruct (ResultCode_eqb rc1 RC_SUCCESS) eqn:Hrc; simpl in H.
  - apply ResultCode_eqb_eq in Hrc. subst rc1.
    ok_inv; subst; simpl;
      match goal with |- context [if ?c then _ else _] => destruct c end;
      simpl; repeat split; auto; congruence.
  - injection H as <- <-. repeat split; auto.
Qed.

Lemma addNewBlock_linked (key : Z) (block : list byte)
    (s s' : CircularBuffer) (rc : ResultCode) (bufInfo : BufInfo) :
  linked s → addNewBlock key block s = Ok (rc, bufInfo, s') → linked s'.
Proof.
  unfold addNewBlock. intros Hs H.
  apply bind_Ok in H as ([rc1 s2] & Happend & H).
  apply appendBlockToBuf_frame in Happend
    as (rc0 & s1 & Hcheck & Hsame & _).
  apply (checkSize_linked _ _ _ _ Hs) in Hcheck.
  apply (linked_same_blocks _ _ Hcheck) in Hsame as [Hmap Haddr].
  destruct (ResultCode_eqb rc1 RC_SUCCESS);
    [|injection H as <- <- <-; split; assumption].
  unfold addBlockToMap in H. simpl in H.
  assert (Hnew : Forall (λ b, (blockAddr b < N.succ (nextBlock s2))%N)
            (bufBlockList s2 ++
             [mkBufBlock (nextBlock s2) (bufEnd s) key
                (Z.of_nat (length block)) false])).
  { apply Forall_app. split.
    - eapply Forall_impl; [exact Haddr|]. simpl. intros b Hb. lia.
    - constructor; [simpl; lia|constructor]. }
  destruct (blockMap s2 !! key) eqn:Hkey; injection H as <- <- <-;
    (split; [|exact Hnew]); simpl; intros key' p Hkey'.
  - destruct (Hmap key' p Hkey') as (i & b & Hfind & Hb).
    exists i, b. split; [|exact Hb]. apply findBlock_app_l. exact Hfind.
  - apply lookup_insert_Some in Hkey' as [[<- <-]|[Hne Hkey']].
    + eexists _, _. split; [apply findBlock_fresh; auto|]. reflexivity.
    + destruct (Hmap key' p Hkey') as (i & b & Hfind & Hb).
      exists i, b. split; [|exact Hb]. apply findBlock_app_l. exact Hfind.
Qed.

Lemma addBlockToBuf_linked (key : Z) (block : list byte)
    (s s' : CircularBuffer) (rc : ResultCode) (bufInfo : BufInfo) :
  linked s → addBlockToBuf key block s = Ok (rc, bufInfo, s') → linked s'.
Proof.
  unfold addBlockToBuf, findBlockInMap. intros Hs H.
  destruct (blockMap s !! key) as [p|];
    [|eapply addNewBlock_linked; eassumption].
  apply bind_Ok in H as ([i b] & _ & H).
  destruct (blockDeletePending b).
  - apply bind_Ok in H as (s1 & Hcompact & H).
    eapply addNewBlock_linked; [|eassumption].
    eapply compactBuf_linked; eassumption.
  - injection H as <- <- <-. exact Hs.
Qed.

(** [deleteBlockFromBuf] in a state whose map and list agree. *)
Lemma deleteBlockFromBuf_linked (key : Z) (s : CircularBuffer) :
  linked s →
  ∃ s',
    deleteBlockFromBuf key s = Ok (RC_SUCCESS, setBufInfo s', s') ∧
    linked s' ∧
    Forall2 same_block (bufBlockList s) (bufBlockList s') ∧
    same_blocks (set_bufBlockList (bufBlockList s') s) s' ∧
    buf s' = buf s ∧ bufStart s' = bufStart s ∧ bufEnd s' = bufEnd s ∧
    bufBytesFree s' = bufBytesFree s.
Proof.
  intros Hs. unfold deleteBlockFromBuf, findBlockInMap.
  destruct (blockMap s !! key) as [p|] eqn:Hkey.
  - destruct Hs as [Hmap Haddr].
    destruct (Hmap key p Hkey) as (i & b & Hfind & Hb).
    rewrite Hfind. cbn [or_undef mbind result_bind].
    eexists. split; [reflexivity|].
    pose proof (same_block_insert _ _ _ true (findBlock_lookup _ _ _ _ Hfind))
      as Hsame.
    split; [|simpl; unfold same_blocks; simpl; auto 10].
    apply (linked_same s); [split; assumption|exact Hsame|reflexivity..].
  - cbn [mbind result_bind]. exists s. split; [reflexivity|].
    split; [exact Hs|]. unfold same_blocks. simpl.
    split; [|auto 10].
    apply Forall2_same_length_lookup_2; [reflexivity|].
    intros j y z Hy Hz. rewrite Hy in Hz. injection Hz as <-. repeat split.
Qed.

Lemma step_linked (o : Op) (s s' : CircularBuffer) (r : Reply) :
  linked s → step o s = Ok (r, s') → linked s'.
Proof.
  intros Hs H. destruct o as [key block|key|]; simpl in H.
  - apply bind_Ok in H as ([[rc bufInfo] s1] & Hadd & H).
    injection H as <- <-. eapply addBlockToBuf_linked; eassumption.
  - destruct (deleteBlockFromBuf_linked key s Hs) as (s1 & Hdel & Hs1 & _).
    rewrite Hdel in H. injection H as <- <-. exact Hs1.
  - apply bind_Ok in H as ([out s1] & Hprint & H). injection H as <- <-.
    apply printBuf_Ok in Hprint as [Hcompact _].
    eapply compactBuf_linked; eassumption.
Qed.

Lemma initBuf_linked (bufSz : Z) (alloc : option (list byte)) :
  linked (initBuf bufSz alloc).
Proof.
  split; simpl; [|constructor].
  intros key p Hkey. rewrite lookup_empty in Hkey. discriminate.
Qed.

Lemma exec_linked (ops : list Op) (s s' : CircularBuffer) :
  linked s → exec ops s = Ok s' → linked s'.
Proof.
  unfold exec. revert s. induction ops as [|o ops IH]; intros s Hs H.
  - injection H as <-. exact Hs.
  - simpl in H.
    apply bind_Ok in H as ([rs s2] & Hrun & H). injection H as <-.
    apply bind_Ok in Hrun as ([r s1] & Hstep & Hrun).
    apply bind_Ok in Hrun as ([rs' s3] & Hrun & H). injection H as <- <-.
    apply (IH s1); [eapply step_linked; eassumption|].
    rewrite Hrun. reflexivity.
Qed.

(** * No null and no dangling block pointer *)

(** Inversion of a computation that is known to be undefined. *)
Ltac undef_inv :=
  repeat match goal with
  | H : Ok _ = Undef _ |- _ => discriminate H
  | H : Undef _ = Undef _ |- _ => injection H as H
  | H : _ ≫= _ = Undef _ |- _ =>
      let a := fresh "a" in
      let Ha := fresh "Ha" in
      apply bind_Undef in H; destruct H as [H|(a & Ha & H)]
  | H : (if ?c then _ else _) = Undef _ |- _ => destruct c eqn:?
  | H : (let '(_, _) := ?p in _) = Undef _ |- _ => destruct p as [? ?] eqn:?
  end.

Lemma store_Undef (dst : Z) (src m : list byte) (u : UB) :
  store dst src m = Undef u → u = OutOfBounds.
Proof. unfold store. intros H. undef_inv. congruence. Qed.

Lemma memmove_Undef (dst src n : Z) (m : list byte) (u : UB) :
  memmove dst src n m = Undef u → u = OutOfBounds.
Proof.
  unfold memmove, load. intros H. undef_inv;
    try (eapply store_Undef; eassumption); congruence.
Qed.

Lemma moveBytes_Undef (dst src n : Z) (s : CircularBuffer) (u : UB) :
  moveBytes dst src n s = Undef u → u = OutOfBounds.
Proof.
  unfold moveBytes. intros H.
  undef_inv; try (eapply memmove_Undef; eassumption).
Qed.

Lemma removeBlockFromBuf_Undef (blk blksz : Z) (s : CircularBuffer) (u : UB) :
  removeBlockFromBuf blk blksz s = Undef u →
  bufBlockList s ≠ [] → u = OutOfBounds.
Proof.
  unfold removeBlockFromBuf. intros H Hne.
  destruct (bufBlockList s) as [|b l] eqn:Hlist; [contradiction|].
  simpl in H.
  assert (Hlast : ∃ t, last (b :: l) = Some t).
  { destruct (last (b :: l)) eqn:Hl; [eauto|].
    apply last_None in Hl. discriminate. }
  destruct Hlast as [t Ht].
  destruct (blk =? blockInBuf b); simpl in H; rewrite Hlist, Ht in H;
    simpl in H; undef_inv;
    try (eapply moveBytes_Undef; eassumption).
Qed.

Lemma compactLoop_Undef (n : nat) (s : CircularBuffer) (u : UB) :
  (n <= length (bufBlockList s))%nat →
  compactLoop n s = Undef u → u = OutOfBounds.
Proof.
  revert s. induction n as [|i IH]; intros s Hn H; simpl in H;
    [discriminate|].
  destruct (lookup_lt_is_Some_2 (bufBlockList s) i) as [b Hb]; [lia|].
  rewrite Hb in H. cbn [or_undef mbind result_bind] in H.
  destruct (blockDeletePending b); [|apply (IH s); [lia|exact H]].
  apply bind_Undef in H as [H|(s1 & Hrm & H)].
  - apply removeBlockFromBuf_Undef in H; [exact H|].
    intros Hnil. rewrite Hnil in Hb. discriminate.
  - apply removeBlockFromBuf_frame in Hrm as ((_ & Hlist & _) & _).
    apply IH in H; [exact H|].
    rewrite deleteBlockFromMap_list. unfold removeBlockFromList. simpl.
    rewrite Hlist, length_delete by eauto. lia.
Qed.

Lemma compactBuf_Undef (s : CircularBuffer) (u : UB) :
  compactBuf s = Undef u → u = OutOfBounds.
Proof.
  unfold compactBuf. intros H. undef_inv.
  eapply compactLoop_Undef; [|eassumption]. lia.
Qed.

Lemma checkSize_Undef (size : Z) (s : CircularBuffer) (u : UB) :
  checkSize size s = Undef u → u = OutOfBounds.
Proof.
  unfold checkSize. intros H. undef_inv.
  eapply compactBuf_Undef; eassumption.
Qed.

Lemma appendBlockToBuf_Undef (block : list byte) (s : CircularBuffer)
    (u : UB) :
  appendBlockToBuf block s = Undef u → u = OutOfBounds.
Proof.
  unfold appendBlockToBuf. intros H.
  apply bind_Undef in H as [H|([rc s1] & _ & H)];
    [eapply checkSize_Undef; eassumption|].
  undef_inv; eapply store_Undef; eassumption.
Qed.

Lemma addNewBlock_Undef (key : Z) (block : list byte) (s : CircularBuffer)
    (u : UB) :
  addNewBlock key block s = Undef u → u = OutOfBounds.
Proof.
  unfold addNewBlock. intros H.
  apply bind_Undef in H as [H|([rc s1] & _ & H)];
    [eapply appendBlockToBuf_Undef; eassumption|].
  destruct (ResultCode_eqb rc RC_SUCCESS); [|discriminate].
  destruct (addBlockToMap _ _ _). discriminate.
Qed.

Lemma addBlockToBuf_Undef (key : Z) (block : list byte) (s : CircularBuffer)
    (u : UB) :
  linked s → addBlockToBuf key block s = Undef u → u = OutOfBounds.
Proof.
  unfold addBlockToBuf, findBlockInMap. intros [Hmap _] H.
  destruct (blockMap s !! key) as [p|] eqn:Hkey;
    [|eapply addNewBlock_Undef; eassumption].
  destruct (Hmap key p Hkey) as (i & b & Hfind & _).
  rewrite Hfind in H. cbn [or_undef mbind result_bind] in H.
  destruct (blockDeletePending b); [|discriminate].
  apply bind_Undef in H as [H|(s1 & _ & H)].
  - eapply compactBuf_Undef; eassumption.
  - eapply addNewBlock_Undef; eassumption.
Qed.

Lemma print_s_Undef (n : nat) (l : list byte) (u : UB) :
  print_s n l = Undef u → u = OutOfBounds.
Proof.
  revert l. induction n as [|n IH]; intros l H; simpl in H; [discriminate|].
  destruct l as [|b l]; [congruence|].
  destruct (Byte.eqb b x00); [discriminate|].
  apply bind_Undef in H as [H|(out & _ & H)]; [eauto|discriminate].
Qed.

Lemma printf_s_Undef (precision p : Z) (m : list byte) (u : UB) :
  printf_s precision p m = Undef u → u = OutOfBounds.
Proof.
  unfold printf_s. intros H.
  destruct (_ && _); [|congruence].
  destruct (precision <? 0); eapply print_s_Undef; eassumption.
Qed.

Lemma printBuf_Undef (s : CircularBuffer) (u : UB) :
  printBuf s = Undef u → u = OutOfBounds.
Proof.
  unfold printBuf. intros H.
  apply bind_Undef in H as [H|(s1 & _ & H)];
    [eapply compactBuf_Undef; eassumption|].
  undef_inv; eapply printf_s_Undef; eassumption.
Qed.

Lemma step_Undef (o : Op) (s : CircularBuffer) (u : UB) :
  linked s → step o s = Undef u → u = OutOfBounds.
Proof.
  intros Hs H. destruct o as [key block|key|]; simpl in H.
  - apply bind_Undef in H as [H|([[rc bi] s1] & _ & H)]; [|discriminate].
    eapply addBlockToBuf_Undef; eassumption.
  - destruct (deleteBlockFromBuf_linked key s Hs) as (s1 & Hdel & _).
    rewrite Hdel in H. discriminate.
  - apply bind_Undef in H as [H|([out s1] & _ & H)]; [|discriminate].
    eapply printBuf_Undef; eassumption.
Qed.

Lemma run_Undef (ops : list Op) (s : CircularBuffer) (u : UB) :
  linked s → run ops s = Undef u → u = OutOfBounds.
Proof.
  revert s. induction ops as [|o ops IH]; intros s Hs H; simpl in H;
    [discriminate|].
  apply bind_Undef in H as [H|([r s1] & Hstep & H)];
    [eapply step_Undef; eassumption|].
  apply bind_Undef in H as [H|([rs s2] & _ & H)]; [|discriminate].
  apply (IH s1); [eapply step_linked; eassumption|exact H].
Qed.

(** Of the three ways in which this embedding is undefined, a run from
    a buffer built by [initBuf] meets only [OutOfBounds]: the block that
    a map entry names is in the list, and [removeBlockFromBuf] is called
    on a list that has a head and a tail. *)
Theorem no_bad_block_pointer (bufSz : Z) (alloc : option (list byte))
    (ops : list Op) (u : UB) :
  run ops (initBuf bufSz alloc) = Undef u → u = OutOfBounds.
Proof. apply run_Undef. apply initBuf_linked. Qed.

Lemma no_bad_block_pointer_witness :
  run [Add 1 msg1; Add 2 (letters 5); Delete 1; Dump; Delete 2; Dump;
       Add 3 (letters 10)] (CircularBuffer_new 18) = Undef OutOfBounds.
Proof.
  assert (H : ∃ u,
    run [Add 1 msg1; Add 2 (letters 5); Delete 1; Dump; Delete 2; Dump;
         Add 3 (letters 10)] (CircularBuffer_new 18) = Undef u)
    by (eexists; vm_compute; reflexivity).
  destruct H as [u H]. rewrite H. f_equal.
  exact (no_bad_block_pointer 18 (Some (replicate 18 "."%byte)) _ u H).
Defined.

(** X4.  [deleteBlockFromBuf] is defined in every state that calls
    reach from a fresh buffer, returns [RC_SUCCESS] with the stats of
    the new state, and moves nothing: the bytes of the region, both
    cursors, [bufBytesFree], the map and the order, addresses, keys and
    sizes of the linked blocks stay as they are. *)
Theorem delete_moves_nothing (bufSz : Z) (alloc : option (list byte))
    (ops : list Op) (key : Z) (s : CircularBuffer) :
  exec ops (initBuf bufSz alloc) = Ok s →
  ∃ s',
    deleteBlockFromBuf key s = Ok (RC_SUCCESS, setBufInfo s', s') ∧
    buf s' = buf s ∧ bufStart s' = bufStart s ∧ bufEnd s' = bufEnd s ∧
    bufBytesFree s' = bufBytesFree s ∧
    blockMap s' = blockMap s ∧
    Forall2 same_block (bufBlockList s) (bufBlockList s').
Proof.
  intros Hexec.
  pose proof (exec_linked ops _ s (initBuf_linked bufSz alloc) Hexec) as Hs.
  destruct (deleteBlockFromBuf_linked key s Hs)
    as (s' & Hdel & _ & Hsame & (_ & _ & Hmap & _) & Hbuf & Hst & Hen & Hfr).
  exists s'. simpl in Hmap. auto 10.
Qed.

Lemma delete_moves_nothing_witness :
  ∃ s',
    deleteBlockFromBuf 3 one_live = Ok (RC_SUCCESS, setBufInfo s', s') ∧
    buf s' = buf one_live ∧ bufStart s' = bufStart one_live ∧
    bufEnd s' = bufEnd one_live ∧
    bufBytesFree s' = bufBytesFree one_live ∧
    blockMap s' = blockMap one_live ∧
    Forall2 same_block (bufBlockList one_live) (bufBlockList s').
Proof.
  apply (delete_moves_nothing 18 (Some (replicate 18 "."%byte))
           [Add 3 msg3] 3 one_live).
  vm_compute. reflexivity.
Defined.

(** * What compaction keeps and what it drops *)

Lemma unmarked_snoc (l : list BufBlock) (b : BufBlock) :
  unmarked (l ++ [b])
  = unmarked l ++ (if blockDeletePending b then [] else [b]).
Proof.
  unfold unmarked. rewrite filter_app. f_equal.
  destruct (blockDeletePending b) eqn:Hb.
  - rewrite filter_cons_False by (simpl; congruence). reflexivity.
  - rewrite filter_cons_True by exact Hb. reflexivity.
Qed.

Lemma marked_snoc (l : list BufBlock) (b : BufBlock) :
  marked (l ++ [b])
  = marked l ++ (if blockDeletePending b then [b] else []).
Proof.
  unfold marked. rewrite filter_app. f_equal.
  destruct (blockDeletePending b) eqn:Hb.
  - rewrite filter_cons_True by exact Hb. reflexivity.
  - rewrite filter_cons_False by (simpl; congruence). reflexivity.
Qed.

Lemma take_delete_same {A} (l : list A) (i : nat) :
  take i (delete i l) = take i l.
Proof.
  revert i. induction l as [|x l IH]; intros [|i]; simpl; auto.
  f_equal. apply IH.
Qed.

Lemma drop_delete_same {A} (l : list A) (i : nat) :
  drop i (delete i l) = drop (S i) l.
Proof.
  revert i. induction l as [|x l IH]; intros [|i]; simpl; auto.
Qed.

(** The list after the loop has walked the last [n] positions. *)
Lemma compactLoop_list (n : nat) (s s' : CircularBuffer) :
  compactLoop n s = Ok s' →
  bufBlockList s'
  = unmarked (take n (bufBlockList s)) ++ drop n (bufBlockList s).
Proof.
  revert s. induction n as [|i IH]; intros s Hloop; simpl in Hloop.
  - injection Hloop as <-. rewrite take_0, drop_0. reflexivity.
  - apply bind_Ok in Hloop as (b & Hb & Hloop). apply or_undef_Ok in Hb.
    rewrite (take_S_r _ _ _ Hb), unmarked_snoc.
    destruct (blockDeletePending b) eqn:Hmark.
    + apply bind_Ok in Hloop as (s1 & Hrm & Hloop).
      apply removeBlockFromBuf_frame in Hrm as ((_ & Hlist & _) & _).
      apply IH in Hloop. rewrite Hloop, deleteBlockFromMap_list.
      unfold removeBlockFromList. simpl.
      rewrite Hlist, take_delete_same, drop_delete_same, app_nil_r.
      reflexivity.
    + apply IH in Hloop. rewrite Hloop, <- app_assoc. simpl.
      rewrite <- (drop_S _ _ _ Hb). reflexivity.
Qed.

(** The map after the loop has walked the last [n] positions. *)
Lemma compactLoop_map (n : nat) (s s' : CircularBuffer) (key : Z) :
  compactLoop n s = Ok s' →
  blockMap s' !! key
  = if decide (key ∈ blockMapKey <$> marked (take n (bufBlockList s)))
    then None else blockMap s !! key.
Proof.
  revert s. induction n as [|i IH]; intros s Hloop; simpl in Hloop.
  - injection Hloop as <-. rewrite take_0. reflexivity.
  - apply bind_Ok in Hloop as (b & Hb & Hloop). apply or_undef_Ok in Hb.
    rewrite (take_S_r _ _ _ Hb), marked_snoc, fmap_app.
    destruct (blockDeletePending b) eqn:Hmark.
    + apply bind_Ok in Hloop as (s1 & Hrm & Hloop).
      apply removeBlockFromBuf_frame in Hrm as ((_ & Hlist & Hm & _) & _).
      apply IH in Hloop. rewrite Hloop.
      rewrite deleteBlockFromMap_list, deleteBlockFromMap_map.
      unfold removeBlockFromList. simpl. rewrite Hlist, Hm, take_delete_same.
      destruct (decide (key ∈ blockMapKey <$> marked (take i (bufBlockList s))))
        as [Hin|Hnin].
      * rewrite decide_True; [reflexivity|].
        apply elem_of_app. left. exact Hin.
      * destruct (decide (key = blockMapKey b)) as [->|Hne].
        -- rewrite lookup_delete_eq, decide_True; [reflexivity|].
           apply elem_of_app. right. simpl. apply list_elem_of_singleton.
           reflexivity.
        -- rewrite lookup_delete_ne by congruence.
           rewrite decide_False; [reflexivity|].
           intros Hin. apply elem_of_app in Hin as [Hin|Hin]; [auto|].
           simpl in Hin. apply list_elem_of_singleton in Hin. auto.
    + apply IH in Hloop. rewrite Hloop. simpl. rewrite app_nil_r.
      reflexivity.
Qed.

(** The free counter after the loop has walked the last [n] positions. *)
Lemma compactLoop_free (n : nat) (s s' : CircularBuffer) :
  space_ok s → compactLoop n s = Ok s' →
  bufBytesFree s'
  = bufBytesFree s + pendingBytes (take n (bufBlockList s)).
Proof.
  revert s. induction n as [|i IH]; intros s Hs Hloop; simpl in Hloop.
  - injection Hloop as <-. rewrite take_0. simpl. lia.
  - apply bind_Ok in Hloop as (b & Hb & Hloop). apply or_undef_Ok in Hb.
    rewrite (take_S_r _ _ _ Hb). unfold pendingBytes at 1.
    rewrite sumZ_app. fold (pendingBytes (take i (bufBlockList s))).
    simpl. unfold pendingSize at 1.
    destruct (blockDeletePending b) eqn:Hmark.
    + apply bind_Ok in Hloop as (s1 & Hrm & Hloop).
      pose proof (removeBlockFromBuf_frame _ _ _ _ Hrm)
        as ((Hsz & Hlist & _) & Hfree1 & _).
      destruct Hs as (Hfree & Hsize & Hall & Hsum).
      pose proof (sumZ_lookup_le _ _ _ _ Hall Hb) as Hle.
      fold (allBytes (bufBlockList s)) in Hle.
      rewrite Forall_lookup in Hall. pose proof (Hall i b Hb) as Hb0.
      rewrite <- Forall_lookup in Hall.
      rewrite wrap_small in Hfree1 by lia.
      apply IH in Hloop.
      * rewrite Hloop, deleteBlockFromMap_list.
        unfold deleteBlockFromMap, removeBlockFromList.
        destruct (blockMap _ !! _); simpl;
          rewrite Hlist, Hfree1, take_delete_same; lia.
      * apply deleteBlockFromMap_space.
        unfold space_ok, allBytes, removeBlockFromList. simpl.
        rewrite Hlist, Hsz, Hfree1, (sumZ_delete _ _ _ _ Hb).
        fold (allBytes (bufBlockList s)).
        repeat split; try lia. apply Forall_delete. exact Hall.
    + apply IH in Hloop; [|exact Hs]. rewrite Hloop. lia.
Qed.

(** X5.  When [compactBuf] runs (the pending counter is not zero) and
    is defined, it unlinks exactly the marked blocks: the list is the
    unmarked blocks in their order, with address, key and size as
    before and offsets rebuilt from [bufStart]; exactly the keys of the
    marked blocks leave the map; the capacity stays and [bufBytesFree]
    grows by the bytes of the marked blocks. *)
Theorem compactBuf_drops_marked (s s' : CircularBuffer) :
  space_ok s →
  bufBytesDeletePending s ≠ 0 →
  compactBuf s = Ok s' →
  bufBlockList s'
  = updateBlocks (bufSize s') (bufStart s') (unmarked (bufBlockList s)) ∧
  Forall2 same_block (unmarked (bufBlockList s)) (bufBlockList s') ∧
  all_live (bufBlockList s') ∧
  (∀ key, blockMap s' !! key
          = if decide (key ∈ blockMapKey <$> marked (bufBlockList s))
            then None else blockMap s !! key) ∧
  bufSize s' = bufSize s ∧
  bufBytesFree s' = bufBytesFree s + pendingBytes (bufBlockList s).
Proof.
  intros Hs Hne Hcompact.
  pose proof (compactBuf_all_live _ _ Hcompact Hne) as Hlive.
  unfold compactBuf in Hcompact. apply Z.eqb_neq in Hne.
  rewrite Hne in Hcompact.
  apply bind_Ok in Hcompact as (s1 & Hloop & H). injection H as <-.
  pose proof (compactLoop_list _ _ _ Hloop) as Hlist.
  pose proof (compactLoop_free _ _ _ Hs Hloop) as Hfree.
  pose proof (compactLoop_space _ _ _ Hs Hloop) as (_ & Hsz & _).
  rewrite firstn_all in Hlist, Hfree. rewrite drop_all, app_nil_r in Hlist.
  assert (Hupd : bufBlockList (updateBufBlockList s1)
    = updateBlocks (bufSize s1) (bufStart s1) (unmarked (bufBlockList s))).
  { simpl. rewrite Hlist. reflexivity. }
  split; [exact Hupd|]. split.
  { rewrite Hupd. apply same_block_updateBlocks. }
  split; [exact Hlive|]. split; [|simpl; auto].
  intros key. simpl. rewrite (compactLoop_map _ _ _ key Hloop), firstn_all.
  reflexivity.
Qed.

Lemma compactBuf_drops_marked_witness :
  compactBuf one_pending = Ok drained ∧
  bufBlockList drained = [] ∧
  blockMap drained !! 3 = None ∧
  bufBytesFree drained = bufBytesFree one_pending + 9.
Proof.
  assert (Hspace : space_ok one_pending).
  { unfold space_ok, allBytes. simpl. repeat split; try lia.
    repeat constructor. simpl. lia. }
  assert (Hne : bufBytesDeletePending one_pending ≠ 0) by (simpl; lia).
  assert (Hcompact : compactBuf one_pending = Ok drained)
    by (vm_compute; reflexivity).
  destruct (compactBuf_drops_marked one_pending drained Hspace Hne Hcompact)
    as (Hlist & _ & _ & Hmap & _ & Hfree).
  split; [exact Hcompact|]. split; [exact Hlist|].
  split; [rewrite Hmap; reflexivity|exact Hfree].
Defined.

(** X6.  As long as no marked key is deleted again, the stats that
    [setBufInfo] reports are exact: used is the bytes of the linked,
    unmarked blocks, free is the capacity minus used. *)
Theorem stats_are_exact (bufSz : Z) (alloc : option (list byte))
    (ops : list Op) (s : CircularBuffer) :
  0 <= bufSz < 2 ^ 64 →
  deletes_once ops (initBuf bufSz alloc) →
  exec ops (initBuf bufSz alloc) = Ok s →
  setBufInfo s
  = mkBufInfo (bufSize s) (bufSize s - usedBytes s) (usedBytes s) ∧
  0 <= usedBytes s <= bufSize s.
Proof.
  intros Hsz Honce Hexec.
  pose proof (exec_counted ops _ s (initBuf_counted bufSz alloc Hsz)
                Honce Hexec) as (Hfree & Hsize & Hall & Hpend & Hacc).
  unfold accounting, usedBytes in *.
  pose proof (sumZ_nonneg _ _ (liveSize_nonneg _ Hall)) as Hlive.
  pose proof (sumZ_nonneg _ _ (pendingSize_nonneg _ Hall)) as Hmarked.
  fold (pendingBytes (bufBlockList s)) in Hmarked.
  fold (liveBytes (bufBlockList s)) in Hlive.
  split; [|lia]. unfold setBufInfo.
  rewrite (wrap_small (bufBytesFree s + _)) by lia.
  rewrite (wrap_small (bufSize s - _)) by lia.
  rewrite wrap_small by lia. f_equal; lia.
Qed.

Lemma stats_are_exact_witness :
  ∃ s,
    exec [Add 3 msg3; Add 4 msg4; Delete 3] (CircularBuffer_new 18) = Ok s ∧
    setBufInfo s = mkBufInfo 18 9 9.
Proof.
  eexists. split; [vm_compute; reflexivity|].
  refine (proj1 (stats_are_exact 18 (Some (replicate 18 "."%byte))
                   [Add 3 msg3; Add 4 msg4; Delete 3] _ _ _ _)).
  - lia.
  - repeat match goal with
    | |- deletes_once [] _ => exact I
    | |- deletes_once (_ :: _) _ =>
        split;
        [ try exact I;
          let Hkey := fresh in
          let Hfind := fresh in
          intros ? ? ? Hkey Hfind;
          vm_compute in Hkey; injection Hkey as <-;
          vm_compute in Hfind; injection Hfind as <- <-; reflexivity
        | let H := fresh in
          intros ? ? H; vm_compute in H; injection H as <- <- ]
    end.
  - vm_compute. reflexivity.
Defined.

(** * A buffer that has only seen Add *)

Lemma bytesOf_snoc (adds : list (Z * list byte)) (key : Z) (data : list byte) :
  bytesOf (adds ++ [(key, data)]) = bytesOf adds ++ data.
Proof.
  unfold bytesOf. rewrite fmap_app, concat_app. simpl.
  rewrite app_nil_r. reflexivity.
Qed.

Lemma sizeOf_snoc (adds : list (Z * list byte)) (key : Z) (data : list byte) :
  sizeOf (adds ++ [(key, data)]) = sizeOf adds + Z.of_nat (length data).
Proof. unfold sizeOf. rewrite bytesOf_snoc, length_app. lia. Qed.

Lemma sizeOf_cons (adds : list (Z * list byte)) (key : Z) (data : list byte) :
  sizeOf ((key, data) :: adds) = Z.of_nat (length data) + sizeOf adds.
Proof.
  unfold sizeOf, bytesOf. rewrite fmap_cons. simpl concat.
  rewrite length_app. lia.
Qed.

Lemma sizeOf_nonneg (adds : list (Z * list byte)) : 0 <= sizeOf adds.
Proof. unfold sizeOf. lia. Qed.

Lemma blocksFrom_snoc (bufSz : Z) (addr : N) (t : Z)
    (adds : list (Z * list byte)) (key : Z) (data : list byte) :
  blocksFrom bufSz addr t (adds ++ [(key, data)])
  = blocksFrom bufSz addr t adds ++
    [mkBufBlock (addr + N.of_nat (length adds))
       (endAfter bufSz (t + sizeOf adds)) key
       (Z.of_nat (length data)) false].
Proof.
  revert addr t. induction adds as [|[k d] adds IH]; intros addr t; simpl.
  - unfold sizeOf. simpl. rewrite N.add_0_r, Z.add_0_r. reflexivity.
  - rewrite IH, sizeOf_cons, Z.add_assoc.
    replace (N.succ addr + N.of_nat (length adds))%N
      with (addr + N.of_nat (S (length adds)))%N by lia.
    reflexivity.
Qed.

Lemma mapFrom_snoc (addr : N) (adds : list (Z * list byte)) (m : gmap Z N)
    (key : Z) (data : list byte) :
  mapFrom addr (adds ++ [(key, data)]) m
  = <[key := (addr + N.of_nat (length adds))%N]> (mapFrom addr adds m).
Proof.
  revert addr m. induction adds as [|[k d] adds IH]; intros addr m; simpl.
  - rewrite N.add_0_r. reflexivity.
  - rewrite IH.
    replace (N.succ addr + N.of_nat (length adds))%N
      with (addr + N.of_nat (S (length adds)))%N by lia.
    reflexivity.
Qed.

Lemma mapFrom_is_Some (addr : N) (adds : list (Z * list byte))
    (m : gmap Z N) (key : Z) :
  is_Some (mapFrom addr adds m !! key) ↔ key ∈ adds.*1 ∨ is_Some (m !! key).
Proof.
  revert addr m. induction adds as [|[k d] adds IH]; intros addr m; simpl.
  - rewrite elem_of_nil. tauto.
  - rewrite IH, elem_of_cons, lookup_insert_is_Some.
    destruct (decide (k = key)); intuition congruence.
Qed.

Lemma blocksFrom_all_live (bufSz : Z) (addr : N) (t : Z)
    (adds : list (Z * list byte)) :
  all_live (blocksFrom bufSz addr t adds).
Proof.
  revert addr t. induction adds as [|[k d] adds IH]; intros addr t; simpl;
    constructor; [reflexivity|apply IH].
Qed.

Lemma packed_buf_length (bufSz : Z) (alloc : list byte)
    (adds : list (Z * list byte)) :
  Z.of_nat (length alloc) = bufSz → sizeOf adds <= bufSz →
  Z.of_nat (length (buf (packed bufSz alloc adds))) = bufSz.
Proof.
  unfold sizeOf. intros Hlen Hfit. simpl.
  rewrite length_app, length_drop. lia.
Qed.

(** Projections of updated records. *)
Ltac fields :=
  unfold set_buf, set_bufStart, set_bufEnd, set_bufBytesFree,
    set_bufBytesDeletePending, set_bufBlockList, set_blockMap,
    set_nextBlock;
  cbn [buf bufSize bufStart bufEnd bufBytesFree bufBytesDeletePending
       bufBlockList blockMap nextBlock mbind result_bind andb negb
       ResultCode_eqb].

Lemma leb_true (a b : Z) : a <= b → (a <=? b) = true.
Proof. apply Z.leb_le. Qed.

Lemma leb_false (a b : Z) : b < a → (a <=? b) = false.
Proof. apply Z.leb_gt. Qed.

Lemma ltb_true (a b : Z) : a < b → (a <? b) = true.
Proof. apply Z.ltb_lt. Qed.

Lemma ltb_false (a b : Z) : b <= a → (a <? b) = false.
Proof. apply Z.ltb_ge. Qed.

(** [appendBlockToBuf] when the occupied bytes are the first [t] bytes
    of the region and the data fits behind them: no compaction, no
    split, the data lands at offset [t]. *)
Lemma appendBlockToBuf_flat (s : CircularBuffer) (t : Z) (data : list byte) :
  bufStart s = 0 →
  bufEnd s = endAfter (bufSize s) t →
  bufBytesFree s = bufSize s - t →
  Z.of_nat (length (buf s)) = bufSize s →
  0 <= t → bufSize s < 2 ^ 64 →
  t + Z.of_nat (length data) <= bufSize s →
  appendBlockToBuf data s
  = Ok (RC_SUCCESS,
        set_bufBytesFree (bufSize s - (t + Z.of_nat (length data)))
          (set_bufEnd (endAfter (bufSize s) (t + Z.of_nat (length data)))
             (set_buf (take (Z.to_nat t) (buf s) ++ data ++
                       drop (Z.to_nat (t + Z.of_nat (length data))) (buf s))
                s))).
Proof.
  destruct s as [m sz st en fr pe li ma ne]. fields.
  intros -> -> -> Hm Ht Hsz Hfit.
  unfold appendBlockToBuf, checkSize, bufLastPlusOne, endAfter. fields.
  rewrite (leb_true (Z.of_nat (length data))) by lia. fields.
  destruct (Z.leb_spec sz t) as [Hfull|Hroom].
  - assert (Hdata : data = []).
    { destruct data; [reflexivity|]. simpl in Hfit. lia. }
    subst data. assert (t = sz) as -> by lia.
    change (Z.of_nat (length (@nil byte))) with 0.
    change (0 <? 0) with false. fields.
    unfold store. rewrite Hm.
    change (Z.of_nat (length (@nil byte))) with 0.
    rewrite !Z.add_0_r.
    change (0 <=? 0) with true. rewrite (leb_true 0 sz) by lia.
    fields. rewrite (leb_true sz sz) by lia.
    change (Z.to_nat 0) with 0%nat. rewrite take_0, drop_0.
    simpl app. rewrite take_drop.
    destruct (sz <=? 0); fields;
      rewrite Z.sub_0_r, Z.sub_diag, wrap_small by lia; reflexivity.
  - rewrite (ltb_false (wrap (sz - t))) by (rewrite wrap_small by lia; lia).
    rewrite andb_false_r. fields.
    unfold store. rewrite Hm.
    rewrite (leb_true 0 t), (leb_true (t + Z.of_nat (length data)) sz) by lia.
    fields.
    destruct (sz <=? t + Z.of_nat (length data)); fields;
      rewrite wrap_small by lia; do 3 f_equal; lia.
Qed.

Lemma packed_nil (bufSz : Z) (alloc : list byte) :
  packed bufSz alloc [] = initBuf bufSz (Some alloc).
Proof.
  unfold packed, initBuf, endAfter, sizeOf, bytesOf. simpl.
  rewrite Z.sub_0_r. change (Z.of_nat 0) with 0.
  destruct (bufSz <=? 0); reflexivity.
Qed.

Lemma packed_key_None (bufSz : Z) (alloc : list byte)
    (adds : list (Z * list byte)) (key : Z) :
  key ∉ adds.*1 → blockMap (packed bufSz alloc adds) !! key = None.
Proof.
  intros Hnew. apply eq_None_not_Some. simpl.
  rewrite mapFrom_is_Some, lookup_empty. intros [Hin|[? [=]]]. auto.
Qed.

(** An [Add] that is accepted. *)
Lemma addBlockToBuf_packed (bufSz : Z) (alloc : list byte)
    (adds : list (Z * list byte)) (key : Z) (data : list byte) :
  Z.of_nat (length alloc) = bufSz → bufSz < 2 ^ 64 →
  key ∉ adds.*1 →
  sizeOf adds + Z.of_nat (length data) <= bufSz →
  addBlockToBuf key data (packed bufSz alloc adds)
  = Ok (RC_SUCCESS,
        setBufInfo (packed bufSz alloc (adds ++ [(key, data)])),
        packed bufSz alloc (adds ++ [(key, data)])).
Proof.
  intros Hlen Hsz Hnew Hfit.
  pose proof (sizeOf_nonneg adds) as Hnn.
  pose proof (packed_key_None bufSz alloc adds key Hnew) as Hkey.
  unfold addBlockToBuf, findBlockInMap. rewrite Hkey.
  unfold addNewBlock.
  rewrite (appendBlockToBuf_flat _ (sizeOf adds));
    try reflexivity; try assumption;
    [|exact (packed_buf_length bufSz alloc adds Hlen ltac:(lia))].
  fields. unfold addBlockToMap. fields.
  change (mapFrom 1 adds ∅) with (blockMap (packed bufSz alloc adds)).
  rewrite Hkey.
  assert (Hstate :
    {| buf := take (Z.to_nat (sizeOf adds)) (buf (packed bufSz alloc adds)) ++
              data ++
              drop (Z.to_nat (sizeOf adds + Z.of_nat (length data)))
                (buf (packed bufSz alloc adds));
       bufSize := bufSz;
       bufStart := 0;
       bufEnd := endAfter bufSz (sizeOf adds + Z.of_nat (length data));
       bufBytesFree := bufSz - (sizeOf adds + Z.of_nat (length data));
       bufBytesDeletePending := 0;
       bufBlockList :=
         blocksFrom bufSz 1 0 adds ++
         [mkBufBlock (1 + N.of_nat (length adds))
            (endAfter bufSz (sizeOf adds)) key
            (Z.of_nat (length data)) false];
       blockMap := <[key := (1 + N.of_nat (length adds))%N]>
                     (blockMap (packed bufSz alloc adds));
       nextBlock := N.succ (1 + N.of_nat (length adds)) |}
    = packed bufSz alloc (adds ++ [(key, data)])).
  { unfold packed. rewrite blocksFrom_snoc, mapFrom_snoc, sizeOf_snoc.
    rewrite bytesOf_snoc, Z.add_0_l, length_app.
    f_equal; [|rewrite length_app; simpl; lia].
    simpl buf. unfold sizeOf. rewrite <- Nat2Z.inj_add, !Nat2Z.id.
    rewrite take_app_length, drop_app_add', drop_drop by reflexivity.
    rewrite <- app_assoc. reflexivity. }
  simpl packed at 1 2 3 4. cbv zeta.
  rewrite <- Hstate. reflexivity.
Qed.

(** An [Add] whose key is already there. *)
Lemma addBlockToBuf_packed_duplicate (bufSz : Z) (alloc : list byte)
    (adds : list (Z * list byte)) (key : Z) (data : list byte) :
  linked (packed bufSz alloc adds) →
  key ∈ adds.*1 →
  addBlockToBuf key data (packed bufSz alloc adds)
  = Ok (RC_BLOCK_ADD_FAILED_DUPLICATE,
        setBufInfo (packed bufSz alloc adds), packed bufSz alloc adds).
Proof.
  intros [Hmap _] Hin.
  assert (Hsome : is_Some (blockMap (packed bufSz alloc adds) !! key)).
  { simpl. apply mapFrom_is_Some. left. exact Hin. }
  destruct Hsome as [p Hkey].
  destruct (Hmap key p Hkey) as (i & b & Hfind & _).
  unfold addBlockToBuf, findBlockInMap.
  rewrite Hkey, Hfind. cbn [or_undef mbind result_bind].
  apply findBlock_lookup in Hfind.
  pose proof (blocksFrom_all_live bufSz 1 0 adds) as Hlive.
  unfold all_live in Hlive. rewrite Forall_lookup in Hlive.
  rewrite (Hlive i b Hfind). reflexivity.
Qed.

(** An [Add] whose data does not fit any more. *)
Lemma addBlockToBuf_packed_full (bufSz : Z) (alloc : list byte)
    (adds : list (Z * list byte)) (key : Z) (data : list byte) :
  bufSz < 2 ^ 64 → sizeOf adds <= bufSz →
  key ∉ adds.*1 →
  bufSz < sizeOf adds + Z.of_nat (length data) →
  addBlockToBuf key data (packed bufSz alloc adds)
  = Ok (RC_BLOCK_SIZE_EXCEEDS_FREE_SPACE,
        setBufInfo (packed bufSz alloc adds), packed bufSz alloc adds).
Proof.
  intros Hsz Hfit Hnew Hbig.
  pose proof (sizeOf_nonneg adds) as Hnn.
  unfold addBlockToBuf, findBlockInMap.
  rewrite (packed_key_None _ _ _ _ Hnew).
  unfold addNewBlock, appendBlockToBuf, checkSize.
  change (bufBytesFree (packed bufSz alloc adds)) with (bufSz - sizeOf adds).
  change (bufBytesDeletePending (packed bufSz alloc adds)) with 0.
  rewrite leb_false by lia.
  rewrite Z.add_0_r, wrap_small, ltb_true by lia.
  reflexivity.
Qed.

Lemma accept_Forall (P : Z * list byte → Prop) (bufSz : Z)
    (done adds : list (Z * list byte)) :
  Forall P done → Forall P adds → Forall P (accept bufSz done adds).
Proof.
  intros Hdone Hadds. revert done Hdone.
  induction Hadds as [|[k d] adds Hkd _ IH]; intros done Hdone; simpl.
  - exact Hdone.
  - destruct (decide _); [auto|].
    destruct (_ <=? bufSz); [|auto].
    apply IH. apply Forall_app. split; [exact Hdone|]. repeat constructor.
    exact Hkd.
Qed.

(** The calls [Add] one after the other. *)
Lemma run_addCalls (bufSz : Z) (alloc : list byte)
    (adds done : list (Z * list byte)) :
  Z.of_nat (length alloc) = bufSz → bufSz < 2 ^ 64 →
  linked (packed bufSz alloc done) → sizeOf done <= bufSz →
  ∃ rs,
    run (addCalls adds) (packed bufSz alloc done)
    = Ok (rs, packed bufSz alloc (accept bufSz done adds)) ∧
    codes (Ok (rs, packed bufSz alloc (accept bufSz done adds)))
    = acceptCodes bufSz done adds ∧
    printed (Ok (rs, packed bufSz alloc (accept bufSz done adds))) = [] ∧
    sizeOf (accept bufSz done adds) <= bufSz.
Proof.
  intros Hlen Hsz. revert done.
  induction adds as [|[k d] adds IH]; intros done Hlinked Hfit; simpl.
  - exists []. auto.
  - destruct (decide (k ∈ done.*1)) as [Hin|Hnew].
    + rewrite (addBlockToBuf_packed_duplicate _ _ _ _ _ Hlinked Hin).
      cbn [mbind result_bind].
      destruct (IH done Hlinked Hfit) as (rs & -> & Hcodes & Hout & Hle).
      eexists. split; [reflexivity|].
           unfold codes, printed in *. cbn [omap list_omap].
      rewrite Hcodes, Hout. auto.
    + destruct (Z.leb_spec (sizeOf done + Z.of_nat (length d)) bufSz)
        as [Hroom|Hfull].
      * pose proof (addBlockToBuf_packed _ _ _ _ _ Hlen Hsz Hnew Hroom)
          as Hadd.
        rewrite Hadd. cbn [mbind result_bind].
        destruct (IH (done ++ [(k, d)])) as (rs & -> & Hcodes & Hout & Hle).
        -- eapply addBlockToBuf_linked; eassumption.
        -- rewrite sizeOf_snoc. exact Hroom.
        -- eexists. split; [reflexivity|].
           unfold codes, printed in *. cbn [omap list_omap].
           rewrite Hcodes, Hout. auto.
      * rewrite (addBlockToBuf_packed_full _ _ _ _ _ Hsz Hfit Hnew Hfull).
        cbn [mbind result_bind].
        destruct (IH done Hlinked Hfit) as (rs & -> & Hcodes & Hout & Hle).
        eexists. split; [reflexivity|].
           unfold codes, printed in *. cbn [omap list_omap].
        rewrite Hcodes, Hout. auto.
Qed.

(** [printBuf] of a buffer that has only seen [Add]. *)
Lemma printBuf_packed (bufSz : Z) (alloc : list byte)
    (adds : list (Z * list byte)) :
  Z.of_nat (length alloc) = bufSz → bufSz < 2 ^ 31 →
  sizeOf adds <= bufSz →
  Forall (λ b, b ≠ x00) (bytesOf adds) →
  printBuf (packed bufSz alloc adds)
  = Ok (bytesOf adds, packed bufSz alloc adds).
Proof.
  intros Hlen Hsz Hfit Hnul.
  pose proof (sizeOf_nonneg adds) as Hnn.
  assert (Hpow : 2 ^ 31 < 2 ^ 64) by reflexivity.
  unfold printBuf, compactBuf.
  change (bufBytesDeletePending (packed bufSz alloc adds)) with 0.
  change (0 =? 0) with true. cbn [mbind result_bind].
  unfold bufLastPlusOne.
  change (bufSize (packed bufSz alloc adds)) with bufSz.
  change (bufStart (packed bufSz alloc adds)) with 0.
  change (bufBytesFree (packed bufSz alloc adds)) with (bufSz - sizeOf adds).
  replace (bufSz - (bufSz - sizeOf adds)) with (sizeOf adds) by lia.
  rewrite Z.sub_0_r, !wrap_small by lia.
  rewrite leb_true, to_int_small by lia.
  unfold printf_s.
  change (0 <=? 0) with true.
  rewrite (leb_true 0) by lia. rewrite ltb_false by lia.
  cbn [andb]. change (Z.to_nat 0) with 0%nat. rewrite drop_0.
  unfold sizeOf. rewrite Nat2Z.id. simpl buf.
  rewrite print_s_all by exact Hnul. reflexivity.
Qed.

Lemma run_app (ops1 ops2 : list Op) (s : CircularBuffer) :
  run (ops1 ++ ops2) s
  = '(rs1, s1) ← run ops1 s;
    '(rs2, s2) ← run ops2 s1;
    Ok (rs1 ++ rs2, s2).
Proof.
  revert s. induction ops1 as [|o ops1 IH]; intros s; simpl.
  - destruct (run ops2 s) as [[rs2 s2]|u]; reflexivity.
  - destruct (step o s) as [[r s1]|u]; [|reflexivity]. simpl.
    rewrite IH. destruct (run ops1 s1) as [[rs1 s1']|u]; [|reflexivity].
    simpl. destruct (run ops2 s1') as [[rs2 s2]|u]; reflexivity.
Qed.

Lemma bytesOf_nul_free (adds : list (Z * list byte)) :
  Forall (λ kd, Forall (λ b, b ≠ x00) kd.2) adds →
  Forall (λ b, b ≠ x00) (bytesOf adds).
Proof.
  unfold bytesOf. induction 1 as [|[k d] adds Hd _ IH]; simpl.
  - constructor.
  - apply Forall_app. auto.
Qed.

(** X7.  Calls of [Add] alone on a fresh buffer: a call is refused as
    duplicate when its key was accepted before, refused for its size
    when its data does not fit behind the data accepted before, and
    accepted otherwise; [printBuf] after them prints the accepted data
    in the order of the calls (data without NUL bytes, at which
    [printf] would stop). *)
Theorem adds_then_dump (bufSz : Z) (alloc : list byte)
    (adds : list (Z * list byte)) :
  Z.of_nat (length alloc) = bufSz →
  bufSz < 2 ^ 31 →
  Forall (λ kd, Forall (λ b, b ≠ x00) kd.2) adds →
  let r := run (addCalls adds ++ [Dump]) (initBuf bufSz (Some alloc)) in
  codes r = acceptCodes bufSz [] adds ∧
  printed r = [bytesOf (accept bufSz [] adds)].
Proof.
  intros Hlen Hsz Hnul r. subst r.
  assert (Hpow : 2 ^ 31 < 2 ^ 64) by reflexivity.
  rewrite run_app, <- packed_nil.
  destruct (run_addCalls bufSz alloc adds [] Hlen ltac:(lia))
    as (rs & -> & Hcodes & Hout & Hfit).
  - rewrite packed_nil. apply initBuf_linked.
  - unfold sizeOf. simpl. lia.
  - cbn [mbind result_bind]. unfold run, step.
    rewrite printBuf_packed; auto.
    + cbn [mbind result_bind]. unfold codes, printed in *.
      rewrite !omap_app, Hcodes, Hout. simpl. rewrite app_nil_r.
      split; reflexivity.
    + apply bytesOf_nul_free. apply accept_Forall; [constructor|exact Hnul].
Qed.

Lemma adds_then_dump_witness :
  let r := run [Add 1 msg1; Add 2 msg2; Add 1 msg3; Add 4 (letters 26);
                Add 5 msg5; Dump] (CircularBuffer_new 30) in
  codes r = [RC_SUCCESS; RC_SUCCESS; RC_BLOCK_ADD_FAILED_DUPLICATE;
             RC_BLOCK_SIZE_EXCEEDS_FREE_SPACE; RC_SUCCESS] ∧
  printed r = [msg1 ++ msg2 ++ msg5].
Proof.
  apply (adds_then_dump 30 (replicate 30 "."%byte)
           [(1, msg1); (2, msg2); (1, msg3); (4, letters 26); (5, msg5)]).
  - reflexivity.
  - reflexivity.
  - repeat constructor; discriminate.
Defined.

(** * One block deleted from a buffer that has only seen Add *)


(** [printf] with a precision reads no further than the precision. *)
Lemma print_s_take (n : nat) (l out : list byte) :
  take n l = out → length out = n →
  Forall (λ b, b ≠ x00) out →
  print_s n l = Ok out.
Proof.
  intros Htake Hlen Hnul.
  rewrite <- (take_drop n l), Htake, <- Hlen.
  apply print_s_all. exact Hnul.
Qed.






Lemma length_blocksFrom (bufSz : Z) (addr : N) (t : Z)
    (l : list (Z * list byte)) :
  length (blocksFrom bufSz addr t l) = length l.
Proof.
  revert addr t. induction l as [|[key d] l IH]; intros addr t; simpl; auto.
Qed.

Lemma blocksFrom_addr (bufSz : Z) (addr : N) (t : Z)
    (l : list (Z * list byte)) (p : N) :
  (p < addr)%N →
  Forall (λ x, (p < blockAddr x)%N) (blocksFrom bufSz addr t l).
Proof.
  revert addr t. induction l as [|[key d] l IH]; intros addr t Hp; simpl;
    constructor; [exact Hp|apply IH; lia].
Qed.












(** * The doubly linked block list *)

Lemma dseg_app (m : gmap N Ptr.Links) (l1 l2 : list N)
    (pv first last nx : N) :
  Ptr.dseg m (l1 ++ l2) pv first last nx
  ↔ ∃ ml mf, Ptr.dseg m l1 pv first ml mf ∧ Ptr.dseg m l2 ml mf last nx.
Proof.
  revert pv first. induction l1 as [|p l1 IH]; intros pv first; simpl.
  - split.
    + intros H. exists pv, first. auto.
    + intros (ml & mf & [-> ->] & H). exact H.
  - split.
    + intros (-> & Hp & b & Hb & Hpv & H).
      apply IH in H as (ml & mf & H1 & H2).
      exists ml, mf. split; [|exact H2].
      split; [reflexivity|]. split; [exact Hp|]. exists b. auto.
    + intros (ml & mf & (-> & Hp & b & Hb & Hpv & H1) & H2).
      split; [reflexivity|]. split; [exact Hp|]. exists b.
      split; [exact Hb|]. split; [exact Hpv|].
      apply IH. exists ml, mf. auto.
Qed.

Lemma dseg_frame (m m' : gmap N Ptr.Links) (l : list N)
    (pv first last nx : N) :
  (∀ p, p ∈ l → m' !! p = m !! p) →
  Ptr.dseg m l pv first last nx → Ptr.dseg m' l pv first last nx.
Proof.
  revert pv first. induction l as [|p l IH]; intros pv first Hsame; simpl.
  - auto.
  - intros (-> & Hp & b & Hb & Hpv & H).
    split; [reflexivity|]. split; [exact Hp|]. exists b.
    split; [rewrite Hsame by apply list_elem_of_here; exact Hb|].
    split; [exact Hpv|].
    apply IH; [|exact H]. intros q Hq. apply Hsame.
    apply list_elem_of_further. exact Hq.
Qed.

Lemma dseg_nonnull (m : gmap N Ptr.Links) (l : list N)
    (pv first last nx : N) :
  Ptr.dseg m l pv first last nx → 0%N ∉ l.
Proof.
  revert pv first. induction l as [|p l IH]; intros pv first; simpl.
  - intros _. apply not_elem_of_nil.
  - intros (-> & Hp & b & _ & _ & H). apply not_elem_of_cons.
    split; [congruence|]. eapply IH. exact H.
Qed.

Lemma dseg_allocated (m : gmap N Ptr.Links) (l : list N)
    (pv first last nx p : N) :
  Ptr.dseg m l pv first last nx → p ∈ l → is_Some (m !! p).
Proof.
  revert pv first. induction l as [|q l IH]; intros pv first; simpl.
  - intros _ Hin. apply elem_of_nil in Hin. contradiction.
  - intros (-> & _ & b & Hb & _ & H) Hin.
    apply elem_of_cons in Hin as [->|Hin]; [eauto|].
    eapply IH; eauto.
Qed.

Lemma dseg_snoc (m : gmap N Ptr.Links) (l : list N) (q pv first last nx : N) :
  Ptr.dseg m (l ++ [q]) pv first last nx
  ↔ last = q ∧ q ≠ 0%N ∧
    ∃ b, m !! q = Some b ∧ Ptr.next b = nx ∧
         Ptr.dseg m l pv first (Ptr.prev b) q.
Proof.
  rewrite dseg_app. simpl. split.
  - intros (ml & mf & H1 & Hmf & Hq & b & Hb & Hml & Hnx & Hlast).
    subst mf ml last.
    split; [reflexivity|]. split; [exact Hq|]. exists b. auto.
  - intros (Hlast & Hq & b & Hb & Hnx & H1). subst last.
    exists (Ptr.prev b), q. split; [exact H1|].
    split; [reflexivity|]. split; [exact Hq|]. exists b. auto.
Qed.

(** Redirecting the [next] pointer of the last block of a segment. *)
Lemma dseg_set_next (m : gmap N Ptr.Links) (l : list N)
    (q pv first last nx nx' : N) (b : Ptr.Links) :
  q ∉ l → m !! q = Some b →
  Ptr.dseg m (l ++ [q]) pv first last nx →
  Ptr.dseg (<[q := Ptr.mkLinks nx' (Ptr.prev b)]> m) (l ++ [q]) pv first
    last nx'.
Proof.
  intros Hq Hb. rewrite !dseg_snoc.
  intros (-> & Hq0 & b' & Hb' & Hnx & H).
  assert (b' = b) as -> by congruence.
  split; [reflexivity|]. split; [exact Hq0|].
  exists (Ptr.mkLinks nx' (Ptr.prev b)).
  split; [apply lookup_insert_eq|]. split; [reflexivity|].
  simpl. eapply dseg_frame; [|exact H].
  intros p Hp. apply lookup_insert_ne. congruence.
Qed.

(** Redirecting the [prev] pointer of the first block of a segment. *)
Lemma dseg_set_prev (m : gmap N Ptr.Links) (l : list N)
    (q pv pv' first last nx : N) (b : Ptr.Links) :
  q ∉ l → m !! q = Some b →
  Ptr.dseg m (q :: l) pv first last nx →
  Ptr.dseg (<[q := Ptr.mkLinks (Ptr.next b) pv']> m) (q :: l) pv' first
    last nx.
Proof.
  intros Hq Hb. simpl.
  intros (-> & Hq0 & b' & Hb' & Hpv & H).
  assert (b' = b) as -> by congruence.
  split; [reflexivity|]. split; [exact Hq0|].
  exists (Ptr.mkLinks (Ptr.next b) pv').
  split; [apply lookup_insert_eq|]. split; [reflexivity|].
  simpl. eapply dseg_frame; [|exact H].
  intros p Hp. apply lookup_insert_ne. congruence.
Qed.

Lemma dseg_last (m : gmap N Ptr.Links) (l : list N)
    (pv first last nx : N) :
  Ptr.dseg m l pv first last nx → last = default pv (list.last l).
Proof.
  destruct l as [|q l _] using rev_ind.
  - simpl. intros [_ ->]. reflexivity.
  - rewrite dseg_snoc. intros (-> & _). rewrite last_snoc. reflexivity.
Qed.

Lemma dseg_first (m : gmap N Ptr.Links) (l : list N)
    (pv first last nx : N) :
  Ptr.dseg m l pv first last nx → first = default nx (head l).
Proof.
  destruct l as [|q l]; simpl.
  - intros [-> _]. reflexivity.
  - intros (-> & _). reflexivity.
Qed.

Lemma deref_Ok (p : N) (h : Ptr.BlockList) (b : Ptr.Links) :
  p ≠ 0%N → Ptr.blocks h !! p = Some b → Ptr.deref p h = Ok b.
Proof.
  intros Hp Hb. unfold Ptr.deref.
  replace (p =? 0)%N with false by (symmetry; apply N.eqb_neq; exact Hp).
  rewrite Hb. reflexivity.
Qed.

Lemma dseg_ends (m : gmap N Ptr.Links) (l : list N)
    (pv first last nx : N) :
  Ptr.dseg m l pv first last nx → l ≠ [] → first ∈ l ∧ last ∈ l.
Proof.
  intros H Hne. split.
  - destruct l as [|q l]; [contradiction|].
    destruct H as (-> & _). apply list_elem_of_here.
  - destruct l as [|q l _] using rev_ind; [contradiction|].
    apply dseg_snoc in H as (-> & _).
    apply elem_of_app. right. apply list_elem_of_here.
Qed.

Lemma snoc_cases {A : Type} (l : list A) :
  l = [] ∨ ∃ l' x, l = l' ++ [x].
Proof.
  destruct l as [|x l _] using rev_ind; [left; reflexivity|].
  right. exists l, x. reflexivity.
Qed.

Lemma eqb_false (a b : N) : a ≠ b → (a =? b)%N = false.
Proof. apply N.eqb_neq. Qed.

(** [removeBlockFromList] in each of its three cases: the block is the head,
    the tail, or has a block on either side. *)
Lemma removeBlockFromList_links (h : Ptr.BlockList) (l1 l2 : list N)
    (p : N) :
  Ptr.dlist h (l1 ++ p :: l2) →
  ∃ h' lk,
    Ptr.removeBlockFromList p h = Ok h' ∧
    Ptr.dlist h' (l1 ++ l2) ∧
    Ptr.blocks h !! p = Some lk ∧
    Ptr.blocks h' !! p = Some lk ∧
    Ptr.prev lk = default 0%N (last l1) ∧
    Ptr.next lk = default 0%N (head l2) ∧
    ∀ q, q ∉ l1 ++ l2 → Ptr.blocks h' !! q = Ptr.blocks h !! q.
Proof.
  destruct h as [m hd tl]. unfold Ptr.dlist. cbn [Ptr.blocks
    Ptr.bufBlockHead Ptr.bufBlockTail].
  intros [Hnd Hseg].
  apply dseg_app in Hseg as (ml & mf & H1 & H2).
  pose proof H2 as (Hmf & Hp & b & Hb & Hpv & H2').
  subst mf.
  pose proof (dseg_last _ _ _ _ _ _ H1) as Hml.
  pose proof (dseg_first _ _ _ _ _ _ H2') as Hnx.
  apply NoDup_app in Hnd as (Hnd1 & Hdisj & Hnd2).
  pose proof Hnd2 as Hnd2'.
  apply NoDup_cons in Hnd2' as [Hp2 Hnd2'].
  assert (Hp1 : p ∉ l1).
  { intros Hin. apply (Hdisj p Hin). apply list_elem_of_here. }
  unfold Ptr.removeBlockFromList.
  cbn [Ptr.bufBlockHead Ptr.bufBlockTail].
  destruct (snoc_cases l1) as [->|(l1' & r & ->)].
  - (* the block is the head *)
    destruct H1 as [-> ->]. rewrite N.eqb_refl.
    rewrite (deref_Ok p _ b) by assumption.
    cbn [mbind result_bind]. cbn [app last] in *.
    destruct l2 as [|q l2].
    + destruct H2' as [Hn ->]. rewrite Hn. cbn [N.eqb negb].
      exists (Ptr.mkBlockList m 0 0), b.
      split; [reflexivity|]. split; [split; [constructor|split; reflexivity]|].
      repeat split; auto.
    + pose proof H2' as (Hn & Hq & bq & Hbq & Hpq & H3).
      rewrite Hn, (eqb_false q 0 Hq). cbn [negb].
      apply NoDup_cons in Hnd2' as [Hq2 Hnd3].
      assert (Hpq' : p ≠ q).
      { intros ->. apply Hp2. apply list_elem_of_here. }
      unfold Ptr.set_prev, Ptr.set_bufBlockHead.
      rewrite (deref_Ok q _ bq) by assumption.
      cbn [mbind result_bind Ptr.blocks Ptr.bufBlockTail].
      eexists _, b. split; [reflexivity|].
      unfold Ptr.set_blocks.
      cbn [Ptr.blocks Ptr.bufBlockHead Ptr.bufBlockTail].
      split; [split|].
      * constructor; assumption.
      * apply (dseg_set_prev m l2 q p 0 q tl 0 bq Hq2 Hbq).
        rewrite <- Hn at 2. exact H2'.
      * split; [exact Hb|].
        split; [rewrite lookup_insert_ne by congruence; exact Hb|].
        split; [exact Hpv|]. split; [exact Hn|].
        intros x Hx. apply lookup_insert_ne. intros ->. apply Hx.
        apply list_elem_of_here.
  - (* there is a block before it *)
    destruct (dseg_ends _ _ _ _ _ _ H1 ltac:(intros E; destruct l1'; discriminate))
      as [Hhd _].
    rewrite (eqb_false p hd) by (intros ->; contradiction).
    rewrite last_snoc in Hml. simpl in Hml.
    revert Hpv. subst ml. intros Hpv.
    pose proof H1 as H1'.
    apply dseg_snoc in H1' as (_ & Hr & br & Hbr & Hnr & H1').
    apply NoDup_app in Hnd1 as (Hnd1' & Hdisj1 & _).
    assert (Hr1 : r ∉ l1').
    { intros Hin. apply (Hdisj1 r Hin). apply list_elem_of_here. }
    assert (Hpr : p ≠ r).
    { intros ->. apply Hp1. apply elem_of_app. right.
      apply list_elem_of_here. }
    destruct l2 as [|q l2].
    + (* the block is the tail *)
      destruct H2' as [Hn ->]. rewrite N.eqb_refl.
      rewrite (deref_Ok p _ b) by assumption.
      cbn [mbind result_bind]. rewrite Hpv, (eqb_false r 0 Hr).
      cbn [negb]. unfold Ptr.set_next, Ptr.set_bufBlockTail.
      rewrite (deref_Ok r _ br) by assumption.
      cbn [mbind result_bind Ptr.blocks Ptr.bufBlockHead].
      eexists _, b. split; [reflexivity|].
      unfold Ptr.set_blocks.
      cbn [Ptr.blocks Ptr.bufBlockHead Ptr.bufBlockTail].
      rewrite app_nil_r. split; [split|].
      * apply NoDup_app. split; [exact Hnd1'|]. split; [exact Hdisj1|].
        apply NoDup_singleton.
      * apply (dseg_set_next m l1' r 0 hd r p 0 br Hr1 Hbr H1).
      * split; [exact Hb|].
        split; [rewrite lookup_insert_ne by congruence; exact Hb|].
        split; [rewrite last_snoc; exact Hpv|]. split; [exact Hn|].
        intros x Hx. apply lookup_insert_ne. intros ->. apply Hx.
        apply elem_of_app. right. apply list_elem_of_here.
    + (* a block on either side *)
      destruct (dseg_ends _ _ _ _ _ _ H2' ltac:(discriminate)) as [_ Htl].
      rewrite (eqb_false p tl) by (intros ->; contradiction).
      rewrite (deref_Ok p _ b) by assumption.
      cbn [mbind result_bind].
      pose proof H2' as (Hn & Hq & bq & Hbq & Hpq & H3).
      apply NoDup_cons in Hnd2' as [Hq2 Hnd3].
      assert (Hqr : q ≠ r).
      { intros ->. apply (Hdisj r).
        - apply elem_of_app. right. apply list_elem_of_here.
        - apply list_elem_of_further, list_elem_of_here. }
      assert (Hpq' : p ≠ q).
      { intros ->. apply Hp2. apply list_elem_of_here. }
      rewrite Hpv, Hn. unfold Ptr.set_next at 1.
      rewrite (deref_Ok r _ br) by assumption.
      cbn [mbind result_bind Ptr.blocks]. unfold Ptr.set_prev.
      rewrite (deref_Ok q _ bq);
        [|exact Hq|cbn [Ptr.set_blocks Ptr.blocks];
           rewrite lookup_insert_ne by congruence; exact Hbq].
      cbn [mbind result_bind].
      eexists _, b. split; [reflexivity|].
      unfold Ptr.set_blocks.
      cbn [Ptr.blocks Ptr.bufBlockHead Ptr.bufBlockTail].
      split; [split|].
      * apply NoDup_app. split; [apply NoDup_app; split;
          [exact Hnd1'|split; [exact Hdisj1|apply NoDup_singleton]]|].
        split; [|constructor; assumption].
        intros x Hx Hx2. apply (Hdisj x Hx).
        apply list_elem_of_further. exact Hx2.
      * apply dseg_app. exists r, q. split.
        -- eapply dseg_frame;
             [|apply (dseg_set_next m l1' r 0 hd r p q br Hr1 Hbr H1)].
           intros x Hx. apply lookup_insert_ne. intros ->.
           apply (Hdisj x Hx).
           apply list_elem_of_further, list_elem_of_here.
        -- apply (dseg_set_prev _ l2 q p r q tl 0 bq Hq2).
           ++ rewrite lookup_insert_ne by congruence. exact Hbq.
           ++ eapply dseg_frame; [|rewrite <- Hn at 2; exact H2'].
              intros x Hx. apply lookup_insert_ne. intros ->.
              apply (Hdisj x); [|apply list_elem_of_further; exact Hx].
              apply elem_of_app. right. apply list_elem_of_here.
      * split; [exact Hb|].
        split; [rewrite !lookup_insert_ne by congruence; exact Hb|].
        split; [rewrite last_snoc; exact Hpv|]. split; [exact Hn|].
        intros x Hx. rewrite !lookup_insert_ne; [reflexivity| |].
        -- intros ->. apply Hx. apply elem_of_app. left.
           apply elem_of_app. right. apply list_elem_of_here.
        -- intros ->. apply Hx. apply elem_of_app. right.
           apply list_elem_of_here.
Qed.

Lemma linkBlock_links (h : Ptr.BlockList) (l : list N) (p : N) :
  Ptr.dlist h l → p ≠ 0%N → p ∉ l →
  ∃ h',
    Ptr.linkBlock p h = Ok h' ∧
    Ptr.dlist h' (l ++ [p]) ∧
    Ptr.blocks h' !! p = Some (Ptr.mkLinks 0 (default 0%N (last l))) ∧
    ∀ q, q ∉ l ++ [p] → Ptr.blocks h' !! q = Ptr.blocks h !! q.
Proof.
  destruct h as [m hd tl]. unfold Ptr.dlist, Ptr.linkBlock.
  cbn [Ptr.blocks Ptr.bufBlockHead Ptr.bufBlockTail].
  intros [Hnd Hseg] Hp Hnew.
  assert (Hnd' : NoDup (l ++ [p])).
  { apply NoDup_app. split; [exact Hnd|]. split; [|apply NoDup_singleton].
    intros x Hx Hx'. apply list_elem_of_singleton in Hx'. subst x.
    contradiction. }
  unfold Ptr.set_blocks.
  cbn [Ptr.blocks Ptr.bufBlockHead Ptr.bufBlockTail].
  destruct (snoc_cases l) as [->|(l' & r & ->)].
  - destruct Hseg as [-> ->]. cbn [N.eqb negb mbind result_bind].
    unfold Ptr.set_blocks.
    cbn [N.eqb Ptr.blocks Ptr.bufBlockHead Ptr.bufBlockTail].
    eexists. split; [reflexivity|].
    unfold Ptr.set_bufBlockTail, Ptr.set_bufBlockHead.
    cbn [Ptr.blocks Ptr.bufBlockHead Ptr.bufBlockTail app].
    split; [split; [exact Hnd'|]|].
    + split; [reflexivity|]. split; [exact Hp|].
      eexists. split; [apply lookup_insert_eq|]. simpl. auto.
    + split; [apply lookup_insert_eq|].
      intros q Hq. apply lookup_insert_ne. intros ->. apply Hq.
      apply list_elem_of_here.
  - pose proof Hseg as Hseg'.
    apply dseg_snoc in Hseg' as (-> & Hr & br & Hbr & Hnr & H1).
    destruct (dseg_ends _ _ _ _ _ _ Hseg
                ltac:(intros E; destruct l'; discriminate)) as [Hhd _].
    assert (Hhd0 : hd ≠ 0%N).
    { intros ->. exact (dseg_nonnull _ _ _ _ _ _ Hseg Hhd). }
    assert (Hpr : p ≠ r).
    { intros ->. apply Hnew. apply elem_of_app. right.
      apply list_elem_of_here. }
    apply NoDup_app in Hnd as (_ & Hdisj & _).
    assert (Hr1 : r ∉ l').
    { intros Hin. apply (Hdisj r Hin). apply list_elem_of_here. }
    rewrite (eqb_false r 0 Hr). cbn [negb]. unfold Ptr.set_next.
    rewrite (deref_Ok r _ br);
      [|exact Hr|cbn [Ptr.set_blocks Ptr.blocks];
         rewrite lookup_insert_ne by congruence; exact Hbr].
    cbn [mbind result_bind]. unfold Ptr.set_blocks.
    cbn [Ptr.blocks Ptr.bufBlockHead Ptr.bufBlockTail].
    rewrite (eqb_false hd 0 Hhd0).
    eexists. split; [reflexivity|].
    unfold Ptr.set_bufBlockTail.
    cbn [Ptr.blocks Ptr.bufBlockHead Ptr.bufBlockTail].
    split; [split; [exact Hnd'|]|].
    + apply dseg_app. exists r, p. split.
      * apply (dseg_set_next _ l' r 0 hd r 0 p br Hr1).
        -- rewrite lookup_insert_ne by congruence. exact Hbr.
        -- eapply dseg_frame; [|exact Hseg].
           intros x Hx. apply lookup_insert_ne. intros ->. contradiction.
      * split; [reflexivity|]. split; [exact Hp|].
        eexists. split.
        -- rewrite lookup_insert_ne by congruence. apply lookup_insert_eq.
        -- simpl. auto.
    + split.
      * rewrite lookup_insert_ne by congruence.
        rewrite last_snoc. apply lookup_insert_eq.
      * intros q Hq. rewrite !lookup_insert_ne; [reflexivity| |].
        -- intros ->. apply Hq. apply elem_of_app. right.
           apply list_elem_of_here.
        -- intros ->. apply Hq. apply elem_of_app. left.
           apply elem_of_app. right. apply list_elem_of_here.
Qed.

Lemma walk_next (h : Ptr.BlockList) (l : list N) (pv first last : N)
    (fuel : nat) :
  Ptr.dseg (Ptr.blocks h) l pv first last 0 → (length l < fuel)%nat →
  Ptr.walk Ptr.next fuel first h = Some (Ok l).
Proof.
  revert pv first fuel. induction l as [|p l IH]; intros pv first fuel.
  - intros [-> _] Hfuel. destruct fuel; [simpl in Hfuel; lia|].
    reflexivity.
  - intros (-> & Hp & b & Hb & _ & H) Hfuel.
    destruct fuel; [simpl in Hfuel; lia|]. simpl.
    rewrite (eqb_false p 0 Hp), Hb.
    rewrite (IH p (Ptr.next b) fuel H) by (simpl in Hfuel; lia).
    reflexivity.
Qed.

Lemma walk_prev (h : Ptr.BlockList) (l : list N) (first last nx : N)
    (fuel : nat) :
  Ptr.dseg (Ptr.blocks h) l 0 first last nx → (length l < fuel)%nat →
  Ptr.walk Ptr.prev fuel last h = Some (Ok (reverse l)).
Proof.
  revert last nx fuel. induction l as [|q l IH] using rev_ind;
    intros last nx fuel.
  - intros [_ ->] Hfuel. destruct fuel; [simpl in Hfuel; lia|].
    reflexivity.
  - intros H Hfuel. apply dseg_snoc in H as (-> & Hq & b & Hb & _ & H).
    rewrite length_app in Hfuel. simpl in Hfuel.
    destruct fuel; [lia|]. simpl.
    rewrite (eqb_false q 0 Hq), Hb.
    rewrite (IH (Ptr.prev b) q fuel H) by lia.
    rewrite reverse_snoc. reflexivity.
Qed.

(** X9. [removeBlockFromList] on the linked list does what [delete] does on
    the sequence of blocks: for a block of a well-formed list it is defined,
    leaves the well-formed list of the other blocks in their order, and does
    not touch the removed block's own [prev] and [next], which still name
    its former neighbours (null at either end). *)
Theorem removeBlockFromList_unlinks (h : Ptr.BlockList) (s : CircularBuffer)
    (i : nat) (b : BufBlock) :
  Ptr.dlist h (blockAddr <$> bufBlockList s) →
  bufBlockList s !! i = Some b →
  ∃ h' lk,
    Ptr.removeBlockFromList (blockAddr b) h = Ok h' ∧
    Ptr.dlist h' (blockAddr <$> bufBlockList (removeBlockFromList i s)) ∧
    Ptr.blocks h' !! blockAddr b = Some lk ∧
    Ptr.prev lk
    = match i with
      | O => 0%N
      | S j => default 0%N (blockAddr <$> bufBlockList s !! j)
      end ∧
    Ptr.next lk = default 0%N (blockAddr <$> bufBlockList s !! S i).
Proof.
  intros Hwf Hi.
  pose proof (lookup_lt_Some _ _ _ Hi) as Hlt.
  pose proof (take_drop_middle _ _ _ Hi) as Hsplit.
  rewrite <- Hsplit, fmap_app, fmap_cons in Hwf.
  destruct (removeBlockFromList_links h _ _ _ Hwf)
    as (h' & lk & Hrun & Hwf' & _ & Hlk & Hprev & Hnext & _).
  exists h', lk. split; [exact Hrun|].
  split.
  { unfold removeBlockFromList, set_bufBlockList. cbn [bufBlockList].
    rewrite delete_take_drop, fmap_app. exact Hwf'. }
  split; [exact Hlk|]. split.
  - rewrite Hprev, fmap_last, last_lookup, length_take.
    rewrite Nat.min_l by lia.
    destruct i as [|j]; [reflexivity|]. cbn [Nat.pred].
    rewrite lookup_take_lt by lia. reflexivity.
  - rewrite Hnext, head_lookup, list_lookup_fmap, lookup_drop.
    rewrite Nat.add_0_r. reflexivity.
Qed.

Lemma removeBlockFromList_unlinks_witness :
  ∃ h' lk,
    Ptr.removeBlockFromList 2
      (Ptr.mkBlockList
         (<[1%N := Ptr.mkLinks 2 0]>
            (<[2%N := Ptr.mkLinks 3 1]> (<[3%N := Ptr.mkLinks 0 2]> ∅)))
         1 3) = Ok h' ∧
    Ptr.dlist h' [1%N; 3%N] ∧
    Ptr.blocks h' !! 2%N = Some lk ∧
    Ptr.prev lk = 1%N ∧
    Ptr.next lk = 3%N.
Proof.
  apply (removeBlockFromList_unlinks
           (Ptr.mkBlockList
              (<[1%N := Ptr.mkLinks 2 0]>
                 (<[2%N := Ptr.mkLinks 3 1]> (<[3%N := Ptr.mkLinks 0 2]> ∅)))
              1 3)
           (packed 30 (replicate 30 "."%byte)
              [(1, msg1); (2, msg2); (5, msg5)])
           1 (mkBufBlock 2 9 2 9 false)).
  - split.
    + apply (bool_decide_unpack _). vm_compute. exact I.
    + simpl. repeat first [reflexivity | discriminate | split | eexists].
  - reflexivity.
Defined.

(** X10. The linking of a new block in [addBlockToBuf] appends it: for a
    well-formed list and a non-null block that is not in it, the code is
    defined and leaves the well-formed list with the new block last; the
    new block's [prev] is the old tail, and blocks outside the list keep
    their links. *)
Theorem linkBlock_appends (h : Ptr.BlockList) (l : list N) (p : N) :
  Ptr.dlist h l → p ≠ 0%N → p ∉ l →
  ∃ h',
    Ptr.linkBlock p h = Ok h' ∧
    Ptr.dlist h' (l ++ [p]) ∧
    Ptr.bufBlockTail h' = p ∧
    Ptr.blocks h' !! p = Some (Ptr.mkLinks 0 (Ptr.bufBlockTail h)) ∧
    ∀ q, q ∉ l ++ [p] → Ptr.blocks h' !! q = Ptr.blocks h !! q.
Proof.
  intros Hwf Hp Hnew.
  destruct (linkBlock_links h l p Hwf Hp Hnew)
    as (h' & Hrun & Hwf' & Hlk & Hframe).
  exists h'. split; [exact Hrun|]. split; [exact Hwf'|].
  destruct Hwf as [_ Hseg]. destruct Hwf' as [_ Hseg'].
  apply dseg_last in Hseg, Hseg'. rewrite last_snoc in Hseg'.
  split; [exact Hseg'|]. split; [|exact Hframe].
  rewrite Hlk, Hseg. reflexivity.
Qed.

Lemma linkBlock_appends_witness :
  ∃ h',
    Ptr.linkBlock 3
      (Ptr.mkBlockList
         (<[1%N := Ptr.mkLinks 2 0]> (<[2%N := Ptr.mkLinks 0 1]> ∅)) 1 2)
    = Ok h' ∧
    Ptr.dlist h' [1%N; 2%N; 3%N] ∧
    Ptr.bufBlockTail h' = 3%N ∧
    Ptr.blocks h' !! 3%N = Some (Ptr.mkLinks 0 2) ∧
    ∀ q, q ∉ [1%N; 2%N; 3%N] →
         Ptr.blocks h' !! q
         = Ptr.blocks
             (Ptr.mkBlockList
                (<[1%N := Ptr.mkLinks 2 0]> (<[2%N := Ptr.mkLinks 0 1]> ∅))
                1 2) !! q.
Proof.
  apply (linkBlock_appends
           (Ptr.mkBlockList
              (<[1%N := Ptr.mkLinks 2 0]> (<[2%N := Ptr.mkLinks 0 1]> ∅))
              1 2)
           [1%N; 2%N] 3).
  - split.
    + apply (bool_decide_unpack _). vm_compute. exact I.
    + simpl. repeat first [reflexivity | discriminate | split | eexists].
  - discriminate.
  - apply (bool_decide_unpack _). vm_compute. exact I.
Defined.

(** X11. The two loops over the block list end and visit every block once:
    following [next] from [bufBlockHead] of a well-formed list visits the
    blocks in list order, following [prev] from [bufBlockTail] visits them
    in reverse order, and one iteration more than there are blocks reaches
    the null pointer. *)
Theorem walk_visits_all (h : Ptr.BlockList) (l : list N) (fuel : nat) :
  Ptr.dlist h l → (length l < fuel)%nat →
  Ptr.walk Ptr.next fuel (Ptr.bufBlockHead h) h = Some (Ok l) ∧
  Ptr.walk Ptr.prev fuel (Ptr.bufBlockTail h) h = Some (Ok (reverse l)).
Proof.
  intros [_ Hseg] Hfuel. split.
  - eapply walk_next; eauto.
  - eapply walk_prev; eauto.
Qed.

Lemma walk_visits_all_witness :
  Ptr.walk Ptr.next 4 1
    (Ptr.mkBlockList
       (<[1%N := Ptr.mkLinks 2 0]>
          (<[2%N := Ptr.mkLinks 3 1]> (<[3%N := Ptr.mkLinks 0 2]> ∅)))
       1 3) = Some (Ok [1%N; 2%N; 3%N]) ∧
  Ptr.walk Ptr.prev 4 3
    (Ptr.mkBlockList
       (<[1%N := Ptr.mkLinks 2 0]>
          (<[2%N := Ptr.mkLinks 3 1]> (<[3%N := Ptr.mkLinks 0 2]> ∅)))
       1 3) = Some (Ok [3%N; 2%N; 1%N]).
Proof.
  apply (walk_visits_all
           (Ptr.mkBlockList
              (<[1%N := Ptr.mkLinks 2 0]>
                 (<[2%N := Ptr.mkLinks 3 1]> (<[3%N := Ptr.mkLinks 0 2]> ∅)))
              1 3)
           [1%N; 2%N; 3%N] 4).
  - split.
    + apply (bool_decide_unpack _). vm_compute. exact I.
    + simpl. repeat first [reflexivity | discriminate | split | eexists].
  - simpl. lia.
Defined.

(** * The buffer as a ring *)

Lemma printBuf_ring (s : CircularBuffer) :
  bufBytesDeletePending s = 0 →
  Z.of_nat (length (buf s)) = bufSize s →
  bufSize s < 2 ^ 31 →
  0 <= bufStart s <= bufSize s →
  0 <= bufBytesFree s <= bufSize s →
  Forall (λ c, c ≠ x00) (ringBytes s) →
  printBuf s = Ok (ringBytes s, s).
Proof.
  intros Hpend Hlen Hsz Hstart Hfree.
  assert (Hpow : 2 ^ 31 < 2 ^ 64) by reflexivity.
  unfold ringBytes, printBuf, compactBuf, bufLastPlusOne.
  rewrite Hpend. change (0 =? 0) with true. cbn [mbind result_bind].
  destruct s as [m n a e f pe li ma ne]. cbn [buf bufSize bufStart
    bufBytesFree] in *.
  rewrite !wrap_small by lia.
  assert (Hdrop : length (drop (Z.to_nat a) m) = Z.to_nat (n - a)).
  { rewrite length_drop. lia. }
  unfold printf_s.
  destruct (Z.leb_spec (n - f) (n - a)) as [Hle|Hgt].
  - rewrite take_app_le by lia. intros Hnul.
    rewrite to_int_small by lia.
    rewrite !leb_true by lia. rewrite ltb_false by lia. cbn [andb].
    rewrite (print_s_take _ _ (take (Z.to_nat (n - f))
                                  (drop (Z.to_nat a) m))); auto.
    rewrite length_take. lia.
  - rewrite take_app_ge by lia. rewrite Hdrop. intros Hnul.
    apply Forall_app in Hnul as [Hnul1 Hnul2].
    rewrite !to_int_small by lia.
    rewrite !leb_true by lia. rewrite !ltb_false by lia. cbn [andb].
    rewrite (print_s_take (Z.to_nat (n - a)) (drop (Z.to_nat a) m)
               (drop (Z.to_nat a) m)); auto.
    + cbn [mbind result_bind]. change (Z.to_nat 0) with 0%nat.
      rewrite drop_0.
      rewrite take_take in Hnul2 |- *.
      replace (Z.to_nat (n - f) - Z.to_nat (n - a))%nat
        with (Z.to_nat (n - f - (n - a))) in * by lia.
      rewrite Nat.min_l in Hnul2 |- * by lia.
      rewrite (print_s_take (Z.to_nat (n - f - (n - a))) m
                 (take (Z.to_nat (n - f - (n - a))) m)); auto.
      rewrite length_take. lia.
    + apply take_ge. lia.
Qed.

Lemma store_middle (X Y Z' src : list byte) (dst : Z) :
  dst = Z.of_nat (length X) → length src = length Y →
  store dst src (X ++ Y ++ Z') = Ok (X ++ src ++ Z').
Proof.
  intros -> Hlen. unfold store.
  rewrite !length_app.
  rewrite !leb_true by lia. cbn [andb].
  rewrite Nat2Z.id, take_app_length.
  replace (Z.to_nat (Z.of_nat (length X) + Z.of_nat (length src)))
    with (length X + length Y)%nat by lia.
  rewrite drop_app_add', drop_app_length by reflexivity. reflexivity.
Qed.

(** [appendBlockToBuf] when the bytes in use do not pass the end of the
    allocation: [P] is free, [U] in use, [F] free. *)
Lemma appendBlockToBuf_straight (s : CircularBuffer) (P U F C : list byte) :
  let p := Z.of_nat (length P) in
  let u := Z.of_nat (length U) in
  let f := Z.of_nat (length F) in
  let c := Z.of_nat (length C) in
  buf s = P ++ U ++ F →
  bufSize s = p + u + f → 0 < bufSize s < 2 ^ 64 →
  bufStart s = p →
  bufEnd s = endAfter (bufSize s) (p + u) →
  bufBytesFree s = p + f →
  (U = [] → P = []) →
  c <= p + f →
  ∃ s',
    appendBlockToBuf C s = Ok (RC_SUCCESS, s') ∧
    buf s'
    = (if c <=? f then P ++ U ++ C ++ drop (length C) F
       else drop (length F) C ++ drop (length C - length F) P ++ U ++
            take (length F) C) ∧
    bufEnd s' = (p + u + c) mod bufSize s ∧
    bufBytesFree s' = p + f - c ∧
    bufSize s' = bufSize s ∧ bufStart s' = bufStart s ∧
    bufBytesDeletePending s' = bufBytesDeletePending s ∧
    bufBlockList s' = bufBlockList s ∧ blockMap s' = blockMap s ∧
    nextBlock s' = nextBlock s.
Proof.
  intros p u f c.
  assert (Hp : p = Z.of_nat (length P)) by reflexivity.
  assert (Hu : u = Z.of_nat (length U)) by reflexivity.
  assert (Hf : f = Z.of_nat (length F)) by reflexivity.
  assert (Hc' : c = Z.of_nat (length C)) by reflexivity.
  clearbody p u f c.
  destruct s as [m n a e fr pe li ma ne].
  cbn [buf bufSize bufStart bufEnd bufBytesFree bufBytesDeletePending
       bufBlockList blockMap nextBlock].
  intros -> Hn Hsz -> -> -> HU Hc.
  unfold appendBlockToBuf, checkSize, bufLastPlusOne. fields.
  rewrite <- Hc'. rewrite (leb_true c (p + f)) by lia. fields.
  unfold endAfter.
  destruct (Z.leb_spec c f) as [Hcf|Hcf].
  - (* the block fits before the end of the allocation *)
    destruct (Z.leb_spec n (p + u)) as [Hfull|Hroom].
    + (* [F] is empty, and so is the block *)
      assert (length F = 0%nat) as HF by lia.
      assert (length C = 0%nat) as HC by lia.
      destruct F; [|discriminate]. destruct C; [|discriminate].
      rewrite ltb_false by lia. cbn [andb]. fields.
      change (store 0 [] (P ++ U ++ []))
        with (store 0 [] ([] ++ [] ++ P ++ U ++ [])).
      rewrite (store_middle [] [] (P ++ U ++ []) [] 0 eq_refl eq_refl).
      cbn [app].
      rewrite (leb_false n) by (simpl; lia). fields.
      eexists. split; [reflexivity|].
      fields. cbn [take drop app length]. simpl in Hf, Hc'.
      split; [reflexivity|].
      split; [replace (p + u + c) with n by lia;
              rewrite Z.mod_same by lia; reflexivity|].
      split; [rewrite wrap_small by lia; simpl; lia|].
      repeat split; reflexivity.
    + rewrite wrap_small by lia.
      replace ((p <? p + u) && (n - (p + u) <? c)) with false
        by (symmetry; apply andb_false_iff; right; apply Z.ltb_ge; lia).
      fields.
      replace (P ++ U ++ F)
        with ((P ++ U) ++ take (length C) F ++ drop (length C) F)
        by (rewrite take_drop, app_assoc; reflexivity).
      rewrite (store_middle (P ++ U) (take (length C) F) _ C)
        by (rewrite ?length_app, ?length_take; lia).
      rewrite <- Hc'.
      destruct (Z.leb_spec n (p + u + c)) as [Hend|Hend]; fields;
        rewrite wrap_small by lia;
        (eexists; split; [reflexivity|]); fields.
      * split; [rewrite <- app_assoc; reflexivity|].
        split; [replace (p + u + c) with n by lia;
                rewrite Z.mod_same by lia; reflexivity|].
        repeat split; reflexivity.
      * split; [rewrite <- app_assoc; reflexivity|].
        split; [rewrite Z.mod_small by lia; reflexivity|].
        repeat split; reflexivity.
  - (* the block continues at the start of the allocation *)
    assert (HUne : 0 < u).
    { destruct U; [|subst u; simpl; lia].
      rewrite (HU eq_refl) in *. subst p u. simpl in *. lia. }
    destruct (Z.leb_spec n (p + u)) as [Hfull|Hroom].
    + (* [bufEnd] is at the start already *)
      assert (length F = 0%nat) as HF by lia.
      destruct F; [|discriminate].
      rewrite ltb_false by lia. cbn [andb]. fields.
      simpl in Hf.
      replace (P ++ U ++ [])
        with ([] ++ take (length C) P ++ drop (length C) P ++ U)
        by (cbn [app]; rewrite app_assoc, take_drop, app_nil_r;
            reflexivity).
      rewrite (store_middle [] (take (length C) P) _ C 0 eq_refl)
        by (rewrite length_take; lia).
      rewrite <- Hc', (leb_false n) by lia. fields.
      rewrite wrap_small by lia.
      eexists. split; [reflexivity|]. fields.
      cbn [length take drop app]. rewrite Nat.sub_0_r, app_nil_r.
      split; [reflexivity|].
      split; [replace (p + u + c) with (c + 1 * n) by lia;
              rewrite Z.mod_add, Z.mod_small by lia; reflexivity|].
      repeat split; reflexivity.
    + rewrite wrap_small by lia.
      rewrite (ltb_true p) by lia. rewrite (ltb_true (n - (p + u))) by lia.
      cbn [andb]. fields.
      replace (Z.to_nat (n - (p + u))) with (length F) by lia.
      replace (P ++ U ++ F) with ((P ++ U) ++ F ++ [])
        by (rewrite app_nil_r, app_assoc; reflexivity).
      rewrite (store_middle (P ++ U) F [] (take (length F) C))
        by (rewrite ?length_app, ?length_take; lia).
      fields.
      replace ((P ++ U) ++ take (length F) C ++ [])
        with ([] ++ take (length C - length F) P ++
              drop (length C - length F) P ++ U ++ take (length F) C)
        by (cbn [app];
            rewrite app_nil_r, (app_assoc (take _ P)), take_drop, app_assoc;
            reflexivity).
      rewrite (store_middle [] (take (length C - length F) P) _
                 (drop (length F) C) 0 eq_refl)
        by (rewrite length_take, length_drop; lia).
      rewrite length_drop, (leb_false n) by lia. fields.
      rewrite wrap_small by lia.
      eexists. split; [reflexivity|]. fields. cbn [app].
      split; [reflexivity|].
      split; [replace (p + u + c) with ((c - f) + 1 * n) by lia;
              rewrite Z.mod_add, Z.mod_small by lia; lia|].
      split; [lia|].
      repeat split; reflexivity.
Qed.

(** [appendBlockToBuf] when the bytes in use pass the end of the
    allocation: [U2] is their end, [F] is free, [U1] their start. *)
Lemma appendBlockToBuf_around (s : CircularBuffer) (U2 F U1 C : list byte) :
  let u2 := Z.of_nat (length U2) in
  let f := Z.of_nat (length F) in
  let u1 := Z.of_nat (length U1) in
  let c := Z.of_nat (length C) in
  buf s = U2 ++ F ++ U1 →
  bufSize s = u2 + f + u1 → bufSize s < 2 ^ 64 →
  bufStart s = u2 + f →
  bufEnd s = u2 →
  bufBytesFree s = f →
  0 < u1 →
  c <= f →
  ∃ s',
    appendBlockToBuf C s = Ok (RC_SUCCESS, s') ∧
    buf s' = U2 ++ C ++ drop (length C) F ++ U1 ∧
    bufEnd s' = u2 + c ∧
    bufBytesFree s' = f - c ∧
    bufSize s' = bufSize s ∧ bufStart s' = bufStart s ∧
    bufBytesDeletePending s' = bufBytesDeletePending s ∧
    bufBlockList s' = bufBlockList s ∧ blockMap s' = blockMap s ∧
    nextBlock s' = nextBlock s.
Proof.
  intros u2 f u1 c.
  assert (Hu2 : u2 = Z.of_nat (length U2)) by reflexivity.
  assert (Hf : f = Z.of_nat (length F)) by reflexivity.
  assert (Hu1 : u1 = Z.of_nat (length U1)) by reflexivity.
  assert (Hc' : c = Z.of_nat (length C)) by reflexivity.
  clearbody u2 f u1 c.
  destruct s as [m n a e fr pe li ma ne].
  cbn [buf bufSize bufStart bufEnd bufBytesFree bufBytesDeletePending
       bufBlockList blockMap nextBlock].
  intros -> Hn Hsz -> -> -> Hpos Hc.
  unfold appendBlockToBuf, checkSize, bufLastPlusOne. fields.
  rewrite <- Hc'. rewrite (leb_true c f) by lia. fields.
  rewrite (ltb_false (u2 + f)) by lia. cbn [andb]. fields.
  replace (U2 ++ F ++ U1)
    with (U2 ++ take (length C) F ++ drop (length C) F ++ U1)
    by (rewrite (app_assoc (take _ F)), take_drop; reflexivity).
  rewrite (store_middle U2 (take (length C) F) _ C)
    by (rewrite ?length_take; lia).
  rewrite <- Hc', (leb_false n) by lia. fields.
  rewrite wrap_small by lia.
  eexists. split; [reflexivity|]. fields.
  repeat split; reflexivity.
Qed.

Lemma ring_read (X Y W : list byte) (a k : nat) :
  a = length X → k = length Y →
  take k (drop a (X ++ Y ++ W) ++ take a (X ++ Y ++ W)) = Y.
Proof.
  intros -> ->. rewrite drop_app_length, <- app_assoc.
  apply take_app_length.
Qed.

Lemma ring_read_around (Y2 W Y1 : list byte) (a k : nat) :
  a = (length Y2 + length W)%nat → k = (length Y1 + length Y2)%nat →
  take k (drop a (Y2 ++ W ++ Y1) ++ take a (Y2 ++ W ++ Y1)) = Y1 ++ Y2.
Proof.
  intros -> ->. rewrite (app_assoc Y2 W Y1).
  rewrite (drop_app_length' (Y2 ++ W)) by (rewrite length_app; lia).
  rewrite (take_app_length' (Y2 ++ W)) by (rewrite length_app; lia).
  rewrite (app_assoc Y1 Y2 W).
  apply take_app_length'. rewrite length_app. lia.
Qed.

Lemma appendBlockToBuf_ring_state (s : CircularBuffer) (C : list byte) :
  ring_ok s → bufSize s < 2 ^ 64 →
  Z.of_nat (length C) <= bufBytesFree s →
  ∃ s',
    appendBlockToBuf C s = Ok (RC_SUCCESS, s') ∧
    ring_ok s' ∧
    ringBytes s' = ringBytes s ++ C ∧
    bufBytesFree s' = bufBytesFree s - Z.of_nat (length C) ∧
    bufSize s' = bufSize s ∧ bufStart s' = bufStart s ∧
    bufBytesDeletePending s' = bufBytesDeletePending s ∧
    bufBlockList s' = bufBlockList s ∧ blockMap s' = blockMap s ∧
    nextBlock s' = nextBlock s.
Proof.
  intros (Hlen & Ha & Hf & Hempty & He) Hsz Hc.
  set (n := bufSize s) in *. set (a := bufStart s) in *.
  set (f := bufBytesFree s) in *.
  destruct (Z.le_gt_cases (a + (n - f)) n) as [Hstraight|Haround].
  - (* the bytes in use end before the end of the allocation *)
    set (P := take (Z.to_nat a) (buf s)).
    set (U := take (Z.to_nat (n - f)) (drop (Z.to_nat a) (buf s))).
    set (F := drop (Z.to_nat (a + (n - f))) (buf s)).
    assert (Hbuf : buf s = P ++ U ++ F).
    { subst P U F. rewrite <- (take_drop (Z.to_nat a) (buf s)) at 1.
      f_equal.
      rewrite <- (take_drop (Z.to_nat (n - f)) (drop _ (buf s))) at 1.
      f_equal. rewrite drop_drop. f_equal. lia. }
    assert (HP : Z.of_nat (length P) = a).
    { subst P. rewrite length_take. lia. }
    assert (HU : Z.of_nat (length U) = n - f).
    { subst U. rewrite length_take, length_drop. lia. }
    assert (HF : Z.of_nat (length F) = f - a).
    { subst F. rewrite length_drop. lia. }
    destruct (appendBlockToBuf_straight s P U F C)
      as (s' & Hrun & Hbuf' & He' & Hf' & Hn' & Ha' & Hrest);
      fold n a f; try lia; try assumption.
    { rewrite HP, HU. rewrite He. unfold endAfter.
      destruct (Z.leb_spec n (a + (n - f))).
      - replace (a + (n - f)) with n by lia. apply Z.mod_same. lia.
      - apply Z.mod_small. lia. }
    { intros HU0. rewrite HU0 in HU. simpl in HU.
      assert (a = 0) by (apply Hempty; lia).
      apply length_zero_iff_nil. lia. }
    fold n a f in Hf', Hn', Ha'.
    exists s'. split; [exact Hrun|].
    assert (Hlen' : Z.of_nat (length (buf s')) = n).
    { rewrite Hbuf'.
      destruct (Z.leb_spec (Z.of_nat (length C)) (Z.of_nat (length F)));
        rewrite ?length_app, ?length_drop, ?length_take; lia. }
    split; [|split; [|split; [lia|split; [exact Hn'|split;
      [exact Ha'|exact Hrest]]]]].
    + unfold ring_ok. rewrite Hn', Ha', Hf', He'. fold n a f.
      split; [exact Hlen'|]. split; [lia|]. split; [lia|].
      split; [intros; apply Hempty; lia|]. f_equal. lia.
    + unfold ringBytes. rewrite Hn', Ha', Hf', Hbuf'. fold n a f.
      rewrite Hbuf at 1 2.
      rewrite (ring_read P U F) by lia.
      destruct (Z.leb_spec (Z.of_nat (length C)) (Z.of_nat (length F)))
        as [Hfit|Hsplit].
      * rewrite (app_assoc U C).
        apply ring_read; [lia|rewrite length_app; lia].
      * rewrite (ring_read_around (drop (length F) C)
                   (drop (length C - length F) P)
                   (U ++ take (length F) C))
          by (rewrite ?length_app, ?length_drop, ?length_take; lia).
        rewrite <- app_assoc, take_drop. reflexivity.
  - (* the bytes in use pass the end of the allocation *)
    set (e := a + (n - f) - n) in *.
    set (U2 := take (Z.to_nat e) (buf s)).
    set (F := take (Z.to_nat f) (drop (Z.to_nat e) (buf s))).
    set (U1 := drop (Z.to_nat a) (buf s)).
    assert (Hbuf : buf s = U2 ++ F ++ U1).
    { subst U2 F U1. rewrite <- (take_drop (Z.to_nat e) (buf s)) at 1.
      f_equal.
      rewrite <- (take_drop (Z.to_nat f) (drop _ (buf s))) at 1.
      f_equal. rewrite drop_drop. f_equal. lia. }
    assert (HU2 : Z.of_nat (length U2) = e).
    { subst U2. rewrite length_take. lia. }
    assert (HF : Z.of_nat (length F) = f).
    { subst F. rewrite length_take, length_drop. lia. }
    assert (HU1 : Z.of_nat (length U1) = n - a).
    { subst U1. rewrite length_drop. lia. }
    assert (Hend : bufEnd s = e).
    { rewrite He. subst e.
      replace (a + (n - f)) with ((a + (n - f) - n) + 1 * n) at 1 by lia.
      rewrite Z.mod_add, Z.mod_small by lia. reflexivity. }
    destruct (appendBlockToBuf_around s U2 F U1 C)
      as (s' & Hrun & Hbuf' & He' & Hf' & Hn' & Ha' & Hrest);
      fold n a f; try lia; try assumption.
    fold n a f in Hf', Hn', Ha'.
    exists s'. split; [exact Hrun|].
    assert (Hlen' : Z.of_nat (length (buf s')) = n).
    { rewrite Hbuf'. rewrite ?length_app, ?length_drop. lia. }
    split; [|split; [|split; [lia|split; [exact Hn'|split;
      [exact Ha'|exact Hrest]]]]].
    + unfold ring_ok. rewrite Hn', Ha', Hf', He'. fold n a f.
      split; [exact Hlen'|]. split; [lia|]. split; [lia|].
      split; [intros; apply Hempty; lia|].
      replace (a + (n - (Z.of_nat (length F) - Z.of_nat (length C))))
        with ((Z.of_nat (length U2) + Z.of_nat (length C)) + 1 * n) by lia.
      rewrite Z.mod_add, Z.mod_small by lia. reflexivity.
    + unfold ringBytes. rewrite Hn', Ha', Hf', Hbuf'. fold n a f.
      rewrite Hbuf at 1 2.
      rewrite (ring_read_around U2 F U1) by lia.
      rewrite (app_assoc U2 C), <- (app_assoc U1 U2 C).
      apply ring_read_around;
        rewrite ?length_app, ?length_drop; lia.
Qed.



Lemma addBlockToBuf_ring_state (s : CircularBuffer) (key : Z)
    (C : list byte) :
  ring_ok s → bufSize s < 2 ^ 64 →
  blockMap s !! key = None →
  Z.of_nat (length C) <= bufBytesFree s →
  ∃ s',
    addBlockToBuf key C s = Ok (RC_SUCCESS, setBufInfo s', s') ∧
    ring_ok s' ∧
    ringBytes s' = ringBytes s ++ C ∧
    bufBytesFree s' = bufBytesFree s - Z.of_nat (length C) ∧
    bufSize s' = bufSize s ∧ bufStart s' = bufStart s ∧
    bufBytesDeletePending s' = bufBytesDeletePending s ∧
    bufBlockList s'
    = bufBlockList s ++
      [mkBufBlock (nextBlock s) (bufEnd s) key (Z.of_nat (length C)) false] ∧
    blockMap s' = <[key := nextBlock s]> (blockMap s) ∧
    nextBlock s' = N.succ (nextBlock s).
Proof.
  intros Hring Hsz Hkey Hfit.
  destruct (appendBlockToBuf_ring_state s C Hring Hsz Hfit)
    as (s1 & Hrun & Hring1 & Hbytes1 & Hfree1 & Hsz1 & Hst1 & Hpe1 & Hli1
        & Hma1 & Hne1).
  unfold addBlockToBuf, findBlockInMap. rewrite Hkey.
  unfold addNewBlock. rewrite Hrun. cbn [mbind result_bind ResultCode_eqb].
  unfold addBlockToMap. fields. cbn [blockAddr]. rewrite Hma1, Hkey.
  eexists. split; [reflexivity|].
  unfold ring_ok, ringBytes in *. fields.
  rewrite Hli1, Hne1.
  split; [exact Hring1|]. split; [exact Hbytes1|].
  repeat split; assumption.
Qed.

Lemma compactBuf_nothing_pending (s : CircularBuffer) :
  bufBytesDeletePending s = 0 → compactBuf s = Ok s.
Proof. intros H. unfold compactBuf. rewrite H. reflexivity. Qed.

(** Printing compacts first, then reads the ring. *)
Lemma printBuf_after_compactBuf (s s' : CircularBuffer) :
  compactBuf s = Ok s' →
  bufBytesDeletePending s' = 0 →
  ring_ok s' → bufSize s' < 2 ^ 31 →
  Forall (λ c, c ≠ x00) (ringBytes s') →
  printBuf s = Ok (ringBytes s', s').
Proof.
  intros Hcompact Hpend (Hlen & Hstart & Hfree & _) Hsz Hnul.
  assert (Hprint : printBuf s' = Ok (ringBytes s', s')).
  { apply printBuf_ring; auto; lia. }
  apply (printBuf_Ok _ _ _ Hprint). exact Hcompact.
Qed.

Example front_freed_reached :
  exec [Add 1 msg1; Add 2 msg2; Delete 1; Dump] (CircularBuffer_new 20)
  = Ok front_freed.
Proof. vm_compute. reflexivity. Qed.

Example wrapped_reached :
  exec [Add 3 msg3] front_freed = Ok wrapped.
Proof. vm_compute. reflexivity. Qed.

(** X12. With nothing pending, [printBuf] changes nothing and prints the
    bytes in use as a ring: from [bufStart] on, continued at the start of
    the allocation when they pass its end (as long as none of them is a NUL
    byte, where [printf] would stop). *)
Theorem printBuf_reads_ring (s : CircularBuffer) :
  bufBytesDeletePending s = 0 →
  Z.of_nat (length (buf s)) = bufSize s →
  bufSize s < 2 ^ 31 →
  0 <= bufStart s <= bufSize s →
  0 <= bufBytesFree s <= bufSize s →
  Forall (λ c, c ≠ x00) (ringBytes s) →
  printBuf s = Ok (ringBytes s, s).
Proof. apply printBuf_ring. Qed.

Lemma printBuf_reads_ring_witness :
  printBuf wrapped = Ok (msg2 ++ msg3, wrapped).
Proof.
  apply (printBuf_reads_ring wrapped).
  - reflexivity.
  - reflexivity.
  - reflexivity.
  - split; discriminate.
  - split; discriminate.
  - repeat constructor; discriminate.
Defined.

(** X13. [appendBlockToBuf] writes on the ring: in a buffer whose cursors
    describe a ring, a block that fits the free counter is stored right
    behind the bytes in use, split over the end of the allocation when it
    has to be; the cursors describe a ring again, [bufStart] and the block
    list stay, and the free counter drops by the block size. *)
Theorem appendBlockToBuf_ring (s : CircularBuffer) (C : list byte) :
  ring_ok s → bufSize s < 2 ^ 64 →
  Z.of_nat (length C) <= bufBytesFree s →
  ∃ s',
    appendBlockToBuf C s = Ok (RC_SUCCESS, s') ∧
    ring_ok s' ∧
    ringBytes s' = ringBytes s ++ C ∧
    bufBytesFree s' = bufBytesFree s - Z.of_nat (length C) ∧
    bufSize s' = bufSize s ∧ bufStart s' = bufStart s ∧
    bufBytesDeletePending s' = bufBytesDeletePending s ∧
    bufBlockList s' = bufBlockList s ∧ blockMap s' = blockMap s ∧
    nextBlock s' = nextBlock s.
Proof. apply appendBlockToBuf_ring_state. Qed.

Lemma appendBlockToBuf_ring_witness :
  ∃ s',
    appendBlockToBuf msg3 front_freed = Ok (RC_SUCCESS, s') ∧
    ring_ok s' ∧
    ringBytes s' = msg2 ++ msg3 ∧
    bufBytesFree s' = 2 ∧
    bufSize s' = 20 ∧ bufStart s' = 9 ∧
    bufBytesDeletePending s' = 0 ∧
    bufBlockList s' = bufBlockList front_freed ∧
    blockMap s' = blockMap front_freed ∧
    nextBlock s' = nextBlock front_freed.
Proof.
  apply (appendBlockToBuf_ring front_freed msg3).
  - unfold ring_ok. simpl. repeat split; try discriminate; reflexivity.
  - reflexivity.
  - discriminate.
Defined.

(** X14. First in, first out on the ring: in a buffer whose cursors
    describe a ring and that has nothing pending, adding a block under a
    new key that fits the free counter succeeds, and a print after it shows
    what a print before it shows, followed by the new block. *)
Theorem add_then_dump_ring (s : CircularBuffer) (key : Z) (C : list byte) :
  ring_ok s → bufSize s < 2 ^ 31 →
  bufBytesDeletePending s = 0 →
  blockMap s !! key = None →
  Z.of_nat (length C) <= bufBytesFree s →
  Forall (λ c, c ≠ x00) (ringBytes s ++ C) →
  let r := run [Dump; Add key C; Dump] s in
  codes r = [RC_SUCCESS] ∧
  printed r = [ringBytes s; ringBytes s ++ C].
Proof.
  intros Hring Hsz Hpend Hkey Hfit Hnul r. subst r.
  assert (Hpow : 2 ^ 31 < 2 ^ 64) by reflexivity.
  pose proof Hnul as Hnul'. apply Forall_app in Hnul' as [Hnul1 _].
  destruct (addBlockToBuf_ring_state s key C Hring ltac:(lia) Hkey Hfit)
    as (s1 & Hadd & Hring1 & Hbytes1 & _ & Hsz1 & _ & Hpend1 & _).
  unfold run, step.
  rewrite (printBuf_after_compactBuf s s) by
    (auto using compactBuf_nothing_pending).
  cbn [mbind result_bind]. rewrite Hadd. cbn [mbind result_bind].
  rewrite (printBuf_after_compactBuf s1 s1).
  - cbn [mbind result_bind]. rewrite Hbytes1. split; reflexivity.
  - apply compactBuf_nothing_pending. congruence.
  - congruence.
  - exact Hring1.
  - lia.
  - rewrite Hbytes1. exact Hnul.
Qed.

Lemma add_then_dump_ring_witness :
  let r := run [Dump; Add 3 msg3; Dump] front_freed in
  codes r = [RC_SUCCESS] ∧
  printed r = [msg2; msg2 ++ msg3].
Proof.
  apply (add_then_dump_ring front_freed 3 msg3).
  - unfold ring_ok. simpl. repeat split; try discriminate; reflexivity.
  - reflexivity.
  - reflexivity.
  - reflexivity.
  - discriminate.
  - repeat constructor; discriminate.
Defined.

(** * A deleted block's space is used again *)




(** * A block removed in front of a short wrapped tail *)

Example short_wrap_reached :
  exec [Add 1 (letters 9); Add 2 (letters 3); Add 3 (letters 4); Delete 1;
        Dump; Add 4 (letters 6); Delete 3] (CircularBuffer_new 20)
  = Ok short_wrap.
Proof. vm_compute. reflexivity. Qed.

Example short_wrap_Dump :
  run [Dump] short_wrap = Undef OutOfBounds.
Proof. vm_compute. reflexivity. Qed.

Lemma memmove_inside (dst src n : Z) (m : list byte) :
  0 <= dst → 0 <= src → 0 <= n →
  src + n <= Z.of_nat (length m) → dst + n <= Z.of_nat (length m) →
  ∃ m', memmove dst src n m = Ok m' ∧ length m' = length m.
Proof.
  intros Hdst Hsrc Hn Hs Hd. unfold memmove, load, store.
  rewrite !leb_true by lia. cbn [andb mbind result_bind].
  rewrite length_take, length_drop.
  rewrite !leb_true by lia. cbn [andb].
  eexists. split; [reflexivity|].
  rewrite !length_app, length_take, length_take, !length_drop. lia.
Qed.

(** X16. [removeBlockFromBuf] leaves the allocation when the bytes behind
    the removed block pass the end of the allocation by less than the
    block's size: for a block that is neither head nor tail and ends before
    [bufLastPlusOne], with [bufEnd] above [buf] by less than the block size,
    the second move takes [bufLastPlusOne - dst] bytes, more than are left,
    [bytesToMove] wraps below zero, and the last [memmove] runs outside the
    allocation. *)
Theorem removeBlockFromBuf_short_wrap (s : CircularBuffer) (blk blksz : Z)
    (x y : BufBlock) :
  Z.of_nat (length (buf s)) = bufSize s →
  bufSize s < 2 ^ 64 →
  head (bufBlockList s) = Some x → blockInBuf x ≠ blk →
  last (bufBlockList s) = Some y → blockInBuf y ≠ blk →
  0 <= blk → blk + blksz < bufSize s →
  0 < bufEnd s < blksz →
  removeBlockFromBuf blk blksz s = Undef OutOfBounds.
Proof.
  destruct s as [m n st e fr pe li ma ne].
  cbn [buf bufSize bufEnd bufBlockList].
  intros Hlen Hsz Hhead Hx Hlast Hy Hblk Hfit He.
  unfold removeBlockFromBuf, bufLastPlusOne. fields.
  rewrite Hhead. cbn [or_undef mbind result_bind].
  rewrite (leb_false n (blk + blksz)) by lia.
  rewrite (leb_false (blk + blksz) e) by lia.
  rewrite (proj2 (Z.eqb_neq blk (blockInBuf x))) by congruence.
  fields. rewrite Hlast. cbn [or_undef mbind result_bind].
  rewrite (proj2 (Z.eqb_neq blk (blockInBuf y))) by congruence.
  fields. rewrite Z.sub_0_r.
  rewrite (wrap_small (n - (blk + blksz) + e)) by lia.
  rewrite (proj2 (Z.eqb_neq (n - (blk + blksz) + e) 0)) by lia.
  unfold moveBytes, bufLastPlusOne. fields.
  rewrite (ltb_true blk (blk + blksz)) by lia.
  rewrite (wrap_small (n - (blk + blksz))) by lia.
  rewrite (leb_false (n - (blk + blksz) + e)) by lia.
  destruct (memmove_inside blk (blk + blksz) (n - (blk + blksz)) m)
    as (m1 & -> & Hm1); try lia.
  cbn [mbind result_bind].
  replace (n - (blk + blksz) + e - (n - (blk + blksz))) with e by lia.
  rewrite (wrap_small e) by lia.
  replace (n - (blk + (n - (blk + blksz)))) with blksz by lia.
  rewrite (wrap_small blksz) by lia.
  destruct (memmove_inside (blk + (n - (blk + blksz))) 0 blksz m1)
    as (m2 & -> & Hm2); try lia.
  cbn [mbind result_bind].
  unfold memmove, load.
  assert (Hwrap : wrap (e - blksz) = 2 ^ 64 + e - blksz).
  { unfold wrap.
    replace (e - blksz) with ((2 ^ 64 + e - blksz) + (-1) * 2 ^ 64) by lia.
    rewrite Z.mod_add by lia. apply Z.mod_small. lia. }
  rewrite Hwrap.
  rewrite (leb_false (0 + blksz + (2 ^ 64 + e - blksz))) by lia.
  rewrite andb_false_r. reflexivity.
Qed.

Lemma removeBlockFromBuf_short_wrap_witness :
  removeBlockFromBuf 12 4 short_wrap = Undef OutOfBounds.
Proof.
  apply (removeBlockFromBuf_short_wrap short_wrap 12 4
           (mkBufBlock 2 9 2 3 false) (mkBufBlock 4 16 4 6 false)).
  - reflexivity.
  - reflexivity.
  - reflexivity.
  - discriminate.
  - reflexivity.
  - discriminate.
  - discriminate.
  - reflexivity.
  - split; reflexivity.
Defined.

(** * A refused duplicate and the data of its key *)

(** C7.  A second [Add] of a live, unmarked key is refused and changes
    nothing, yet the [Dump] after it need not show the data the key was
    added with.  After [Add], [Delete] and a new [Add] of the only key in a
    buffer of 18 bytes the key's record is the only one, live and unmarked;
    every further [Add] of the key, whatever its block, returns
    [RC_BLOCK_ADD_FAILED_DUPLICATE] with the stats of the unchanged buffer;
    and [printBuf] prints the nine bytes from offset 9, which no call has
    written, not the data of the key, which lies at offset 0. *)
Theorem duplicate_add_dump_unwritten (block : list byte) :
  ∃ s,
    exec [Add 3 msg3; Delete 3; Add 3 msg5] (CircularBuffer_new 18) = Ok s ∧
    reachable s ∧
    blockMap s !! 3 = Some 2%N ∧
    bufBlockList s = [mkBufBlock 2 0 3 9 false] ∧
    buf s = msg5 ++ replicate 9 "."%byte ∧
    addBlockToBuf 3 block s
    = Ok (RC_BLOCK_ADD_FAILED_DUPLICATE, setBufInfo s, s) ∧
    setBufInfo s = mkBufInfo 18 9 9 ∧
    codes (run [Add 3 block; Dump] s) = [RC_BLOCK_ADD_FAILED_DUPLICATE] ∧
    printed (run [Add 3 block; Dump] s) = [replicate 9 "."%byte] ∧
    printed (run [Add 3 block; Dump] s) ≠ [msg5].
Proof.
  eexists. split; [vm_compute; reflexivity|].
  split.
  { exists 18, (replicate 18 "."%byte), [Add 3 msg3; Delete 3; Add 3 msg5].
    split; [reflexivity|]. split; [lia|]. vm_compute. reflexivity. }
  split; [reflexivity|]. split; [reflexivity|]. split; [reflexivity|].
  match goal with
  | |- addBlockToBuf 3 block ?s = _ ∧ _ =>
      destruct (addBlockToBuf_duplicate 3 block 2%N 0%nat
                  (mkBufBlock 2 0 3 9 false) s)
        as (Hadd & Hcodes & Hdump); try reflexivity
  end.
  split; [exact Hadd|]. split; [reflexivity|]. split; [exact Hcodes|].
  rewrite Hdump. split; [vm_compute; reflexivity|].
  vm_compute. discriminate.
Qed.

(** * Two prints in a row *)

(** C9.  Two [Dump]s in a row.  After [Add], [Delete], [Delete] of one key
    in a buffer of 18 bytes the first [printBuf] leaves
    [bufBytesDeletePending] at 9, not at zero, although no block is left;
    the second [printBuf] prints the same (empty) output, and its
    [compactBuf] does not return at the test of the counter; the next
    [Add], of a block of 9 bytes, reports 18 bytes free and none used.
    And in [short_wrap], which calls reach, [printBuf] prints nothing: its
    compaction runs outside the allocation. *)
Theorem dump_twice_residue :
  (∃ s s1,
     exec [Add 3 msg3; Delete 3; Delete 3] (CircularBuffer_new 18) = Ok s ∧
     printBuf s = Ok ([], s1) ∧
     printBuf s1 = Ok ([], s1) ∧
     bufBlockList s1 = [] ∧
     bufBytesDeletePending s1 = 9 ∧
     (bufBytesDeletePending s1 =? 0) = false ∧
     setBufInfo s1 = mkBufInfo 18 27 (2 ^ 64 - 9) ∧
     ∃ s2, addBlockToBuf 4 msg4 s1
           = Ok (RC_SUCCESS, mkBufInfo 18 18 0, s2) ∧
           liveBytes (bufBlockList s2) = 9) ∧
  exec [Add 1 (letters 9); Add 2 (letters 3); Add 3 (letters 4); Delete 1;
        Dump; Add 4 (letters 6); Delete 3] (CircularBuffer_new 20)
  = Ok short_wrap ∧
  printBuf short_wrap = Undef OutOfBounds.
Proof.
  split; [|split; vm_compute; reflexivity].
  eexists. eexists.
  split; [vm_compute; reflexivity|].
  split; [vm_compute; reflexivity|].
  split; [vm_compute; reflexivity|].
  split; [reflexivity|]. split; [reflexivity|]. split; [reflexivity|].
  split; [vm_compute; reflexivity|].
  eexists. split; [vm_compute; reflexivity|]. vm_compute. reflexivity.
Qed.

(** * Blocks longer than the capacity *)

Lemma addNewBlock_oversize (key : Z) (block : list byte)
    (s : CircularBuffer) :
  space_ok s → bufSize s < Z.of_nat (length block) →
  addNewBlock key block s
  = if wrap (bufBytesFree s + bufBytesDeletePending s)
       <? Z.of_nat (length block)
    then Ok (RC_BLOCK_SIZE_EXCEEDS_FREE_SPACE, setBufInfo s, s)
    else s1 ← compactBuf s;
         Ok (RC_BLOCK_SIZE_EXCEEDS_FREE_SPACE, setBufInfo s1, s1).
Proof.
  intros Hs Hbig. pose proof (space_free_le _ Hs) as Hle.
  unfold addNewBlock, appendBlockToBuf, checkSize.
  rewrite (leb_false (Z.of_nat (length block)) (bufBytesFree s)) by lia.
  destruct (_ <? _); [reflexivity|].
  destruct (compactBuf s) as [s1|u] eqn:Hcompact; [|reflexivity].
  destruct (compactBuf_space _ _ Hs Hcompact) as (Hs1 & Hsz1 & _).
  pose proof (space_free_le _ Hs1) as Hle1.
  cbn [mbind result_bind].
  rewrite (leb_false (Z.of_nat (length block)) (bufBytesFree s1)) by lia.
  reflexivity.
Qed.

(** X2.  A block longer than the capacity is never stored.  In a state
    that calls reach from a fresh buffer, [addBlockToBuf] with more than
    [bufSize] bytes either returns [RC_BLOCK_SIZE_EXCEEDS_FREE_SPACE] with
    the stats of the state it leaves, which is the state it found or that
    state compacted, or returns [RC_BLOCK_ADD_FAILED_DUPLICATE] with the
    state as it found it; it has no result when, and only when, the
    compaction it runs has none, and then for the same reason.  For a key
    that is not in the map and a size above the [uint_t] sum
    [bufBytesFree + bufBytesDeletePending] it is refused at once and the
    buffer is left as it is. *)
Theorem oversize_add_never_stored (bufSz : Z) (alloc : option (list byte))
    (ops : list Op) (s : CircularBuffer) (key : Z) (block : list byte) :
  0 <= bufSz < 2 ^ 64 →
  exec ops (initBuf bufSz alloc) = Ok s →
  bufSize s < Z.of_nat (length block) →
  ((∃ rc s',
      addBlockToBuf key block s = Ok (rc, setBufInfo s', s') ∧
      (rc = RC_BLOCK_SIZE_EXCEEDS_FREE_SPACE ∧
       (s' = s ∨ compactBuf s = Ok s') ∨
       rc = RC_BLOCK_ADD_FAILED_DUPLICATE ∧ s' = s)) ∨
   (∃ u, addBlockToBuf key block s = Undef u ∧ compactBuf s = Undef u)) ∧
  (blockMap s !! key = None →
   wrap (bufBytesFree s + bufBytesDeletePending s)
   < Z.of_nat (length block) →
   addBlockToBuf key block s
   = Ok (RC_BLOCK_SIZE_EXCEEDS_FREE_SPACE, setBufInfo s, s)).
Proof.
  intros Hsz Hexec Hbig.
  destruct (exec_space _ _ _ (initBuf_space bufSz alloc Hsz) Hexec)
    as [Hs _].
  pose proof (exec_linked _ _ _ (initBuf_linked bufSz alloc) Hexec)
    as [Hmap _].
  split.
  - unfold addBlockToBuf, findBlockInMap.
    destruct (blockMap s !! key) as [p|] eqn:Hkey.
    + destruct (Hmap key p Hkey) as (i & b & Hfind & _).
      rewrite Hfind. cbn [or_undef mbind result_bind].
      destruct (blockDeletePending b).
      * destruct (compactBuf s) as [s1|u] eqn:Hcompact;
          [|right; exists u; split; reflexivity].
        cbn [mbind result_bind].
        destruct (compactBuf_space _ _ Hs Hcompact) as (Hs1 & Hsz1 & _).
        rewrite (addNewBlock_oversize key block s1 Hs1) by lia.
        rewrite (compactBuf_idem _ _ Hcompact). cbn [mbind result_bind].
        left. exists RC_BLOCK_SIZE_EXCEEDS_FREE_SPACE, s1.
        split; [destruct (_ <? _); reflexivity|]. left. auto.
      * left. exists RC_BLOCK_ADD_FAILED_DUPLICATE, s.
        split; [reflexivity|]. right. auto.
    + rewrite (addNewBlock_oversize key block s Hs Hbig).
      destruct (_ <? _).
      * left. exists RC_BLOCK_SIZE_EXCEEDS_FREE_SPACE, s.
        split; [reflexivity|]. left. auto.
      * destruct (compactBuf s) as [s1|u] eqn:Hcompact.
        -- left. exists RC_BLOCK_SIZE_EXCEEDS_FREE_SPACE, s1.
           split; [reflexivity|]. left. auto.
        -- right. exists u. split; reflexivity.
  - intros Hkey Hover.
    unfold addBlockToBuf, findBlockInMap. rewrite Hkey.
    rewrite (addNewBlock_oversize key block s Hs Hbig).
    rewrite (ltb_true _ _ Hover). reflexivity.
Qed.

Lemma oversize_add_never_stored_witness :
  addBlockToBuf 4 (letters 19) one_live
  = Ok (RC_BLOCK_SIZE_EXCEEDS_FREE_SPACE, setBufInfo one_live, one_live) ∧
  ((∃ rc s',
      addBlockToBuf 3 (letters 19) one_pending
      = Ok (rc, setBufInfo s', s') ∧
      (rc = RC_BLOCK_SIZE_EXCEEDS_FREE_SPACE ∧
       (s' = one_pending ∨ compactBuf one_pending = Ok s') ∨
       rc = RC_BLOCK_ADD_FAILED_DUPLICATE ∧ s' = one_pending)) ∨
   (∃ u, addBlockToBuf 3 (letters 19) one_pending = Undef u ∧
         compactBuf one_pending = Undef u)).
Proof.
  split.
  - apply (oversize_add_never_stored 18 (Some (replicate 18 "."%byte))
             [Add 3 msg3] one_live 4 (letters 19)).
    + split; [discriminate|reflexivity].
    + reflexivity.
    + reflexivity.
    + reflexivity.
    + reflexivity.
  - apply (oversize_add_never_stored 18 (Some (replicate 18 "."%byte))
             [Add 3 msg3; Delete 3] one_pending 3 (letters 19)).
    + split; [discriminate|reflexivity].
    + reflexivity.
    + reflexivity.
Defined.

(** * The map and the list *)

Lemma findBlock_addr (p : N) (l : list BufBlock) (i : nat) (b : BufBlock) :
  findBlock p l = Some (i, b) → blockAddr b = p.
Proof.
  revert i. induction l as [|x l IH]; intros i; simpl; [discriminate|].
  unfold hasAddr at 1. destruct (N.eqb_spec (blockAddr x) p) as [E|E].
  - intros [= _ <-]. exact E.
  - destruct (findBlock p l) as [[j y]|] eqn:Hrec; [|discriminate].
    intros [= _ <-]. eapply IH. reflexivity.
Qed.

(** X3.  The map only names blocks that are in the list.  In every state
    that calls reach from a fresh buffer, a key of [blockMap] is mapped to
    the address of a block that is linked in the block list and carries
    that key, and the address was handed out before: [compactBuf] erases
    the key of every block it unlinks and frees, so the [BufBlock] that
    [addBlockToBuf] and [deleteBlockFromBuf] take from the map is never
    one that was freed. *)
Theorem map_names_listed_blocks (bufSz : Z) (alloc : option (list byte))
    (ops : list Op) (s : CircularBuffer) (key : Z) (p : N) :
  exec ops (initBuf bufSz alloc) = Ok s →
  blockMap s !! key = Some p →
  ∃ i b,
    bufBlockList s !! i = Some b ∧
    findBlock p (bufBlockList s) = Some (i, b) ∧
    blockAddr b = p ∧
    blockMapKey b = key ∧
    (p < nextBlock s)%N.
Proof.
  intros Hexec Hkey.
  pose proof (exec_linked _ _ _ (initBuf_linked bufSz alloc) Hexec)
    as [Hmap Hnext].
  destruct (Hmap key p Hkey) as (i & b & Hfind & Hb).
  pose proof (findBlock_lookup _ _ _ _ Hfind) as Hi.
  pose proof (findBlock_addr _ _ _ _ Hfind) as Hp.
  exists i, b. repeat split; try assumption.
  rewrite Forall_forall in Hnext. rewrite <- Hp. apply Hnext.
  eapply list_elem_of_lookup_2. exact Hi.
Qed.

Lemma map_names_listed_blocks_witness :
  ∃ i b,
    bufBlockList wrapped !! i = Some b ∧
    findBlock 3 (bufBlockList wrapped) = Some (i, b) ∧
    blockAddr b = 3%N ∧
    blockMapKey b = 3 ∧
    (3 < nextBlock wrapped)%N.
Proof.
  apply (map_names_listed_blocks 20 (Some (replicate 20 "."%byte))
           [Add 1 msg1; Add 2 msg2; Delete 1; Dump; Add 3 msg3]
           wrapped 3 3%N).
  - vm_compute. reflexivity.
  - reflexivity.
Defined.
